(** * DungeonObjTest: the dungeon generator of [dungeonGen.js]

    A shallow embedding of the [Dungeon] class: the seeded random source,
    the grid partitioner, the point and path synthesizer, the room placer,
    the extra-path augmenter, the connectivity validator and the accessors,
    followed by the properties of the specification that were checked
    against it.

    Conventions.
    - JavaScript numbers that hold coordinates, counts and indices are
      integers, modelled in [Z].
    - An uncaught [TypeError] (reading a property of [undefined]) is an
      outcome of its own: [None] in pure functions, [Throw] in [Gen].
    - Logging ([printToLog], [console.log]) is left out. *)

From stdpp Require Import base option list gmap.
From Stdlib Require Import ZArith QArith Lia.

Local Open Scope Z_scope.

(** ** Counted loops

    [for (let i = lo; i < hi; i++)] visits [seqZ lo (hi - lo)]. *)

Definition upto (lo hi : Z) : list Z := seqZ lo (hi - lo).

(** ** The random source

    [#seed] is [null] (the generator then asks [Math.random]) or the state of
    a linear congruential generator. [Math.random()] is the next value of an
    entropy stream, a double in [0,1) written as a numerator over 2^53.
    The quotient [seed / 233280] and its product with the width of the range
    are taken exactly; [roundingFree], below, checks that a seeded run has
    no draw on which doubles could round to another integer. *)

Record Rng := mkRng {
  seed : option Z;
  entropy : nat → Z;
  calls : nat
}.

Definition mathRandomDen : Z := 2 ^ 53.

Definition randomInt (min max : Z) (r : Rng) : Z * Rng :=
  match seed r with
  | None =>
      let u := entropy r (calls r) in
      ((u * (max - min + 1)) `div` mathRandomDen + min,
       mkRng None (entropy r) (S (calls r)))
  | Some s =>
      let s' := (s * 9301 + 49297) `rem` 233280 in
      ((s' * (max - min + 1)) `div` 233280 + min,
       mkRng (Some s') (entropy r) (calls r))
  end.

(** A random source whose draws stay inside the requested range: the
    entropy stream delivers numerators of doubles in [0,1), and a seed is
    not negative (JavaScript's [%] keeps the sign of a negative seed). *)
Definition rng_ok (r : Rng) : Prop :=
  match seed r with
  | None => ∀ k, 0 ≤ entropy r k < mathRandomDen
  | Some s => 0 ≤ s
  end.

(** ** Programs that draw random numbers

    The generator touches its random source only through [randomInt]; a
    method is a tree whose nodes are the calls of [randomInt]. [Throw] is
    an uncaught [TypeError]; [Spin] marks a loop that was cut off by its
    fuel. *)

Inductive Gen (A : Type) : Type :=
| Ret (a : A)
| Draw (min max : Z) (k : Z → Gen A)
| Throw
| Spin.
Arguments Ret {A} a.
Arguments Draw {A} min max k.
Arguments Throw {A}.
Arguments Spin {A}.

Fixpoint gbind {A B} (m : Gen A) (f : A → Gen B) : Gen B :=
  match m with
  | Ret a => f a
  | Draw lo hi k => Draw lo hi (λ v, gbind (k v) f)
  | Throw => Throw
  | Spin => Spin
  end.

#[global] Instance gen_ret : MRet Gen := @Ret.
#[global] Instance gen_bind : MBind Gen := λ A B f m, gbind m f.

Definition draw (min max : Z) : Gen Z := Draw min max Ret.

(** [o] is a value that is dereferenced: [undefined] throws. *)
Definition must {A} (o : option A) : Gen A :=
  match o with Some a => Ret a | None => Throw end.

Fixpoint foldGen {A S} (f : S → A → Gen S) (l : list A) (s : S) : Gen S :=
  match l with
  | [] => Ret s
  | a :: l' => s' ← f s a; foldGen f l' s'
  end.

Inductive Outcome (A : Type) : Type :=
| Ok (a : A) (r : Rng)
| TypeError
| OutOfFuel.
Arguments Ok {A} a r.
Arguments TypeError {A}.
Arguments OutOfFuel {A}.

Fixpoint run {A} (p : Gen A) (r : Rng) : Outcome A :=
  match p with
  | Ret a => Ok a r
  | Draw lo hi k => let '(v, r') := randomInt lo hi r in run (k v) r'
  | Throw => TypeError
  | Spin => OutOfFuel
  end.

(** What a run returns, without the final state of the random source. *)
Definition value {A} (o : Outcome A) : Outcome A :=
  match o with
  | Ok a r => Ok a (mkRng None (λ _, 0) 0)
  | TypeError => TypeError
  | OutOfFuel => OutOfFuel
  end.

(** ** Path synthesis: [#getPath]

    The first loop runs while [i < Math.abs(diff) / 2], the real half:
    for the integers [i] below [(|diff| + 1) / 2]. The second loop, for
    [i] from 1 to [|diff|], reads the last element of the path at every
    round, and so does the head of the third loop, which runs from that
    element's coordinate while [i < Math.abs(end)]. The last element of
    an empty path is [undefined], and reading its coordinate throws. *)

Abbreviation Pt := (Z * Z)%type.

Definition push {A} (l : list A) (a : A) : list A := l ++ [a].

Definition getPath (point1 point2 : Pt) : option (list Pt) :=
  let '(startX, startY) := point1 in
  let '(endX, endY) := point2 in
  let xDiff := endX - startX in
  let yDiff := endY - startY in
  if yDiff <? xDiff then
    let path1 :=
      foldl (λ path i,
               if 0 <? xDiff then push path (startX + i, startY)
               else push path (startX - i, startY))
            [] (upto 0 ((Z.abs xDiff + 1) `div` 2)) in
    path2 ←
      (if yDiff =? 0 then Some path1
       else
         foldl (λ acc i,
                  path ← acc;
                  l ← last path;
                  if 0 <? yDiff then Some (push path (l.1, startY + i))
                  else Some (push path (l.1, startY - i)))
               (Some path1) (upto 1 (Z.abs yDiff + 1)));
    l ← last path2;
    Some (foldl (λ path i,
                   if 0 <? xDiff then push path (i + 1, endY)
                   else push path (i - 1, endY))
                path2 (upto l.1 (Z.abs endX)))
  else
    let path1 :=
      foldl (λ path i,
               if 0 <? yDiff then push path (startX, startY + i)
               else push path (startX, startY - i))
            [] (upto 0 ((Z.abs yDiff + 1) `div` 2)) in
    path2 ←
      (if xDiff =? 0 then Some path1
       else
         foldl (λ acc i,
                  path ← acc;
                  l ← last path;
                  if 0 <? xDiff then Some (push path (startX + i, l.2))
                  else Some (push path (startX - i, l.2)))
               (Some path1) (upto 1 (Z.abs xDiff + 1)));
    l ← last path2;
    Some (foldl (λ path i,
                   if 0 <? yDiff then push path (endX, i + 1)
                   else push path (endX, i - 1))
                path2 (upto l.2 (Z.abs endY))).

(** Two consecutive path cells: one tile apart along exactly one axis. *)
Definition oneStep (a b : Pt) : bool :=
  bool_decide (Z.abs (b.1 - a.1) + Z.abs (b.2 - a.2) = 1).

Fixpoint contiguous (path : list Pt) : bool :=
  match path with
  | a :: ((b :: _) as rest) => oneStep a b && contiguous rest
  | _ => true
  end.

(** The step from the end of one stretch of a path to the start of the
    next. *)
Definition linked (oa ob : option Pt) : bool :=
  match oa, ob with
  | Some a, Some b => oneStep a b
  | _, _ => true
  end.

(** ** Tiles and the board

    A tile is an object with one field, [type]: the number [0] (wall), a
    positive number (the 1-based index of a grid: a point marker or a room
    cell) or one of the strings ['P'], ['ENTRY'], ['EXIT']. *)

Inductive TileType : Type :=
| TNum (n : Z)
| TP
| TENTRY
| TEXIT.

#[global] Instance TileType_eq_dec : EqDecision TileType.
Proof. solve_decision. Defined.

(** [type > 0]: a string compares as [NaN]. *)
Definition type_gt0 (t : TileType) : bool :=
  match t with TNum n => 0 <? n | _ => false end.

(** [type <= 0] *)
Definition type_le0 (t : TileType) : bool :=
  match t with TNum n => n <=? 0 | _ => false end.

(** [type !== 0] *)
Definition type_ne0 (t : TileType) : bool :=
  match t with TNum n => negb (n =? 0) | _ => true end.

(** A column of the board is a JavaScript array: its [length] and its
    index properties. Writing at or past [length] extends the array;
    writing at a negative index adds a property and leaves [length]. *)
Record Column := mkColumn {
  len : Z;
  cells : gmap Z TileType
}.

Abbreviation Board := (list Column).

(** [l[i]] for a JavaScript array held as a list: [undefined] out of range. *)
Definition lookupZ {A} (l : list A) (i : Z) : option A :=
  if decide (0 ≤ i) then l !! Z.to_nat i else None.

(** [board[x][y]]: [None] when [board[x]] is [undefined] (a [TypeError]),
    [Some None] when the cell is [undefined]. *)
Definition getCell (b : Board) (x y : Z) : option (option TileType) :=
  col ← lookupZ b x; Some (cells col !! y).

(** [board[x][y] = { type: t }] *)
Definition setCell (b : Board) (x y : Z) (t : TileType) : option Board :=
  col ← lookupZ b x;
  Some (<[Z.to_nat x :=
            mkColumn (if decide (len col ≤ y) then y + 1 else len col)
                     (<[y := t]> (cells col))]> b).

(** [[...Array(colCount)].map(() => Array(rowCount).fill().map(() => ({ type: 0 })))] *)
Definition newColumn (rowCount : Z) : Column :=
  mkColumn rowCount (list_to_map ((λ y, (y, TNum 0)) <$> upto 0 rowCount)).

Definition newBoard (colCount rowCount : Z) : Board :=
  replicate (Z.to_nat colCount) (newColumn rowCount).

(** The elements of a column, in index order, holes skipped: what
    [flat()] keeps of it. *)
Definition columnTiles (c : Column) : list TileType :=
  omap (λ y, cells c !! y) (upto 0 (len c)).

(** ** Grids, points, connections, rooms *)

Record GridObj := mkGrid {
  g_x : Z; g_y : Z; g_width : Z; g_height : Z; g_index : Z
}.

Record PointObj := mkPoint { p_x : Z; p_y : Z; p_gridIndex : Z }.

(** A connection holds what [pointList[...]] returned, [undefined]
    included. *)
Record Connection := mkConnection {
  point1 : option PointObj;
  point2 : option PointObj
}.

Inductive RoomType : Type := NORMAL | ENTRY | EXIT | SPECIAL.

#[global] Instance RoomType_eq_dec : EqDecision RoomType.
Proof. solve_decision. Defined.

(** A room as pushed by [#createRooms]: its [type] is absent until the
    room is designated entry or exit. *)
Record RoomObj := mkRoom {
  r_x : Z; r_y : Z; r_width : Z; r_height : Z;
  r_grid : Z; r_onPoint : bool;
  r_type : option RoomType
}.

Definition with_type (t : RoomType) (r : RoomObj) : RoomObj :=
  mkRoom (r_x r) (r_y r) (r_width r) (r_height r) (r_grid r) (r_onPoint r) (Some t).

Record SpecialPoints := mkSpecial {
  sp_entry : option Pt;
  sp_exit : option Pt
}.

(** ** The dungeon instance *)

Record DungeonOptions := mkOptions {
  o_rowCount : Z; o_colCount : Z;
  o_roomCountMin : Z; o_roomCountMax : Z;
  o_minRoomSizeX : Z; o_minRoomSizeY : Z;
  o_maxRoomSizeX : Z; o_maxRoomSizeY : Z;
  o_pointLossChance : Z; o_roomLossChance : Z;
  o_randomPathMax : Z;
  o_seed : option Z
}.

Definition DEFAULT_OPTIONS : DungeonOptions :=
  mkOptions 32 40 8 14 3 3 7 7 10 20 2 None.

(** The fields that are set once by the constructor. *)
Record Params := mkParams {
  rowCount : Z; colCount : Z;
  roomCountMin : Z; roomCountMax : Z;
  minRoomSizeX : Z; minRoomSizeY : Z;
  maxRoomSizeX : Z; maxRoomSizeY : Z;
  randomPathMax : Z
}.

Record Dungeon := mkDungeon {
  params : Params;
  pointLossChance : Z;
  roomLossChance : Z;
  roomCount : Z;
  validDungeon : bool;
  board : Board;
  gridList : list GridObj;
  pointList : list PointObj;
  connectionList : list Connection;
  roomList : list RoomObj;
  specialPoints : SpecialPoints
}.

Definition set_lossChances (pl rl : Z) (d : Dungeon) : Dungeon :=
  mkDungeon (params d) pl rl (roomCount d) (validDungeon d) (board d)
    (gridList d) (pointList d) (connectionList d) (roomList d) (specialPoints d).
Definition set_roomCount (n : Z) (d : Dungeon) : Dungeon :=
  mkDungeon (params d) (pointLossChance d) (roomLossChance d) n (validDungeon d) (board d)
    (gridList d) (pointList d) (connectionList d) (roomList d) (specialPoints d).
Definition set_validDungeon (v : bool) (d : Dungeon) : Dungeon :=
  mkDungeon (params d) (pointLossChance d) (roomLossChance d) (roomCount d) v (board d)
    (gridList d) (pointList d) (connectionList d) (roomList d) (specialPoints d).
Definition set_board (b : Board) (d : Dungeon) : Dungeon :=
  mkDungeon (params d) (pointLossChance d) (roomLossChance d) (roomCount d) (validDungeon d) b
    (gridList d) (pointList d) (connectionList d) (roomList d) (specialPoints d).
Definition set_gridList (l : list GridObj) (d : Dungeon) : Dungeon :=
  mkDungeon (params d) (pointLossChance d) (roomLossChance d) (roomCount d) (validDungeon d) (board d)
    l (pointList d) (connectionList d) (roomList d) (specialPoints d).
Definition set_pointList (l : list PointObj) (d : Dungeon) : Dungeon :=
  mkDungeon (params d) (pointLossChance d) (roomLossChance d) (roomCount d) (validDungeon d) (board d)
    (gridList d) l (connectionList d) (roomList d) (specialPoints d).
Definition set_connectionList (l : list Connection) (d : Dungeon) : Dungeon :=
  mkDungeon (params d) (pointLossChance d) (roomLossChance d) (roomCount d) (validDungeon d) (board d)
    (gridList d) (pointList d) l (roomList d) (specialPoints d).
Definition set_roomList (l : list RoomObj) (d : Dungeon) : Dungeon :=
  mkDungeon (params d) (pointLossChance d) (roomLossChance d) (roomCount d) (validDungeon d) (board d)
    (gridList d) (pointList d) (connectionList d) l (specialPoints d).
Definition set_specialPoints (s : SpecialPoints) (d : Dungeon) : Dungeon :=
  mkDungeon (params d) (pointLossChance d) (roomLossChance d) (roomCount d) (validDungeon d) (board d)
    (gridList d) (pointList d) (connectionList d) (roomList d) s.

(** [for (let i = 0; i < l.length; i++) { const e = l[i]; ... }] *)
Definition indexed {A} (l : list A) : list (Z * A) :=
  zip (upto 0 (Z.of_nat (length l))) l.

(** ** Room-count adjustment

    [while (roomCount % 2 !== 0 && roomCount % 3 !== 0) roomCount++]: a
    loop, run on fuel; two rounds are always enough
    ([adjustRoomCount_total]). *)

Fixpoint adjustRoomCount (fuel : nat) (n : Z) : option Z :=
  match fuel with
  | O => None
  | S fuel' =>
      if negb (n `rem` 2 =? 0) && negb (n `rem` 3 =? 0)
      then adjustRoomCount fuel' (n + 1)
      else Some n
  end.

Definition adjusted (n : Z) : Gen Z :=
  match adjustRoomCount 2 n with Some n' => Ret n' | None => Spin end.

(** ** Grid partitioner: [#createGrid]

    In the branch for odd counts [otherDivisor] is the real quotient
    [roomCount / 3]: [i < roomCount / 3] is [3 * i < roomCount], and
    [Math.floor(rowCount / (roomCount / 3))] is the integer quotient of
    [3 * rowCount] by [roomCount]. *)

Definition createGrid (d : Dungeon) : Dungeon :=
  let R := roomCount d in
  let P := params d in
  if R `rem` 2 =? 0 then
    let otherDivisor := R `div` 2 in
    let splitRow := rowCount P `div` 2 in
    let splitCol := colCount P `div` otherDivisor in
    set_gridList
      (foldl (λ gl i,
                foldl (λ gl j,
                         push gl (mkGrid (i * splitCol) (j * splitRow) splitCol splitRow
                                         (Z.of_nat (length gl))))
                      gl (upto 0 2))
             (gridList d) (upto 0 otherDivisor)) d
  else
    let splitCol := colCount P `div` 3 in
    let splitRow := (3 * rowCount P) `div` R in
    set_gridList
      (foldl (λ gl i,
                foldl (λ gl j,
                         push gl (mkGrid (j * splitCol) (i * splitRow) splitCol splitRow
                                         (Z.of_nat (length gl))))
                      gl (upto 0 3))
             (gridList d) (upto 0 ((R + 2) `div` 3))) d.

(** ** Point and path synthesizer: [#getAdjacentGrids], [#createPaths] *)

Definition getAdjacentGrids (gridList : list GridObj) (grid : GridObj) : list GridObj :=
  filter (λ selectedGrid,
            let sameX := g_x selectedGrid = g_x grid in
            let sameY := g_y selectedGrid = g_y grid in
            let nextX := g_x selectedGrid = g_x grid + g_width grid in
            let nextY := g_y selectedGrid = g_y grid + g_height grid in
            (sameX ∧ nextY) ∨ (sameY ∧ nextX))
         gridList.

Definition xy (p : PointObj) : Pt := (p_x p, p_y p).

(** [this.#getPath(connection.point1, connection.point2)] *)
Definition connectionPath (c : Connection) : option (list Pt) :=
  p1 ← point1 c; p2 ← point2 c; getPath (xy p1) (xy p2).

Definition createPaths (d : Dungeon) : Gen Dungeon :=
  let P := params d in
  (* pick a point per grid *)
  pl ← foldGen (λ pl ig,
                  let grid := ig.2 in
                  let minX := g_x grid + minRoomSizeX P in
                  let maxX := g_x grid + g_width grid - minRoomSizeX P in
                  let minY := g_y grid + minRoomSizeY P in
                  let maxY := g_y grid + g_height grid - minRoomSizeY P in
                  x ← draw minX maxX;
                  y ← draw minY maxY;
                  Ret (push pl (mkPoint x y ig.1)))
               (indexed (gridList d)) (pointList d);
  (* points are placed on the board *)
  b ← must (foldl (λ ob point,
                     b ← ob; setCell b (p_x point) (p_y point) (TNum (p_gridIndex point + 1)))
                  (Some (board d)) pl);
  (* one connection per pair of adjacent grids, unless the roll loses it *)
  cl ← foldGen (λ cl grid,
                  foldGen (λ cl adjacentGrid,
                             let connection :=
                               mkConnection (lookupZ pl (g_index grid))
                                            (lookupZ pl (g_index adjacentGrid)) in
                             roll ← draw 1 100;
                             if pointLossChance d <? roll
                             then Ret (push cl connection) else Ret cl)
                          (getAdjacentGrids (gridList d) grid) cl)
               (gridList d) (connectionList d);
  (* the paths are written onto the board *)
  b ← must (foldl (λ ob connection,
                     b ← ob;
                     path ← connectionPath connection;
                     foldl (λ ob point, b ← ob; setCell b point.1 point.2 TP)
                           (Some b) path)
                  (Some b) cl);
  Ret (set_board b (set_connectionList cl (set_pointList pl d))).

(** ** Room placer: [#createRooms] *)

Record Candidate := mkCandidate {
  roomWidth : Z; roomHeight : Z; roomX : Z; roomY : Z
}.

(** The size and position draws, made before the loop and after every
    rejected candidate. *)
Definition sampleCandidate (P : Params) (grid : GridObj) : Gen Candidate :=
  w ← draw (minRoomSizeX P) (maxRoomSizeX P);
  h ← draw (minRoomSizeY P) (maxRoomSizeY P);
  x ← draw (g_x grid) (g_x grid + g_width grid - w);
  y ← draw (g_y grid) (g_y grid + g_height grid - h);
  Ret (mkCandidate w h x y).

(** The inner loop over [y] of the validity scan, for one [x]. The state
    is [(validPosition, onPoint)]; each [break] leaves the loop. *)
Fixpoint scanColumn (P : Params) (b : Board) (grid : GridObj) (point : option PointObj)
    (x : Z) (ys : list Z) (st : bool * bool) : option (bool * bool) :=
  match ys with
  | [] => Some st
  | y :: ys' =>
      (* make sure the room is not out of bounds *)
      if (x <? 0) || (colCount P <=? x) || (y <? 0) || (rowCount P <=? y)
      then Some (false, st.2)
      else
        otile ← getCell b x y;
        tile ← otile;
        (* make sure the room is not overlapping another room *)
        if type_gt0 tile then Some (false, st.2)
        (* make sure that it's not escaping the grid *)
        else if (x =? g_x grid) || (x =? g_x grid + g_width grid - 1)
                || (y =? g_y grid) || (y =? g_y grid + g_height grid - 1)
        then Some (false, st.2)
        else
          (* track if the room has intersected with a point *)
          p ← point;
          scanColumn P b grid point x ys'
            (if (x =? p_x p) && (y =? p_y p) then (st.1, true) else st)
  end.

(** One pass of the validity scan, from [validPosition = true] and
    [onPoint = false]. *)
Definition scanCandidate (P : Params) (b : Board) (grid : GridObj) (point : option PointObj)
    (c : Candidate) : option (bool * bool) :=
  foldl (λ ost x,
           st ← ost;
           scanColumn P b grid point x (upto (roomY c) (roomY c + roomHeight c)) st)
        (Some (true, false)) (upto (roomX c) (roomX c + roomWidth c)).

(** [while (!validPosition && attempts < 1000)], with [n] the attempts that
    are left. The result is the candidate the loop ends on with the final
    [validPosition] and [onPoint]: a rejected candidate is replaced by fresh
    draws and both flags are reset, so when the attempts run out the loop
    ends on a candidate that no scan has seen. *)
Fixpoint placementLoop (n : nat) (P : Params) (b : Board) (grid : GridObj)
    (point : option PointObj) (c : Candidate) : Gen (Candidate * bool * bool) :=
  match n with
  | O => Ret (c, false, false)
  | S n' =>
      st ← must (scanCandidate P b grid point c);
      if negb st.1 || negb st.2 then
        c' ← sampleCandidate P grid;
        placementLoop n' P b grid point c'
      else Ret (c, true, true)
  end.

(** [c.point1.gridIndex === grid.index || c.point2.gridIndex === grid.index] *)
Definition connectionTouches (grid : GridObj) (c : Connection) : option bool :=
  p1 ← point1 c;
  if p_gridIndex p1 =? g_index grid then Some true
  else p2 ← point2 c; Some (p_gridIndex p2 =? g_index grid).

(** The nested loop that draws the room on the board. *)
Definition stampRoom (b : Board) (c : Candidate) (t : TileType) : option Board :=
  foldl (λ ob x,
           foldl (λ ob y, b ← ob; setCell b x y t)
                 ob (upto (roomY c) (roomY c + roomHeight c)))
        (Some b) (upto (roomX c) (roomX c + roomWidth c)).

(** The body of the loop over the grids: [i] is the loop index. *)
Definition placeRoom (d : Dungeon) (i : Z) (grid : GridObj) : Gen Dungeon :=
  let P := params d in
  let point := head (filter (λ p, p_gridIndex p = g_index grid) (pointList d)) in
  touches ← must (mapM (connectionTouches grid) (connectionList d));
  let validConnections := filter (λ t, t = true) touches in
  if bool_decide (length validConnections = 0%nat) then Ret d
  else
    c ← sampleCandidate P grid;
    res ← placementLoop 1000 P (board d) grid point c;
    let '(c, validPosition, onPoint) := res in
    (* time for the dice roll! *)
    diceRoll ← draw 1 100;
    if roomLossChance d <=? diceRoll then
      b ← must (stampRoom (board d) c (TNum (i + 1)));
      let room := mkRoom (roomX c) (roomY c) (roomWidth c) (roomHeight c) i onPoint None in
      Ret (set_roomList (push (roomList d) room) (set_board b d))
    else Ret d.

(** [board[x][y].type = t]: the tile object is updated in place. *)
Definition retypeCell (b : Board) (p : Pt) (t : TileType) : option Board :=
  otile ← getCell b p.1 p.2;
  _ ← otile;
  setCell b p.1 p.2 t.

(** The designation of the entry and exit rooms. [availableRooms] is a
    copy of the array [roomList], not of the rooms: its elements are
    references to the rooms of [roomList], held here as their positions
    in [roomList]. When [entryRoom] is [undefined] the assignment to
    [entryRoom.type] throws; the draw of [exitIndex] that comes before it
    leaves no trace, and the throw is placed before it. *)
Definition designateRooms (d : Dungeon) : Gen Dungeon :=
  if bool_decide (2 ≤ length (roomList d))%nat then
    let availableRooms := seq 0 (length (roomList d)) in
    entryIndex ← draw 0 (Z.of_nat (length availableRooms) - 1);
    match lookupZ availableRooms entryIndex with
    | None => Throw
    | Some entryRef =>
        let availableRooms := delete (Z.to_nat entryIndex) availableRooms in
        exitIndex ← draw 0 (Z.of_nat (length availableRooms) - 1);
        entryRoom ← must (roomList d !! entryRef);
        exitRef ← must (lookupZ availableRooms exitIndex);
        exitRoom ← must (roomList d !! exitRef);
        let rooms := alter (with_type EXIT) exitRef
                       (alter (with_type ENTRY) entryRef (roomList d)) in
        ex ← draw (r_x entryRoom + 1) (r_x entryRoom + r_width entryRoom - 2);
        ey ← draw (r_y entryRoom + 1) (r_y entryRoom + r_height entryRoom - 2);
        xx ← draw (r_x exitRoom + 1) (r_x exitRoom + r_width exitRoom - 2);
        xy ← draw (r_y exitRoom + 1) (r_y exitRoom + r_height exitRoom - 2);
        b ← must (retypeCell (board d) (ex, ey) TENTRY);
        b ← must (retypeCell b (xx, xy) TEXIT);
        Ret (set_board b
               (set_specialPoints (mkSpecial (Some (ex, ey)) (Some (xx, xy)))
                  (set_roomList rooms d)))
    end
  else Ret d.

Definition createRooms (d : Dungeon) : Gen Dungeon :=
  d ← foldGen (λ d ig, placeRoom d ig.1 ig.2) (indexed (gridList d)) d;
  designateRooms d.

(** ** Extra-path augmenter: [#addRandomPaths] *)

(** The board cells whose type is ['P'], column by column. A hole in a
    column is [undefined], whose [type] cannot be read. *)
Definition pathableTiles (b : Board) : option (list Pt) :=
  foldl (λ acc xc,
           foldl (λ acc y,
                    l ← acc;
                    tile ← cells xc.2 !! y;
                    if decide (tile = TP) then Some (push l (xc.1, y)) else Some l)
                 acc (upto 0 (len xc.2)))
        (Some []) (indexed b).

(** [if (board[x][y].type <= 0) board[x][y] = { type: 'P' }] *)
Definition carve (b : Board) (p : Pt) : option Board :=
  otile ← getCell b p.1 p.2;
  tile ← otile;
  if type_le0 tile then setCell b p.1 p.2 TP else Some b.

Definition addRandomPaths (d : Dungeon) : Gen Dungeon :=
  pathCount ← draw 0 (randomPathMax (params d));
  tiles ← must (pathableTiles (board d));
  b ← foldGen (λ b _,
                 si ← draw 0 (Z.of_nat (length tiles) - 1);
                 ei ← draw 0 (Z.of_nat (length tiles) - 1);
                 start ← must (lookupZ tiles si);
                 end_ ← must (lookupZ tiles ei);
                 if (start.1 =? end_.1) || (start.2 =? end_.2) then Ret b
                 else
                   path ← must (getPath start end_);
                   must (foldl (λ ob point, b ← ob; carve b point) (Some b) path))
              (upto 0 pathCount) (board d);
  Ret (set_board b d).

(** ** Connectivity validator: [#getAdjacentTiles], [#validateDungeon] *)

Definition neighbours (p : Pt) : list Pt :=
  let '(x, y) := p in
  [ (x - 1, y - 1); (x, y - 1); (x + 1, y - 1); (x + 1, y);
    (x + 1, y + 1); (x, y + 1); (x - 1, y + 1); (x - 1, y) ].

(** [tile?.type !== 0]: an [undefined] tile passes the test. *)
Definition notWall (otile : option TileType) : bool :=
  match otile with Some t => type_ne0 t | None => true end.

Definition getAdjacentTiles (b : Board) (point : Pt) : option (list Pt) :=
  foldl (λ acc q,
           adjacentTiles ← acc;
           otile ← getCell b q.1 q.2;
           if notWall otile then Some (push adjacentTiles q) else Some adjacentTiles)
        (Some []) (neighbours point).

Inductive Flood : Type :=
| Filled (checkedTiles : gset Pt)
| FloodThrows
| FloodSpins.

(** The two nested loops of the flood fill, one round of fuel for each
    pass through the body of [for (const tile of uncheckedTiles)] and for
    each return to the [while]. [idx] is the position of the array
    iterator. Every element of [uncheckedTiles] is an object of its own,
    so [indexOf(tile)] is the position the iterator is at and [splice]
    removes the element there; the pushes go to the end, and the iterator
    moves on to [idx + 1]. [checkedTiles] holds the strings ["x,y"], one
    for each pair of integers. *)
Fixpoint floodLoop (fuel : nat) (b : Board) (uncheckedTiles : list Pt) (idx : nat)
    (checkedTiles : gset Pt) : Flood :=
  match fuel with
  | O => FloodSpins
  | S fuel' =>
      match uncheckedTiles !! idx with
      | None =>
          match uncheckedTiles with
          | [] => Filled checkedTiles
          | _ => floodLoop fuel' b uncheckedTiles 0 checkedTiles
          end
      | Some tile =>
          match getAdjacentTiles b tile with
          | None => FloodThrows
          | Some adjacentTiles =>
              let checkedTiles := {[tile]} ∪ checkedTiles in
              let uncheckedTiles := delete idx uncheckedTiles in
              floodLoop fuel' b
                (uncheckedTiles ++ filter (λ t, t ∉ checkedTiles) adjacentTiles)
                (S idx) checkedTiles
          end
      end
  end.

(** [this.board.flat().filter(tile => tile.type !== 0).length] *)
Definition floorTileCount (b : Board) : nat :=
  length (filter (λ t, type_ne0 t = true) (concat (columnTiles <$> b))).

(** The first tile is [pointList[randomInt(0, pointList.length - 1)]];
    [roomCount < gridCount / 2] compares with the real quotient, that is
    [2 * roomCount < gridCount]. *)
Definition validateDungeon (fuel : nat) (d : Dungeon) : Gen bool :=
  k ← draw 0 (Z.of_nat (length (pointList d)) - 1);
  firstTile ← must (lookupZ (pointList d) k);
  match floodLoop fuel (board d) [xy firstTile] 0 ∅ with
  | FloodThrows => Throw
  | FloodSpins => Spin
  | Filled checkedTiles =>
      if bool_decide (size checkedTiles = floorTileCount (board d)) then
        let gridCount := Z.of_nat (length (gridList d)) in
        let roomCount := Z.of_nat (length (roomList d)) in
        if 2 * roomCount <? gridCount then Ret false else Ret true
      else Ret false
  end.

(** ** Dungeon controller: [regenerate] and the constructor *)

(** [regenerate], up to the call of the validator: the board, the room
    count and the four lists are set anew; [specialPoints] is not. *)
Definition layout (d : Dungeon) : Gen Dungeon :=
  let P := params d in
  let d := set_board (newBoard (colCount P) (rowCount P)) d in
  n ← draw (roomCountMin P) (roomCountMax P);
  n ← adjusted n;
  let d := set_roomCount n d in
  let d := set_gridList [] d in
  let d := createGrid d in
  let d := set_pointList [] d in
  let d := set_connectionList [] d in
  d ← createPaths d;
  let d := set_roomList [] d in
  d ← createRooms d;
  addRandomPaths d.

Definition regenerate (fuel : nat) (d : Dungeon) : Gen Dungeon :=
  d ← layout d;
  v ← validateDungeon fuel d;
  Ret (set_validDungeon v d).

(** [while (!this.validDungeon && attempts < 10)], with [n] the attempts
    that are left. *)
Fixpoint firstAttempts (fuel n : nat) (d : Dungeon) : Gen Dungeon :=
  match n with
  | O => Ret d
  | S n' =>
      if validDungeon d then Ret d
      else d ← regenerate fuel d; firstAttempts fuel n' d
  end.

(** [while (!this.validDungeon && attempts >= 10)]: the emergency mode,
    without a bound of its own. *)
Fixpoint forcedAttempts (fuel n : nat) (d : Dungeon) : Gen Dungeon :=
  if validDungeon d then Ret d
  else
    match n with
    | O => Spin
    | S n' =>
        let previousPointLossChance := pointLossChance d in
        let previousRoomLossChance := roomLossChance d in
        d ← regenerate fuel (set_lossChances 0 0 d);
        forcedAttempts fuel n'
          (set_lossChances previousPointLossChance previousRoomLossChance d)
    end.

(** The instance the constructor has built when it enters its first loop:
    [config] is the configuration merged with the defaults, [n] the room
    count. The board built here is replaced by the first [regenerate]. *)
Definition instance (config : DungeonOptions) (n : Z) : Dungeon :=
  let rowCount := Z.max 20 (o_rowCount config) in
  let colCount := Z.max 20 (o_colCount config) in
  let minRoomSizeX := Z.max 3 (o_minRoomSizeX config) in
  let minRoomSizeY := Z.max 3 (o_minRoomSizeY config) in
  let maxRoomSizeX := Z.max minRoomSizeX (o_maxRoomSizeX config) in
  let maxRoomSizeY := Z.max minRoomSizeY (o_maxRoomSizeY config) in
  mkDungeon
    (mkParams rowCount colCount (o_roomCountMin config) (o_roomCountMax config)
              minRoomSizeX minRoomSizeY maxRoomSizeX maxRoomSizeY
              (o_randomPathMax config))
    (o_pointLossChance config) (o_roomLossChance config)
    n false (newBoard colCount rowCount) [] [] [] []
    (mkSpecial None None).

Definition construct (fuel : nat) (config : DungeonOptions) : Gen Dungeon :=
  n ← draw (o_roomCountMin config) (o_roomCountMax config);
  n ← adjusted n;
  d ← firstAttempts fuel 10 (instance config n);
  forcedAttempts fuel fuel d.

(** [new Dungeon(config)] with [Math.random] reading [entropy]: [#seed]
    starts as [null] and is set when [config.seed !== null]. *)
Definition newDungeon (fuel : nat) (config : DungeonOptions) (entropy : nat → Z)
    : Outcome Dungeon :=
  run (construct fuel config) (mkRng (o_seed config) entropy 0).

(** ** Accessors: [getTileAt], [isWalkable] *)

Inductive TileKind : Type :=
| KWALL | KFLOOR | KCORRIDOR | KENTRY | KEXIT.

#[global] Instance TileKind_eq_dec : EqDecision TileKind.
Proof. solve_decision. Defined.

(** What [getTileAt] gives back: [null], an object [{ type }], or, when
    the board has no tile at an in-bounds position, a [TypeError]. *)
Inductive TileResult : Type :=
| RNull
| RTile (type : TileKind)
| RThrows.

Definition getTileAt (d : Dungeon) (x y : Z) : TileResult :=
  let P := params d in
  if (x <? 0) || (colCount P <=? x) || (y <? 0) || (rowCount P <=? y) then RNull
  else
    match getCell (board d) x y with
    | Some (Some tile) =>
        match tile with
        | TNum 0 => RTile KWALL
        | TP => RTile KCORRIDOR
        | TENTRY => RTile KENTRY
        | TEXIT => RTile KEXIT
        | TNum _ => RTile KFLOOR
        end
    | _ => RThrows
    end.

(** What [isWalkable] gives back. [tile && tile.type !== WALL] is its first
    operand when that is falsy, and [null] is: the value is [null], not
    [false], when [getTileAt] returns [null]. *)
Inductive WalkResult : Type :=
| WNull
| WBool (b : bool)
| WThrows.

Definition isWalkable (d : Dungeon) (x y : Z) : WalkResult :=
  match getTileAt d x y with
  | RNull => WNull
  | RTile type => WBool (bool_decide (type ≠ KWALL))
  | RThrows => WThrows
  end.

(** ** What every run of a program guarantees

    [post p Q]: [Q] holds of whatever [p] returns, for every sequence of
    draws that stay inside their ranges. A program that throws or is cut
    off returns nothing. *)

Fixpoint post {A} (p : Gen A) (Q : A → Prop) : Prop :=
  match p with
  | Ret a => Q a
  | Draw lo hi k => ∀ v, (lo ≤ hi → lo ≤ v ≤ hi) → post (k v) Q
  | Throw => True
  | Spin => True
  end.

(** A dungeon that has not been generated yet: what the constructor holds
    before its first [regenerate], for a 20 by 20 board with 4 rooms and no
    loss chances. *)
Definition blankDungeon : Dungeon :=
  instance (mkOptions 20 20 4 4 3 3 7 7 0 0 2 None) 4.

(** A seeded run follows the run of the JavaScript code as long as the
    floor of no draw depends on how doubles round: the exact value of
    [seed / 233280 * (max - min + 1)] is 0 or is not an integer, and is
    then further from the next integer than the rounding errors reach. *)
Fixpoint roundingFree {A} (p : Gen A) (r : Rng) : bool :=
  match p with
  | Draw lo hi k =>
      let '(v, r') := randomInt lo hi r in
      match seed r' with
      | Some s' =>
          ((s' =? 0) || negb ((s' * (hi - lo + 1)) `rem` 233280 =? 0))
          && roundingFree (k v) r'
      | None => roundingFree (k v) r'
      end
  | _ => true
  end.

(** ** The acceptance test of the room placer, as predicates *)

Definition inRect (c : Candidate) (x y : Z) : Prop :=
  roomX c ≤ x < roomX c + roomWidth c ∧ roomY c ≤ y < roomY c + roomHeight c.

Definition inBounds (P : Params) (x y : Z) : Prop :=
  0 ≤ x < colCount P ∧ 0 ≤ y < rowCount P.

Definition onGridBorder (grid : GridObj) (x y : Z) : Prop :=
  x = g_x grid ∨ x = g_x grid + g_width grid - 1 ∨
  y = g_y grid ∨ y = g_y grid + g_height grid - 1.

(** A board of the size the parameters give: every in-bounds cell holds a
    tile. *)
Definition boardShaped (P : Params) (b : Board) : Prop :=
  ∀ x y, inBounds P x y → ∃ t, getCell b x y = Some (Some t).

Definition shaped (d : Dungeon) : Prop := boardShaped (params d) (board d).

(** The test in the words of the specification: every cell in bounds, a
    wall (no room, point marker or corridor tile on it), off the border of
    the grid, and the rectangle covers the point of the grid. *)
Definition claimedValid (P : Params) (b : Board) (grid : GridObj) (point : PointObj)
    (c : Candidate) : Prop :=
  (∀ x y, inRect c x y →
     inBounds P x y ∧ getCell b x y = Some (Some (TNum 0)) ∧ ¬ onGridBorder grid x y) ∧
  inRect c (p_x point) (p_y point).

(** A cell the scan lets pass: in bounds, its tile type not a positive
    number (a wall, or a corridor tile, whose type is a string), off the
    border of the grid. *)
Definition cellPasses (P : Params) (b : Board) (grid : GridObj) (x y : Z) : Prop :=
  inBounds P x y ∧
  (∃ t, getCell b x y = Some (Some t) ∧ type_gt0 t = false) ∧
  ¬ onGridBorder grid x y.

Definition acceptedPlacement (P : Params) (b : Board) (grid : GridObj) (point : PointObj)
    (c : Candidate) : Prop :=
  (∀ x y, inRect c x y → cellPasses P b grid x y) ∧
  inRect c (p_x point) (p_y point).

(** A blank 20 by 20 board with one corridor tile, at (5,5). *)
Definition corridorBoard : Board :=
  default [] (setCell (newBoard 20 20) 5 5 TP).

(** ** Entry and exit *)

(** Room sizes as the constructor leaves them: at least 3, the maximum
    not below the minimum. *)
Definition sizesOk (P : Params) : Prop :=
  3 ≤ minRoomSizeX P ≤ maxRoomSizeX P ∧ 3 ≤ minRoomSizeY P ≤ maxRoomSizeY P.

(** Strictly inside a room: not on its first or last column or row. *)
Definition strictlyInside (p : Pt) (room : RoomObj) : Prop :=
  r_x room < p.1 < r_x room + r_width room - 1 ∧
  r_y room < p.2 < r_y room + r_height room - 1.

(** Exactly one room is the entry and exactly one, another one, is the
    exit; the entry and exit points lie strictly inside them. *)
Definition entryExitOk (d : Dungeon) : Prop :=
  ∃ i j entryRoom exitRoom entry exit,
    i ≠ j ∧
    roomList d !! i = Some entryRoom ∧ roomList d !! j = Some exitRoom ∧
    (∀ k room, roomList d !! k = Some room → (r_type room = Some ENTRY ↔ k = i)) ∧
    (∀ k room, roomList d !! k = Some room → (r_type room = Some EXIT ↔ k = j)) ∧
    specialPoints d = mkSpecial (Some entry) (Some exit) ∧
    strictlyInside entry entryRoom ∧ strictlyInside exit exitRoom.

(** A room as [#createRooms] pushes it. *)
Definition freshRoom (P : Params) (room : RoomObj) : Prop :=
  r_type room = None ∧
  minRoomSizeX P ≤ r_width room ≤ maxRoomSizeX P ∧
  minRoomSizeY P ≤ r_height room ≤ maxRoomSizeY P.

(** What a run returned, and the random source it left, with defaults for
    the runs that return nothing. *)
Definition returned {A} (o : Outcome A) (dflt : A) : A :=
  match o with Ok a _ => a | _ => dflt end.

Definition sourceAfter {A} (o : Outcome A) (dflt : Rng) : Rng :=
  match o with Ok _ r => r | _ => dflt end.

Definition returns {A} (o : Outcome A) : bool :=
  match o with Ok _ _ => true | _ => false end.

(** ** Sample random sources *)

(** Seeded with 42. *)
Definition seed42 : Rng := mkRng (Some 42) (λ _, 0) 0.

(** Unseeded, with a [Math.random] that returns 0 at every call. *)
Definition zeroRandom : Rng := mkRng None (λ _, 0) 0.

(** A run and its rounding check in one pass. *)
Fixpoint audit {A} (p : Gen A) (r : Rng) (free : bool) : Outcome A * bool :=
  match p with
  | Ret a => (Ok a r, free)
  | Draw lo hi k =>
      let '(v, r') := randomInt lo hi r in
      match seed r' with
      | Some s' =>
          audit (k v) r'
                (free && ((s' =? 0) || negb ((s' * (hi - lo + 1)) `rem` 233280 =? 0)))
      | None => audit (k v) r' free
      end
  | Throw => (TypeError, free)
  | Spin => (OutOfFuel, free)
  end.

(** ** Sample configurations *)

(** Every connection is lost ([pointLossChance] is 100) and no extra path
    is asked for, on a 20 by 20 board with 4 rooms, seeded with 42. *)
Definition lossyOptions : DungeonOptions :=
  mkOptions 20 20 4 4 3 3 7 7 100 0 0 (Some 42).

(** A 270 by 270 board with 4 rooms, each 3 by 3, the other options at
    their defaults, with a seed. *)
Definition wideOptions (seed : Z) : DungeonOptions :=
  mkOptions 270 270 4 4 3 3 3 3 10 20 2 (Some seed).

(** ** The seed: [seedRandom], [getSeed] *)

(** [seedRandom(seed)] *)
Definition seedRandom (s : option Z) (r : Rng) : Rng :=
  mkRng s (entropy r) (calls r).

(** [getSeed()] *)
Definition getSeed (r : Rng) : option Z := seed r.

(** The configuration with another seed. *)
Definition with_seed (s : option Z) (config : DungeonOptions) : DungeonOptions :=
  mkOptions (o_rowCount config) (o_colCount config)
    (o_roomCountMin config) (o_roomCountMax config)
    (o_minRoomSizeX config) (o_minRoomSizeY config)
    (o_maxRoomSizeX config) (o_maxRoomSizeY config)
    (o_pointLossChance config) (o_roomLossChance config)
    (o_randomPathMax config) s.

(** ** The partition of [#createGrid] *)

(** The number of grids on a line of the partition: 2 when the room count
    is even, 3 otherwise. *)
Definition perLine (R : Z) : Z := if R `rem` 2 =? 0 then 2 else 3.

(** The grid [#createGrid] pushes at position [t]. *)
Definition gridAt (P : Params) (R t : Z) : GridObj :=
  if R `rem` 2 =? 0 then
    let splitCol := colCount P `div` (R `div` 2) in
    let splitRow := rowCount P `div` 2 in
    mkGrid (t `div` 2 * splitCol) (t `mod` 2 * splitRow) splitCol splitRow t
  else
    let splitCol := colCount P `div` 3 in
    let splitRow := rowCount P `div` (R `div` 3) in
    mkGrid (t `mod` 3 * splitCol) (t `div` 3 * splitRow) splitCol splitRow t.

(** Two rectangles with no cell in common. *)
Definition apart (g g' : GridObj) : Prop :=
  g_x g + g_width g ≤ g_x g' ∨ g_x g' + g_width g' ≤ g_x g ∨
  g_y g + g_height g ≤ g_y g' ∨ g_y g' + g_height g' ≤ g_y g.

(** ** The shape of a path *)

(** The three stretches of a path, with the coordinate of the larger
    difference first: [h] steps from [a0] toward [a1], the [|b1 - b0|]
    steps that change the other coordinate, and the steps from the
    coordinate reached, [la], up to [|a1|]. *)
Definition legs (a0 b0 a1 b1 : Z) : list Pt :=
  let dA := a1 - a0 in
  let dB := b1 - b0 in
  let h := (Z.abs dA + 1) `div` 2 in
  let sgn := if 0 <? dA then 1 else -1 in
  let la := a0 + sgn * (h - 1) in
  ((λ i, (a0 + sgn * i, b0)) <$> seqZ 0 h) ++
  ((λ i, (la, if 0 <? dB then b0 + i else b0 - i)) <$> seqZ 1 (Z.abs dB)) ++
  ((λ i, (i + sgn, b1)) <$> seqZ la (Z.abs a1 - la)).

Definition swap (p : Pt) : Pt := (p.2, p.1).

(** ** What holds whatever the draws are *)

(** [always p Q]: [Q] holds of whatever [p] returns, whatever the draws
    are. *)
Fixpoint always {A} (p : Gen A) (Q : A → Prop) : Prop :=
  match p with
  | Ret a => Q a
  | Draw lo hi k => ∀ v, always (k v) Q
  | Throw => True
  | Spin => True
  end.

(** What the steps of a generation attempt leave alone. *)
Definition kept (d d' : Dungeon) : Prop :=
  params d' = params d ∧ pointLossChance d' = pointLossChance d ∧
  roomLossChance d' = roomLossChance d ∧ gridList d' = gridList d.

(** Enough rooms for the validator: [roomCount >= gridCount / 2]. *)
Definition enoughRooms (d : Dungeon) : Prop :=
  (length (gridList d) ≤ 2 * length (roomList d))%nat.

(** What the constructor has set once and for all, and what it restores
    after an attempt in the emergency mode. *)
Definition settled (config : DungeonOptions) (d : Dungeon) : Prop :=
  params d = params (instance config 0) ∧
  pointLossChance d = o_pointLossChance config ∧
  roomLossChance d = o_roomLossChance config ∧
  (validDungeon d = true → enoughRooms d).

Definition gridsForRooms (d : Dungeon) : Prop :=
  roomCountMin (params d) ≤ roomCountMax (params d) → 0 ≤ roomCountMin (params d) →
  roomCountMin (params d) ≤ Z.of_nat (length (gridList d)).

(** ** What [#createPaths] lays out *)

(** A position of the board that holds a tile that is not a wall. *)
Definition nonWallAt (b : Board) (x y : Z) : Prop :=
  ∃ t, getCell b x y = Some (Some t) ∧ type_ne0 t = true.

(** The connection of a grid with one of its adjacent grids. *)
Definition connectionOf (pl : list PointObj) (grid adjacentGrid : GridObj) : Connection :=
  mkConnection (lookupZ pl (g_index grid)) (lookupZ pl (g_index adjacentGrid)).

(** The connections that [#createPaths] rolls for, in order. *)
Definition allConnections (gl : list GridObj) (pl : list PointObj) : list Connection :=
  grid ← gl; connectionOf pl grid <$> getAdjacentGrids gl grid.

(** A grid wide and high enough for its point: the range from which
    [#createPaths] draws either coordinate is not empty. *)
Definition roomy (P : Params) (grid : GridObj) : Prop :=
  2 * minRoomSizeX P ≤ g_width grid ∧ 2 * minRoomSizeY P ≤ g_height grid.

(** The point of a grid is that far from the border of the grid. *)
Definition pointInGrid (P : Params) (grid : GridObj) (point : PointObj) : Prop :=
  g_x grid + minRoomSizeX P ≤ p_x point ≤ g_x grid + g_width grid - minRoomSizeX P ∧
  g_y grid + minRoomSizeY P ≤ p_y point ≤ g_y grid + g_height grid - minRoomSizeY P.

(** What [#createPaths] leaves on an instance whose point and connection
    lists were empty. *)
Definition pathsLaid (d d' : Dungeon) : Prop :=
  (* one point per grid, on a tile that is not a wall *)
  length (pointList d') = length (gridList d) ∧
  (∀ (i : nat) grid, gridList d !! i = Some grid →
     ∃ point, pointList d' !! i = Some point ∧ p_gridIndex point = Z.of_nat i ∧
              (roomy (params d) grid → pointInGrid (params d) grid point) ∧
              nonWallAt (board d') (p_x point) (p_y point)) ∧
  (* the connections that were kept, among those rolled for *)
  sublist (connectionList d') (allConnections (gridList d) (pointList d')) ∧
  (pointLossChance d < 1 →
   connectionList d' = allConnections (gridList d) (pointList d')) ∧
  (100 ≤ pointLossChance d → connectionList d' = []) ∧
  (* the corridors *)
  (∀ c, c ∈ connectionList d' →
     ∃ path, connectionPath c = Some path ∧
             ∀ q, q ∈ path → getCell (board d') q.1 q.2 = Some (Some TP)) ∧
  (* nothing is turned into a wall *)
  (∀ x y, nonWallAt (board d) x y → nonWallAt (board d') x y).

(** ** Rooms, points and corridors on the board *)

(** The rectangle of a room. *)
Definition inRoom (room : RoomObj) (x y : Z) : Prop :=
  r_x room ≤ x < r_x room + r_width room ∧ r_y room ≤ y < r_y room + r_height room.

(** What [#addRandomPaths] may do to a board: a cell is as it was, or it
    held a tile with [type <= 0] and now holds a corridor tile. *)
Definition carved (b b' : Board) : Prop :=
  ∀ x y, getCell b' x y = getCell b x y ∨
         ∃ t, getCell b x y = Some (Some t) ∧ type_le0 t = true ∧
              getCell b' x y = Some (Some TP).

(** Every tile of every room, every point and every tile of the path of
    every connection is a tile that is not a wall. *)
Definition furnished (d : Dungeon) : Prop :=
  (∀ room x y, room ∈ roomList d → inRoom room x y → nonWallAt (board d) x y) ∧
  (∀ point, point ∈ pointList d → nonWallAt (board d) (p_x point) (p_y point)) ∧
  (∀ c, c ∈ connectionList d →
     ∃ path, connectionPath c = Some path ∧
             ∀ q, q ∈ path → nonWallAt (board d) q.1 q.2).

(** With two rooms or more, the entry and exit points are set and their
    tiles are marked: the exit tile is of type [EXIT], and the entry tile
    of type [ENTRY] unless the exit was put on the same tile. *)
Definition marked (d : Dungeon) : Prop :=
  (2 ≤ length (roomList d))%nat →
  ∃ entry exit,
    specialPoints d = mkSpecial (Some entry) (Some exit) ∧
    getCell (board d) exit.1 exit.2 = Some (Some TEXIT) ∧
    (entry ≠ exit → getCell (board d) entry.1 entry.2 = Some (Some TENTRY)).

(** ** The tiles the flood fill reaches *)

(** [tile?.type !== 0] for the tile at [q], [false] where [board[q.x]] is
    [undefined]. *)
Definition passable (b : Board) (q : Pt) : bool :=
  match getCell b q.1 q.2 with
  | Some otile => notWall otile
  | None => false
  end.

(** The tiles that the flood fill can reach from [start]: by steps to one
    of the tiles that [#getAdjacentTiles] returns. *)
Inductive reach (b : Board) (start : Pt) : Pt → Prop :=
| reach_start : reach b start start
| reach_step q adjacentTiles q' :
    reach b start q →
    getAdjacentTiles b q = Some adjacentTiles →
    q' ∈ adjacentTiles →
    reach b start q'.

(** A board of [n] columns whose columns hold nothing outside the rows
    [0 .. m - 1]. *)
Definition boardExact (n m : Z) (b : Board) : Prop :=
  Z.of_nat (length b) = n ∧
  ∀ col y, col ∈ b → y < 0 ∨ m ≤ y → cells col !! y = None.

Definition boardExactb (n m : Z) (b : Board) : bool :=
  bool_decide (Z.of_nat (length b) = n) &&
  forallb (λ col, forallb (λ yt, (0 <=? yt.1) && (yt.1 <? m)) (map_to_list (cells col))) b.

(** What holds at every turn of the flood fill that starts from [start]:
    the start is checked or waiting; every checked tile has its adjacent
    tiles, each of them checked or waiting; every tile checked or waiting
    can be reached from the start. *)
Definition floodInv (b : Board) (start : Pt) (uncheckedTiles : list Pt)
    (checkedTiles : gset Pt) : Prop :=
  (start ∈ checkedTiles ∨ start ∈ uncheckedTiles) ∧
  (∀ q, q ∈ checkedTiles →
     ∃ adjacentTiles, getAdjacentTiles b q = Some adjacentTiles ∧
       ∀ q', q' ∈ adjacentTiles → q' ∈ checkedTiles ∨ q' ∈ uncheckedTiles) ∧
  (∀ q, q ∈ checkedTiles ∨ q ∈ uncheckedTiles → reach b start q).

(** ** Rooms that passed the scan *)

(** A room strictly inside a grid: off the first and last column and row
    of the grid. *)
Definition inGrid (grid : GridObj) (room : RoomObj) : Prop :=
  g_x grid < r_x room ∧ r_x room + r_width room < g_x grid + g_width grid ∧
  g_y grid < r_y room ∧ r_y room + r_height room < g_y grid + g_height grid.

(** What the flag [onPoint] of a room stands for: the room was placed in
    the grid at position [r_grid room] of [gl], it covers the point that
    [#createRooms] finds for that grid in [pl], and all its cells are on
    the board and off the border of the grid. *)
Definition checkedRoom (P : Params) (gl : list GridObj) (pl : list PointObj)
    (room : RoomObj) : Prop :=
  r_onPoint room = true →
  ∃ grid point,
    lookupZ gl (r_grid room) = Some grid ∧
    head (filter (λ p, p_gridIndex p = g_index grid) pl) = Some point ∧
    inRoom room (p_x point) (p_y point) ∧
    ∀ x y, inRoom room x y → inBounds P x y ∧ ¬ onGridBorder grid x y.

(** A room of [roomList] whose flag [onPoint] is set lies in the grid of
    its index, covers the point of that grid, is on the board and off the
    border of the grid; in a grid that is wide and high enough for its
    point, it lies strictly inside the grid. *)
Definition settledRoom (d : Dungeon) (room : RoomObj) : Prop :=
  r_onPoint room = true →
  ∃ grid point,
    lookupZ (gridList d) (r_grid room) = Some grid ∧
    lookupZ (pointList d) (r_grid room) = Some point ∧
    inRoom room (p_x point) (p_y point) ∧
    (∀ x y, inRoom room x y → inBounds (params d) x y ∧ ¬ onGridBorder grid x y) ∧
    (roomy (params d) grid → inGrid grid room).

(** ** Programs that draw alike *)

(** Two programs that make the same draws and end alike: in the same way,
    and when they return, with results that [R] relates. *)
Fixpoint sim {A} (R : A → A → Prop) (p q : Gen A) : Prop :=
  match p, q with
  | Ret a, Ret b => R a b
  | Draw lo hi k, Draw lo' hi' k' => lo = lo' ∧ hi = hi' ∧ ∀ v, sim R (k v) (k' v)
  | Throw, Throw => True
  | Spin, Spin => True
  | _, _ => False
  end.

(** Two instances that differ at most in [validDungeon]. *)
Definition alike (d d' : Dungeon) : Prop :=
  params d = params d' ∧ pointLossChance d = pointLossChance d' ∧
  roomLossChance d = roomLossChance d' ∧ roomCount d = roomCount d' ∧
  board d = board d' ∧ gridList d = gridList d' ∧ pointList d = pointList d' ∧
  connectionList d = connectionList d' ∧ roomList d = roomList d' ∧
  specialPoints d = specialPoints d'.

(** Two instances that differ at most in [validDungeon] and [roomList]. *)
Definition akin (d d' : Dungeon) : Prop :=
  params d = params d' ∧ pointLossChance d = pointLossChance d' ∧
  roomLossChance d = roomLossChance d' ∧ roomCount d = roomCount d' ∧
  board d = board d' ∧ gridList d = gridList d' ∧ pointList d = pointList d' ∧
  connectionList d = connectionList d' ∧ specialPoints d = specialPoints d'.

(** ** More samples *)

(** A 20 by 20 board with 4 rooms, no loss chances, seeded with 42. *)
Definition sampleOptions : DungeonOptions :=
  mkOptions 20 20 4 4 3 3 7 7 0 0 2 (Some 42).

(** The instance [blankDungeon] with its four grids, before
    [#createPaths]. *)
Definition griddedDungeon : Dungeon := createGrid blankDungeon.

(** The instance [blankDungeon] with one corridor tile on its board. *)
Definition corridorDungeon : Dungeon := set_board corridorBoard blankDungeon.

(** A 3 by 3 board with a corridor tile in the middle. *)
Definition cellBoard : Board := default [] (setCell (newBoard 3 3) 1 1 TP).

Definition filled (f : Flood) : bool :=
  match f with Filled _ => true | _ => false end.

(** * Properties *)

(** ** The random source *)

Lemma randomInt_range r lo hi :
  rng_ok r → lo ≤ hi → lo ≤ (randomInt lo hi r).1 ≤ hi.
Proof.
  unfold rng_ok, randomInt, mathRandomDen. intros Hok Hle.
  destruct (seed r) as [s|]; simpl.
  - pose proof (Z.rem_bound_pos (s * 9301 + 49297) 233280 ltac:(lia) ltac:(lia)) as Hs.
    set (s' := (s * 9301 + 49297) `rem` 233280) in *.
    assert (0 ≤ (s' * (hi - lo + 1)) `div` 233280 < hi - lo + 1); [|lia].
    split.
    + apply Z.div_pos; nia.
    + apply Z.div_lt_upper_bound; nia.
  - specialize (Hok (calls r)).
    set (u := entropy r (calls r)) in *.
    assert (0 ≤ (u * (hi - lo + 1)) `div` 2 ^ 53 < hi - lo + 1); [|lia].
    split.
    + apply Z.div_pos; nia.
    + apply Z.div_lt_upper_bound; nia.
Qed.

Lemma randomInt_ok r lo hi : rng_ok r → rng_ok (randomInt lo hi r).2.
Proof.
  unfold rng_ok, randomInt. intros Hok.
  destruct (seed r) as [s|]; simpl; [|done].
  apply Z.rem_nonneg; lia.
Qed.

(** ** Reasoning about programs *)

Lemma post_mono {A} (p : Gen A) (Q Q' : A → Prop) :
  (∀ a, Q a → Q' a) → post p Q → post p Q'.
Proof. intros HQ. induction p; simpl; eauto. Qed.

Lemma post_bind {A B} (m : Gen A) (f : A → Gen B) (Q : B → Prop) :
  post m (λ a, post (f a) Q) → post (m ≫= f) Q.
Proof.
  unfold mbind, gen_bind. induction m; simpl; eauto.
Qed.

(** Whatever [m] does, the result satisfies [Q] when every continuation
    establishes it. *)
Lemma post_bind_any {A B} (m : Gen A) (f : A → Gen B) (Q : B → Prop) :
  (∀ a, post (f a) Q) → post (m ≫= f) Q.
Proof.
  intros Hf. apply post_bind. induction m; simpl; eauto.
Qed.

Lemma post_draw lo hi (Q : Z → Prop) :
  (∀ v, (lo ≤ hi → lo ≤ v ≤ hi) → Q v) → post (draw lo hi) Q.
Proof. intros H. simpl. exact H. Qed.

Lemma post_must {A} (o : option A) (Q : A → Prop) :
  (∀ a, o = Some a → Q a) → post (must o) Q.
Proof. destruct o; simpl; eauto. Qed.

Lemma post_foldGen {A S} (f : S → A → Gen S) (I : S → Prop) (l : list A) (s : S) :
  (∀ s a, a ∈ l → I s → post (f s a) I) → I s → post (foldGen f l s) I.
Proof.
  revert s. induction l as [|a l IH]; intros s Hf Hs; simpl; [done|].
  apply post_bind. eapply post_mono; [|apply Hf; [left|done]].
  intros s' Hs'. apply IH; [|done]. intros. apply Hf; [by right|done].
Qed.

(** A run on a random source that respects its ranges ends in one of the
    results [post] speaks of. *)
Lemma post_run {A} (p : Gen A) (Q : A → Prop) r a r' :
  rng_ok r → post p Q → run p r = Ok a r' → Q a ∧ rng_ok r'.
Proof.
  revert r. induction p as [a0|lo hi k IH| |]; intros r Hok Hp Hrun; simpl in *.
  - by inversion Hrun; subst.
  - destruct (randomInt lo hi r) as [v r1] eqn:E.
    apply (IH v r1); [|apply Hp|done].
    + change r1 with ((v, r1).2). rewrite <- E. by apply randomInt_ok.
    + intros Hle. change v with ((v, r1).1). rewrite <- E. by apply randomInt_range.
  - done.
  - done.
Qed.

(** A seeded run never reads the entropy stream. *)
Lemma run_seeded {A} (p : Gen A) s e1 c1 e2 c2 :
  value (run p (mkRng (Some s) e1 c1)) = value (run p (mkRng (Some s) e2 c2)).
Proof.
  revert s. induction p as [a|lo hi k IH| |]; intros s; simpl; eauto.
Qed.

(** ** Accessors *)

Lemma getTileAt_null d x y :
  getTileAt d x y = RNull ↔
  x < 0 ∨ colCount (params d) ≤ x ∨ y < 0 ∨ rowCount (params d) ≤ y.
Proof.
  unfold getTileAt.
  destruct ((x <? 0) || (colCount (params d) <=? x) || (y <? 0)
            || (rowCount (params d) <=? y)) eqn:E.
  - split; [intros _; lia|done].
  - split; [|lia]. intros H.
    destruct (getCell (board d) x y) as [[[[]| | |]|]|]; discriminate.
Qed.

(** [isWalkable] is truthy exactly on the in-bounds tiles that are not
    walls; out of bounds its value is [null]. *)
Lemma isWalkable_truthy d x y :
  isWalkable d x y = WBool true ↔ ∃ k, getTileAt d x y = RTile k ∧ k ≠ KWALL.
Proof.
  unfold isWalkable. destruct (getTileAt d x y) as [|k|]; split.
  - discriminate.
  - by intros (k & ? & _).
  - intros H. exists k. split; [done|]. injection H as H. by apply bool_decide_eq_true in H.
  - intros (k' & [= <-] & Hk). f_equal. by apply bool_decide_eq_true.
  - discriminate.
  - by intros (k & ? & _).
Qed.

Lemma isWalkable_out_of_bounds d x y :
  x < 0 ∨ colCount (params d) ≤ x ∨ y < 0 ∨ rowCount (params d) ≤ y →
  isWalkable d x y = WNull.
Proof. intros H. apply getTileAt_null in H. unfold isWalkable. by rewrite H. Qed.

(** C9. [getTileAt] returns [null] for a position outside the board, and
    there [isWalkable] does not return the boolean [false] of its
    documentation: on the blank 20 by 20 board, [isWalkable(-1, 0)] is
    [null], while inside the board it is a boolean. *)
Theorem isWalkable_returns_null :
  getTileAt blankDungeon (-1) 0 = RNull ∧
  isWalkable blankDungeon (-1) 0 = WNull ∧
  isWalkable blankDungeon (-1) 0 ≠ WBool false ∧
  isWalkable blankDungeon 3 3 = WBool false.
Proof. vm_compute. repeat split; discriminate. Qed.

(** ** Path synthesis *)

(** C1. Between the corridor tiles (10,10) and (8,5) the x difference, -2,
    is the larger one and is negative: the third loop starts at x = 10,
    which is not below 8, and adds nothing. The path ends at (10,5), not at
    the destination (8,5). *)
Theorem getPath_stops_short :
  getPath (10, 10) (8, 5) = Some [(10,10); (10,9); (10,8); (10,7); (10,6); (10,5)] ∧
  (getPath (10, 10) (8, 5) ≫= last) ≠ Some (8, 5).
Proof. vm_compute. split; [reflexivity|discriminate]. Qed.

(** The same toward smaller y, and a throw on a straight path toward
    smaller coordinates: the first loop adds nothing and the second one
    reads the last element of an empty path. *)
Example getPath_stops_short_y :
  getPath (10, 10) (5, 8) = Some [(10,10); (9,10); (8,10); (7,10); (6,10); (5,10)].
Proof. vm_compute. reflexivity. Qed.

Example getPath_throws : getPath (5, 10) (5, 5) = None ∧ getPath (10, 5) (5, 5) = None.
Proof. vm_compute. done. Qed.

Example getPath_right : getPath (3, 3) (13, 5) =
  Some [(3,3);(4,3);(5,3);(6,3);(7,3);(7,4);(7,5);(8,5);(9,5);(10,5);(11,5);(12,5);(13,5)].
Proof. vm_compute. reflexivity. Qed.

(** *** Paths toward larger coordinates

    The paths [#createPaths] asks for lead from the point of a grid to the
    point of the grid to its right or below it: the larger of the two
    differences is positive. On such pairs the three loops join up and the
    path is as claimed. *)

Lemma contiguous_cons a l :
  contiguous (a :: l) = linked (Some a) (head l) && contiguous l.
Proof. by destruct l. Qed.

Lemma contiguous_app l1 l2 :
  contiguous (l1 ++ l2) = contiguous l1 && contiguous l2 && linked (last l1) (head l2).
Proof.
  induction l1 as [|a l1 IH].
  - simpl. by destruct (contiguous l2), (head l2).
  - rewrite <- app_comm_cons, !contiguous_cons, IH.
    destruct l1 as [|b l1].
    + simpl. destruct l2 as [|c l2]; simpl; [done|].
      rewrite andb_true_r. apply andb_comm.
    + change (last (a :: b :: l1)) with (last (b :: l1)).
      simpl head. rewrite !andb_assoc. done.
Qed.

Lemma contiguous_fmap_seqZ (f : Z → Pt) a n :
  (∀ i, a ≤ i → i + 1 < a + n → oneStep (f i) (f (i + 1)) = true) →
  contiguous (f <$> seqZ a n) = true.
Proof.
  remember (Z.to_nat n) as k eqn:Hk. revert a n Hk.
  induction k as [|k IH]; intros a n Hk Hf.
  - by rewrite seqZ_nil by lia.
  - rewrite seqZ_cons by lia. rewrite fmap_cons, contiguous_cons.
    rewrite IH; [|lia|intros i ??; apply Hf; lia]. rewrite andb_true_r.
    destruct (decide (Z.pred n ≤ 0)).
    + by rewrite seqZ_nil by lia.
    + rewrite seqZ_cons by lia. simpl. apply Hf; lia.
Qed.

Lemma head_fmap_seqZ {A} (f : Z → A) a n : 0 < n → head (f <$> seqZ a n) = Some (f a).
Proof. intros. by rewrite seqZ_cons by lia. Qed.

Lemma last_fmap_seqZ {A} (f : Z → A) a n :
  0 < n → last (f <$> seqZ a n) = Some (f (a + n - 1)).
Proof.
  intros Hn. replace n with ((n - 1) + 1) at 1 by lia.
  rewrite seqZ_app by lia. rewrite (seqZ_cons _ 1) by lia. rewrite (seqZ_nil _ (Z.pred 1)) by lia.
  rewrite fmap_app. simpl. rewrite last_snoc. do 2 f_equal. lia.
Qed.

Lemma foldl_push_if {A} (b : bool) (f g : Z → A) l acc :
  foldl (λ path i, if b then push path (f i) else push path (g i)) acc l
  = acc ++ ((λ i, if b then f i else g i) <$> l).
Proof.
  revert acc. induction l as [|i l IH]; intros acc; simpl.
  - by rewrite app_nil_r.
  - rewrite IH. unfold push. destruct b; by rewrite <- app_assoc.
Qed.

Lemma foldl_step_keep_x (b : bool) (f g : Z → Z) l (path : list Pt) lx ly :
  last path = Some (lx, ly) →
  foldl (λ acc i,
           path ← acc;
           l ← last path;
           if b then Some (push path (l.1, f i)) else Some (push path (l.1, g i)))
        (Some path) l
  = Some (path ++ ((λ i, (lx, if b then f i else g i)) <$> l)).
Proof.
  revert path ly. induction l as [|i l IH]; intros path ly Hlast; simpl.
  - by rewrite app_nil_r.
  - rewrite Hlast. simpl. unfold push.
    destruct b; (erewrite IH; [|by rewrite last_snoc]); by rewrite <- app_assoc.
Qed.

Lemma foldl_step_keep_y (b : bool) (f g : Z → Z) l (path : list Pt) lx ly :
  last path = Some (lx, ly) →
  foldl (λ acc i,
           path ← acc;
           l ← last path;
           if b then Some (push path (f i, l.2)) else Some (push path (g i, l.2)))
        (Some path) l
  = Some (path ++ ((λ i, (if b then f i else g i, ly)) <$> l)).
Proof.
  revert path lx. induction l as [|i l IH]; intros path lx Hlast; simpl.
  - by rewrite app_nil_r.
  - rewrite Hlast. simpl. unfold push.
    destruct b; (erewrite IH; [|by rewrite last_snoc]); by rewrite <- app_assoc.
Qed.

Lemma half_positive d : 0 < d → 0 < (Z.abs d + 1) `div` 2 ≤ d.
Proof.
  intros Hd. rewrite Z.abs_eq by lia.
  pose proof (Z.div_mod (d + 1) 2 ltac:(lia)).
  pose proof (Z.mod_pos_bound (d + 1) 2 ltac:(lia)). lia.
Qed.

Lemma getPath_forward_x sx sy ex ey :
  ey - sy < ex - sx → 0 < ex - sx → 0 ≤ ex →
  ∃ path, getPath (sx, sy) (ex, ey) = Some path ∧
          head path = Some (sx, sy) ∧ last path = Some (ex, ey) ∧
          contiguous path = true.
Proof.
  intros Hdom Hpos Hex. unfold getPath. cbv beta iota zeta.
  pose proof (half_positive (ex - sx) Hpos) as Hh.
  set (h := (Z.abs (ex - sx) + 1) `div` 2) in *.
  assert ((ey - sy <? ex - sx) = true) as -> by lia.
  assert ((0 <? ex - sx) = true) as Hb by lia.
  rewrite foldl_push_if, app_nil_l. unfold upto. rewrite Z.sub_0_r.
  rewrite (Z.abs_eq ex) by lia.
  set (seg1 := (λ i, if 0 <? ex - sx then (sx + i, sy) else (sx - i, sy)) <$> seqZ 0 h).
  assert (last seg1 = Some (sx + h - 1, sy)) as Hlast1.
  { unfold seg1. rewrite last_fmap_seqZ, Hb by lia. do 2 f_equal; lia. }
  assert (head seg1 = Some (sx, sy)) as Hhead1.
  { unfold seg1. rewrite head_fmap_seqZ, Hb by lia. do 2 f_equal; lia. }
  assert (contiguous seg1 = true) as Hc1.
  { apply contiguous_fmap_seqZ. intros i _ _. rewrite Hb. unfold oneStep. simpl.
    apply bool_decide_eq_true. lia. }
  set (seg3 := (λ i, if 0 <? ex - sx then (i + 1, ey) else (i - 1, ey))
                 <$> seqZ (sx + h - 1) (ex - (sx + h - 1))).
  assert (head seg3 = Some (sx + h, ey)) as Hhead3.
  { unfold seg3. rewrite head_fmap_seqZ, Hb by lia. do 2 f_equal; lia. }
  assert (last seg3 = Some (ex, ey)) as Hlast3.
  { unfold seg3. rewrite last_fmap_seqZ, Hb by lia. do 2 f_equal; lia. }
  assert (contiguous seg3 = true) as Hc3.
  { apply contiguous_fmap_seqZ. intros i _ _. rewrite Hb. unfold oneStep. simpl.
    apply bool_decide_eq_true. lia. }
  assert (seg3 ≠ []) as Hne3 by (intros E; by rewrite E in Hhead3).
  destruct (ey - sy =? 0) eqn:Ey.
  - apply Z.eqb_eq in Ey. cbn [mbind option_bind]. rewrite Hlast1. cbn [mbind option_bind fst].
    rewrite foldl_push_if. fold seg3. eexists. split; [reflexivity|].
    split_and!.
    + destruct seg1; [done|]. exact Hhead1.
    + rewrite last_app, Hlast3. done.
    + rewrite contiguous_app, Hc1, Hc3, Hlast1, Hhead3. unfold linked, oneStep. simpl.
      apply bool_decide_eq_true. lia.
  - apply Z.eqb_neq in Ey.
    rewrite (foldl_step_keep_x _ _ _ _ seg1 (sx + h - 1) sy Hlast1).
    set (seg2 := (λ i, (sx + h - 1, if 0 <? ey - sy then sy + i else sy - i))
                   <$> seqZ 1 (Z.abs (ey - sy) + 1 - 1)).
    assert (head seg2 = Some (sx + h - 1, if 0 <? ey - sy then sy + 1 else sy - 1)) as Hhead2.
    { unfold seg2. rewrite head_fmap_seqZ by lia. done. }
    assert (last seg2 = Some (sx + h - 1, ey)) as Hlast2.
    { unfold seg2. rewrite last_fmap_seqZ by lia. do 2 f_equal.
      destruct (0 <? ey - sy) eqn:E; lia. }
    assert (contiguous seg2 = true) as Hc2.
    { apply contiguous_fmap_seqZ. intros i _ _. unfold oneStep. simpl.
      apply bool_decide_eq_true. destruct (0 <? ey - sy); lia. }
    cbn [mbind option_bind]. rewrite last_app, Hlast2. cbn [mbind option_bind fst].
    rewrite foldl_push_if. fold seg3. eexists. split; [reflexivity|].
    split_and!.
    + destruct seg1; [done|]. exact Hhead1.
    + rewrite last_app, Hlast3. done.
    + rewrite !contiguous_app, Hc1, Hc2, Hc3, Hlast1, Hhead2, Hhead3, last_app, Hlast2.
      unfold linked, oneStep. simpl.
      rewrite !bool_decide_eq_true_2; [done| |]; destruct (0 <? ey - sy); simpl; lia.
Qed.

Lemma getPath_forward_y sx sy ex ey :
  ex - sx ≤ ey - sy → 0 < ey - sy → 0 ≤ ey →
  ∃ path, getPath (sx, sy) (ex, ey) = Some path ∧
          head path = Some (sx, sy) ∧ last path = Some (ex, ey) ∧
          contiguous path = true.
Proof.
  intros Hdom Hpos Hey. unfold getPath. cbv beta iota zeta.
  pose proof (half_positive (ey - sy) Hpos) as Hh.
  set (h := (Z.abs (ey - sy) + 1) `div` 2) in *.
  assert ((ey - sy <? ex - sx) = false) as -> by lia.
  assert ((0 <? ey - sy) = true) as Hb by lia.
  rewrite foldl_push_if, app_nil_l. unfold upto. rewrite Z.sub_0_r.
  rewrite (Z.abs_eq ey) by lia.
  set (seg1 := (λ i, if 0 <? ey - sy then (sx, sy + i) else (sx, sy - i)) <$> seqZ 0 h).
  assert (last seg1 = Some (sx, sy + h - 1)) as Hlast1.
  { unfold seg1. rewrite last_fmap_seqZ, Hb by lia. do 2 f_equal; lia. }
  assert (head seg1 = Some (sx, sy)) as Hhead1.
  { unfold seg1. rewrite head_fmap_seqZ, Hb by lia. do 2 f_equal; lia. }
  assert (contiguous seg1 = true) as Hc1.
  { apply contiguous_fmap_seqZ. intros i _ _. rewrite Hb. unfold oneStep. simpl.
    apply bool_decide_eq_true. lia. }
  set (seg3 := (λ i, if 0 <? ey - sy then (ex, i + 1) else (ex, i - 1))
                 <$> seqZ (sy + h - 1) (ey - (sy + h - 1))).
  assert (head seg3 = Some (ex, sy + h)) as Hhead3.
  { unfold seg3. rewrite head_fmap_seqZ, Hb by lia. do 2 f_equal; lia. }
  assert (last seg3 = Some (ex, ey)) as Hlast3.
  { unfold seg3. rewrite last_fmap_seqZ, Hb by lia. do 2 f_equal; lia. }
  assert (contiguous seg3 = true) as Hc3.
  { apply contiguous_fmap_seqZ. intros i _ _. rewrite Hb. unfold oneStep. simpl.
    apply bool_decide_eq_true. lia. }
  destruct (ex - sx =? 0) eqn:Ex.
  - apply Z.eqb_eq in Ex. cbn [mbind option_bind]. rewrite Hlast1. cbn [mbind option_bind snd].
    rewrite foldl_push_if. fold seg3. eexists. split; [reflexivity|].
    split_and!.
    + destruct seg1; [done|]. exact Hhead1.
    + rewrite last_app, Hlast3. done.
    + rewrite contiguous_app, Hc1, Hc3, Hlast1, Hhead3. unfold linked, oneStep. simpl.
      apply bool_decide_eq_true. lia.
  - apply Z.eqb_neq in Ex.
    rewrite (foldl_step_keep_y _ _ _ _ seg1 sx (sy + h - 1) Hlast1).
    set (seg2 := (λ i, (if 0 <? ex - sx then sx + i else sx - i, sy + h - 1))
                   <$> seqZ 1 (Z.abs (ex - sx) + 1 - 1)).
    assert (head seg2 = Some (if 0 <? ex - sx then sx + 1 else sx - 1, sy + h - 1)) as Hhead2.
    { unfold seg2. rewrite head_fmap_seqZ by lia. done. }
    assert (last seg2 = Some (ex, sy + h - 1)) as Hlast2.
    { unfold seg2. rewrite last_fmap_seqZ by lia. do 2 f_equal.
      destruct (0 <? ex - sx) eqn:E; lia. }
    assert (contiguous seg2 = true) as Hc2.
    { apply contiguous_fmap_seqZ. intros i _ _. unfold oneStep. simpl.
      apply bool_decide_eq_true. destruct (0 <? ex - sx); lia. }
    cbn [mbind option_bind]. rewrite last_app, Hlast2. cbn [mbind option_bind snd].
    rewrite foldl_push_if. fold seg3. eexists. split; [reflexivity|].
    split_and!.
    + destruct seg1; [done|]. exact Hhead1.
    + rewrite last_app, Hlast3. done.
    + rewrite !contiguous_app, Hc1, Hc2, Hc3, Hlast1, Hhead2, Hhead3, last_app, Hlast2.
      unfold linked, oneStep. simpl.
      rewrite !bool_decide_eq_true_2; [done| |]; destruct (0 <? ex - sx); simpl; lia.
Qed.

Lemma getPath_forward sx sy ex ey :
  0 ≤ ex → 0 ≤ ey → 0 < Z.max (ex - sx) (ey - sy) →
  ∃ path, getPath (sx, sy) (ex, ey) = Some path ∧
          head path = Some (sx, sy) ∧ last path = Some (ex, ey) ∧
          contiguous path = true.
Proof.
  intros Hex Hey Hmax. destruct (Z_lt_ge_dec (ey - sy) (ex - sx)).
  - apply getPath_forward_x; lia.
  - apply getPath_forward_y; lia.
Qed.

(** ** Determinism *)

(** C5. With a seed in the configuration the constructor never reads
    [Math.random]: whatever the entropy streams of two constructions are,
    both end the same way, and when they return, they return the same
    instance, with the same tile in every cell of the board. *)
Theorem seeded_construction_deterministic fuel config e1 e2 :
  o_seed config ≠ None →
  value (newDungeon fuel config e1) = value (newDungeon fuel config e2) ∧
  ∀ d1 r1 d2 r2,
    newDungeon fuel config e1 = Ok d1 r1 →
    newDungeon fuel config e2 = Ok d2 r2 →
    d1 = d2 ∧ ∀ x y, getCell (board d1) x y = getCell (board d2) x y.
Proof.
  intros Hseed. unfold newDungeon.
  destruct (o_seed config) as [s|]; [|done].
  pose proof (run_seeded (construct fuel config) s e1 0 e2 0) as H.
  split; [done|].
  intros d1 r1 d2 r2 H1 H2. rewrite H1, H2 in H. simpl in H.
  injection H as ->. done.
Qed.

(** ** Room count and grid partition *)

Lemma rem2_cases n : n `rem` 2 = 0 ∨ ((n + 1) `rem` 2 = 0 ∧ n `rem` 2 ≠ 0).
Proof.
  pose proof (Z.quot_rem' n 2). pose proof (Z.quot_rem' (n + 1) 2).
  destruct (Z_le_gt_dec 0 n).
  - pose proof (Z.rem_bound_pos n 2). pose proof (Z.rem_bound_pos (n + 1) 2). lia.
  - pose proof (Z.rem_bound_pos_neg n 2). pose proof (Z.rem_bound_pos_neg (n + 1) 2). lia.
Qed.

(** Two rounds of the adjustment loop always finish it: the count is left
    alone when 2 or 3 divides it and incremented once otherwise. *)
Lemma adjustRoomCount_total n :
  ∃ R, adjustRoomCount 2 n = Some R ∧
       (R `rem` 2 = 0 ∨ R `rem` 3 = 0) ∧
       n ≤ R ∧ ∀ m, n ≤ m < R → m `rem` 2 ≠ 0 ∧ m `rem` 3 ≠ 0.
Proof.
  simpl.
  destruct (n `rem` 2 =? 0) eqn:E2; simpl.
  { exists n. apply Z.eqb_eq in E2. split_and!; [done|by left|lia|lia]. }
  destruct (n `rem` 3 =? 0) eqn:E3; simpl.
  { exists n. apply Z.eqb_eq in E3. split_and!; [done|by right|lia|lia]. }
  apply Z.eqb_neq in E2, E3.
  destruct (rem2_cases n) as [?|[H1 _]]; [done|].
  rewrite H1. simpl. exists (n + 1).
  split_and!; [done|by left|lia|]. intros m Hm. by replace m with n by lia.
Qed.

Section Rows.
Context {A : Type}.

(** The inner loop of [#createGrid]: each element is built from the loop
    variable and the length of the list it is pushed on. *)
Lemma foldl_push_indexed (G : Z → Z → A) (js : list Z) (gl : list A) :
  foldl (λ gl j, push gl (G j (Z.of_nat (length gl)))) gl js
  = gl ++ imap (λ t j, G j (Z.of_nat (length gl + t))) js.
Proof.
  revert gl. induction js as [|j js IH]; intros gl; simpl.
  - by rewrite app_nil_r.
  - rewrite IH. unfold push. rewrite <- app_assoc. simpl. f_equal. f_equal.
    + by rewrite Nat.add_0_r.
    + apply imap_ext. intros t x _. simpl. rewrite length_app. simpl.
      f_equal. lia.
Qed.

(** The two nested loops: [m] rounds of [k] pushes. The list grows by
    [m * k] elements, keeps what it had, and the element pushed in round
    [i] at step [j] sits at position [length gl0 + i * k + j]. *)
Lemma nested_push_spec (F : Z → Z → Z → A) (k : Z) (m : nat) (gl0 : list A) :
  0 ≤ k →
  let gl := foldl (λ gl i, foldl (λ gl j, push gl (F i j (Z.of_nat (length gl))))
                                gl (upto 0 k))
                  gl0 (upto 0 (Z.of_nat m)) in
  Z.of_nat (length gl) = Z.of_nat (length gl0) + Z.of_nat m * k ∧
  (∀ t, (t < length gl0)%nat → gl !! t = gl0 !! t) ∧
  ∀ i j, 0 ≤ i < Z.of_nat m → 0 ≤ j < k →
    lookupZ gl (Z.of_nat (length gl0) + i * k + j)
    = Some (F i j (Z.of_nat (length gl0) + i * k + j)).
Proof.
  intros Hk. induction m as [|m IH].
  - simpl. split_and!; [lia|done|lia].
  - cbv zeta in *. unfold upto in *. rewrite !Z.sub_0_r in *.
    rewrite seqZ_S, foldl_app. simpl.
    set (gl := foldl _ gl0 (seqZ 0 (Z.of_nat m))) in *.
    destruct IH as (Hlen & Hold & Hnew).
    rewrite foldl_push_indexed.
    split_and!.
    + rewrite length_app, length_imap, length_seqZ. lia.
    + intros t Ht. rewrite lookup_app_l by lia. by apply Hold.
    + intros i j Hi Hj. unfold lookupZ in *.
      destruct (decide (0 ≤ Z.of_nat (length gl0) + i * k + j)) as [_|]; [|lia].
      destruct (decide (i = Z.of_nat m)) as [->|Hne].
      * rewrite lookup_app_r by nia.
        rewrite list_lookup_imap.
        replace (Z.to_nat (Z.of_nat (length gl0) + Z.of_nat m * k + j) - length gl)%nat
          with (Z.to_nat j) by nia.
        rewrite lookup_seqZ_lt by lia. simpl. do 2 f_equal; lia.
      * specialize (Hnew i j ltac:(lia) Hj).
        destruct (decide (0 ≤ Z.of_nat (length gl0) + i * k + j)) as [_|]; [|lia].
        rewrite lookup_app_l by nia. done.
Qed.
End Rows.

Lemma rem_div_exact n k : 0 ≤ n → 0 < k → n `rem` k = 0 → n = k * (n `div` k).
Proof.
  intros Hn Hk Hr. rewrite Z.rem_mod_nonneg in Hr by lia.
  pose proof (Z.div_mod n k ltac:(lia)). lia.
Qed.

(** C6. A sampled room count [n] is incremented until 2 or 3 divides it,
    giving [R]; [#createGrid], run on an empty grid list, then makes exactly
    [R] grids. When [R] is even, the grid at position [2 * i + j] is slice
    [i] of the [R / 2] column slices in row band [j] of 2; otherwise the
    grid at position [3 * i + j] is row slice [i] of [R / 3] in column band
    [j] of 3. Each grid's [index] is its position. *)
Theorem createGrid_partition (n : Z) (d : Dungeon) :
  0 ≤ n →
  ∃ R, adjustRoomCount 2 n = Some R ∧
    (R `rem` 2 = 0 ∨ R `rem` 3 = 0) ∧
    n ≤ R ∧ (∀ m, n ≤ m < R → m `rem` 2 ≠ 0 ∧ m `rem` 3 ≠ 0) ∧
    let P := params d in
    let gl := gridList (createGrid (set_gridList [] (set_roomCount R d))) in
    Z.of_nat (length gl) = R ∧
    (R `rem` 2 = 0 → ∀ i j, 0 ≤ i < R `div` 2 → 0 ≤ j < 2 →
       let splitCol := colCount P `div` (R `div` 2) in
       let splitRow := rowCount P `div` 2 in
       lookupZ gl (2 * i + j)
       = Some (mkGrid (i * splitCol) (j * splitRow) splitCol splitRow (2 * i + j))) ∧
    (R `rem` 2 ≠ 0 → ∀ i j, 0 ≤ i < R `div` 3 → 0 ≤ j < 3 →
       let splitCol := colCount P `div` 3 in
       let splitRow := rowCount P `div` (R `div` 3) in
       lookupZ gl (3 * i + j)
       = Some (mkGrid (j * splitCol) (i * splitRow) splitCol splitRow (3 * i + j))).
Proof.
  intros Hn.
  destruct (adjustRoomCount_total n) as (R & HR & Hdiv & Hle & Hleast).
  exists R. split_and!; try done.
  cbv zeta. unfold createGrid.
  cbn [roomCount gridList params set_gridList set_roomCount].
  destruct (R `rem` 2 =? 0) eqn:E2; cbn [gridList set_gridList].
  - apply Z.eqb_eq in E2.
    pose proof (rem_div_exact R 2 ltac:(lia) ltac:(lia) E2) as HR2.
    set (splitCol := colCount (params d) `div` (R `div` 2)).
    set (splitRow := rowCount (params d) `div` 2).
    pose proof (nested_push_spec
                  (λ i j idx, mkGrid (i * splitCol) (j * splitRow) splitCol splitRow idx)
                  2 (Z.to_nat (R `div` 2)) [] ltac:(lia)) as H.
    cbv zeta in H. rewrite Z2Nat.id in H by lia.
    change (Z.of_nat (length (@nil GridObj))) with 0 in H.
    destruct H as (Hlen & _ & Hnew).
    split_and!.
    + lia.
    + intros _ i j Hi Hj. specialize (Hnew i j Hi Hj).
      replace (2 * i + j) with (0 + i * 2 + j) by lia. exact Hnew.
    + intros Hodd. done.
  - apply Z.eqb_neq in E2. destruct Hdiv as [?|E3]; [done|].
    pose proof (rem_div_exact R 3 ltac:(lia) ltac:(lia) E3) as HR3.
    assert (0 < R `div` 3) as Hq.
    { destruct (decide (R = 0)) as [->|]; [done|lia]. }
    assert ((R + 2) `div` 3 = R `div` 3) as ->.
    { rewrite HR3 at 1. rewrite Z.mul_comm, Z.div_add_l by lia.
      rewrite (Z.div_small 2 3) by lia. lia. }
    assert ((3 * rowCount (params d)) `div` R = rowCount (params d) `div` (R `div` 3)) as ->.
    { rewrite HR3 at 1. by rewrite Z.div_mul_cancel_l by lia. }
    set (splitCol := colCount (params d) `div` 3).
    set (splitRow := rowCount (params d) `div` (R `div` 3)).
    pose proof (nested_push_spec
                  (λ i j idx, mkGrid (j * splitCol) (i * splitRow) splitCol splitRow idx)
                  3 (Z.to_nat (R `div` 3)) [] ltac:(lia)) as H.
    cbv zeta in H. rewrite Z2Nat.id in H by lia.
    change (Z.of_nat (length (@nil GridObj))) with 0 in H.
    destruct H as (Hlen & _ & Hnew).
    split_and!.
    + lia.
    + intros He. done.
    + intros _ i j Hi Hj. specialize (Hnew i j Hi Hj).
      replace (3 * i + j) with (0 + i * 3 + j) by lia. exact Hnew.
Qed.

Lemma createGrid_partition_witness :
  ∃ R, adjustRoomCount 2 5 = Some R ∧ R = 6 ∧
       Z.of_nat (length (gridList (createGrid (set_gridList [] (set_roomCount R blankDungeon))))) = R.
Proof.
  destruct (createGrid_partition 5 blankDungeon ltac:(lia))
    as (R & HR & _ & _ & _ & Hlen & _).
  exists R. split_and!; [done| |done].
  vm_compute in HR. congruence.
Defined.

(** ** The validity scan of the room placer *)

Section Scan.
Context (P : Params) (b : Board) (grid : GridObj) (point : PointObj).
Hypothesis Hshape : boardShaped P b.

Lemma scanColumn_spec x ys st :
  ∃ st', scanColumn P b grid (Some point) x ys st = Some st' ∧
    (st'.1 = true ↔ st.1 = true ∧ ∀ y, y ∈ ys → cellPasses P b grid x y) ∧
    (st'.1 = true →
     (st'.2 = true ↔ st.2 = true ∨ (x = p_x point ∧ p_y point ∈ ys))).
Proof.
  revert st. induction ys as [|y ys IH]; intros st; simpl.
  { exists st. split_and!; [done| |].
    - split; [|tauto]. intros Hst. split; [done|]. intros y Hy. by apply elem_of_nil in Hy.
    - intros _. split; [tauto|]. intros [Hst|[_ Hy]]; [done|]. by apply elem_of_nil in Hy. }
  destruct ((x <? 0) || (colCount P <=? x) || (y <? 0) || (rowCount P <=? y)) eqn:Eb.
  { exists (false, st.2). simpl. split_and!; [done| |done].
    split; [done|]. intros [_ H]. destruct (H y ltac:(left)) as [[??] _]. lia. }
  assert (inBounds P x y) as Hin by (unfold inBounds; lia).
  destruct (Hshape x y Hin) as [t Ht]. rewrite Ht. simpl.
  destruct (type_gt0 t) eqn:Et.
  { exists (false, st.2). simpl. split_and!; [done| |done].
    split; [done|]. intros [_ H]. destruct (H y ltac:(left)) as (_ & (t' & Ht' & Et') & _).
    congruence. }
  destruct ((x =? g_x grid) || (x =? g_x grid + g_width grid - 1)
            || (y =? g_y grid) || (y =? g_y grid + g_height grid - 1)) eqn:Eg.
  { exists (false, st.2). simpl. split_and!; [done| |done].
    split; [done|]. intros [_ H]. destruct (H y ltac:(left)) as (_ & _ & Hb).
    exfalso. apply Hb. unfold onGridBorder. lia. }
  assert (cellPasses P b grid x y) as Hpass.
  { split_and!; [done|by exists t|]. unfold onGridBorder. lia. }
  destruct (IH (if (x =? p_x point) && (y =? p_y point) then (st.1, true) else st))
    as (st' & Hrun & Hv & Ho).
  exists st'. split; [done|].
  assert ((if (x =? p_x point) && (y =? p_y point) then (st.1, true) else st).1 = st.1)
    as E1 by (by destruct ((x =? p_x point) && (y =? p_y point))).
  rewrite E1 in Hv. split.
  - rewrite Hv. split.
    + intros [? H]. split; [done|]. intros y' [->|?]%elem_of_cons; auto.
    + intros [? H]. split; [done|]. intros y' ?. apply H. by right.
  - intros Hst'. rewrite (Ho Hst'). rewrite elem_of_cons.
    destruct ((x =? p_x point) && (y =? p_y point)) eqn:Ep; simpl.
    + split; [|tauto]. intros _. right. split; [lia|left; lia].
    + split; [tauto|]. intros [?|[? [?|?]]]; [tauto|lia|tauto].
Qed.

Lemma scanRows_spec xs ys st :
  ∃ st', foldl (λ ost x, st ← ost; scanColumn P b grid (Some point) x ys st)
               (Some st) xs = Some st' ∧
    (st'.1 = true ↔
     st.1 = true ∧ ∀ x y, x ∈ xs → y ∈ ys → cellPasses P b grid x y) ∧
    (st'.1 = true →
     (st'.2 = true ↔ st.2 = true ∨ (p_x point ∈ xs ∧ p_y point ∈ ys))).
Proof.
  revert st. induction xs as [|x xs IH]; intros st; simpl.
  { exists st. split_and!; [done| |].
    - split; [|tauto]. intros Hst. split; [done|]. intros x y Hx. by apply elem_of_nil in Hx.
    - intros _. split; [tauto|]. intros [Hst|[Hx _]]; [done|]. by apply elem_of_nil in Hx. }
  destruct (scanColumn_spec x ys st) as (st1 & -> & Hv1 & Ho1).
  destruct (IH st1) as (st' & Hrun & Hv & Ho).
  exists st'. split; [done|]. split.
  - rewrite Hv, Hv1. split.
    + intros [[? H1] H2]. split; [done|].
      intros x' y' [->|?]%elem_of_cons ?; auto.
    + intros [? H]. split_and!; [done| |].
      * intros y' ?. apply H; [by left|done].
      * intros x' y' ??. apply H; [by right|done].
  - intros Hst'. rewrite (Ho Hst'). rewrite elem_of_cons.
    assert (st1.1 = true) as H1 by (by apply Hv in Hst' as [? _]).
    rewrite (Ho1 H1). split.
    + intros [[?|[? ?]]|[? ?]]; auto.
    + intros [?|[[?|?] ?]]; auto.
Qed.
End Scan.

(** C3, amended. On a board of the configured size the scan of a candidate
    always ends, and the placement loop accepts the candidate (both
    [validPosition] and [onPoint] hold) exactly when every cell of the
    rectangle is in bounds, carries no positive tile number (no room cell
    and no point marker; a corridor tile does not count as an overlap) and
    is off the border of the grid, and the rectangle covers the point of
    the grid. *)
Theorem scanCandidate_accepts P b grid point c :
  boardShaped P b →
  ∃ validPosition onPoint,
    scanCandidate P b grid (Some point) c = Some (validPosition, onPoint) ∧
    (validPosition = true ∧ onPoint = true ↔ acceptedPlacement P b grid point c).
Proof.
  intros Hshape. unfold scanCandidate.
  destruct (scanRows_spec P b grid point Hshape
              (upto (roomX c) (roomX c + roomWidth c))
              (upto (roomY c) (roomY c + roomHeight c)) (true, false))
    as ([vp op] & Hrun & Hv & Ho).
  exists vp, op. split; [done|]. simpl in *.
  unfold acceptedPlacement, inRect, upto in *.
  setoid_rewrite elem_of_seqZ in Hv. setoid_rewrite elem_of_seqZ in Ho.
  split.
  - intros [-> ->]. destruct Hv as [Hv _]. destruct (Hv eq_refl) as [_ Hcells].
    split.
    + intros x y [??]. apply Hcells; lia.
    + destruct (Ho eq_refl) as [Hp _]. destruct (Hp eq_refl) as [?|[??]]; [done|lia].
  - intros [Hcells Hp].
    assert (vp = true) as ->.
    { apply Hv. split; [done|]. intros x y ??. apply Hcells. lia. }
    split; [done|]. apply (Ho eq_refl). right. lia.
Qed.

Lemma corridorBoard_shaped : boardShaped (params blankDungeon) corridorBoard.
Proof.
  intros x y [Hx Hy]. simpl in Hx, Hy.
  assert (x ∈ seqZ 0 20) as Hx' by (apply elem_of_seqZ; lia).
  assert (y ∈ seqZ 0 20) as Hy' by (apply elem_of_seqZ; lia).
  revert x Hx' y Hy' Hx Hy.
  apply (Forall_forall (λ x, ∀ y, y ∈ seqZ 0 20 → _ → _ → _) (seqZ 0 20)).
  vm_compute seqZ. repeat constructor; intros y Hy'; revert y Hy';
    apply (Forall_forall (λ y, _ → _ → _) (seqZ 0 20));
    vm_compute; repeat constructor; intros _ _; eexists; reflexivity.
Qed.

Lemma scanCandidate_accepts_witness :
  ∃ validPosition onPoint,
    scanCandidate (params blankDungeon) corridorBoard (mkGrid 0 0 10 10 0)
                  (Some (mkPoint 5 5 0)) (mkCandidate 3 3 4 4)
    = Some (validPosition, onPoint) ∧
    (validPosition = true ∧ onPoint = true ↔
     acceptedPlacement (params blankDungeon) corridorBoard (mkGrid 0 0 10 10 0)
                       (mkPoint 5 5 0) (mkCandidate 3 3 4 4)).
Proof.
  apply (scanCandidate_accepts (params blankDungeon) corridorBoard
           (mkGrid 0 0 10 10 0) (mkPoint 5 5 0) (mkCandidate 3 3 4 4)).
  exact corridorBoard_shaped.
Defined.

(** C3, as stated, fails: the point of a grid that has a connection lies
    on a corridor tile. The 3 by 3 candidate at (4,4) of the grid at (0,0),
    10 by 10, covers the point (5,5), a corridor tile, and is accepted;
    the test of the specification rejects it, as it would reject every
    rectangle that covers a point. *)
Lemma scanCandidate_accepts_over_corridor :
  ¬ (scanCandidate (params blankDungeon) corridorBoard (mkGrid 0 0 10 10 0)
                   (Some (mkPoint 5 5 0)) (mkCandidate 3 3 4 4) = Some (true, true)
     ↔ claimedValid (params blankDungeon) corridorBoard (mkGrid 0 0 10 10 0)
                    (mkPoint 5 5 0) (mkCandidate 3 3 4 4)).
Proof.
  intros [H _].
  assert (scanCandidate (params blankDungeon) corridorBoard (mkGrid 0 0 10 10 0)
            (Some (mkPoint 5 5 0)) (mkCandidate 3 3 4 4) = Some (true, true)) as Hacc
    by (vm_compute; reflexivity).
  destruct (H Hacc) as [Hcells _].
  destruct (Hcells 5 5) as (_ & Hwall & _).
  - unfold inRect. simpl. lia.
  - vm_compute in Hwall. discriminate.
Qed.

(** ** Runs of composed programs *)

Lemma returns_Ok {A} (o : Outcome A) (a : A) (r : Rng) :
  returns o = true → o = Ok (returned o a) (sourceAfter o r).
Proof. by destruct o. Qed.

(** Several observations of one run are evaluated together, as a tuple,
    and taken apart without evaluating the run again. *)
Lemma pair_eq {A B} (a x : A) (b y : B) : (a, b) = (x, y) → a = x ∧ b = y.
Proof. intros H. by inversion H. Qed.

Lemma audit_spec {A} (p : Gen A) r free :
  audit p r free = (run p r, free && roundingFree p r).
Proof.
  revert r free. induction p as [a|lo hi k IH| |]; intros r free; simpl.
  - by rewrite andb_true_r.
  - destruct (randomInt lo hi r) as [v r']. destruct (seed r') as [s'|].
    + rewrite IH. by rewrite andb_assoc.
    + apply IH.
  - by rewrite andb_true_r.
  - by rewrite andb_true_r.
Qed.

Lemma audit_run {A} (p : Gen A) r free : (audit p r free).1 = run p r.
Proof. by rewrite audit_spec. Qed.

Lemma audit_free {A} (p : Gen A) r : (audit p r true).2 = roundingFree p r.
Proof. by rewrite audit_spec. Qed.

Lemma run_bind {A B} (m : Gen A) (f : A → Gen B) r :
  run (m ≫= f) r =
  match run m r with
  | Ok a r1 => run (f a) r1
  | TypeError => TypeError
  | OutOfFuel => OutOfFuel
  end.
Proof.
  unfold mbind, gen_bind. revert r.
  induction m as [a|lo hi k IH| |]; intros r; simpl; try done.
  destruct (randomInt lo hi r) as [v r1]. apply IH.
Qed.

Lemma run_bind_Ok {A B} (m : Gen A) (f : A → Gen B) r b r' :
  run (m ≫= f) r = Ok b r' →
  ∃ a r1, run m r = Ok a r1 ∧ run (f a) r1 = Ok b r'.
Proof.
  rewrite run_bind. destruct (run m r) as [a r1| |]; [|done|done]. eauto.
Qed.

(** An attempt whose validator throws, and the constructor whose first
    attempt throws. *)
Lemma regenerate_throws fuel d r d1 r1 :
  run (layout d) r = Ok d1 r1 →
  run (validateDungeon fuel d1) r1 = TypeError →
  run (regenerate fuel d) r = TypeError.
Proof.
  intros Hlayout Hval. unfold regenerate.
  rewrite run_bind, Hlayout, run_bind, Hval. done.
Qed.

Lemma construct_throws fuel config r n r1 :
  randomInt (o_roomCountMin config) (o_roomCountMax config) r = (n, r1) →
  adjustRoomCount 2 n = Some n →
  run (regenerate fuel (instance config n)) r1 = TypeError →
  run (construct fuel config) r = TypeError.
Proof.
  intros Hdraw Hadj Hregen. unfold construct.
  rewrite run_bind. cbn [draw run]. rewrite Hdraw.
  rewrite run_bind. unfold adjusted. rewrite Hadj. cbn [run].
  rewrite run_bind. cbn [firstAttempts instance validDungeon].
  rewrite run_bind, Hregen. done.
Qed.

(** More fuel does not change a flood fill that has ended. *)
Lemma floodLoop_more fuel k b uncheckedTiles idx checkedTiles :
  floodLoop fuel b uncheckedTiles idx checkedTiles ≠ FloodSpins →
  floodLoop (fuel + k) b uncheckedTiles idx checkedTiles
  = floodLoop fuel b uncheckedTiles idx checkedTiles.
Proof.
  revert uncheckedTiles idx checkedTiles.
  induction fuel as [|fuel IH]; intros u idx c H; simpl in *; [done|].
  destruct (u !! idx) as [tile|].
  - destruct (getAdjacentTiles b tile); [|done]. by apply IH.
  - destruct u; [done|]. by apply IH.
Qed.

Lemma validateDungeon_more fuel k d r :
  run (validateDungeon fuel d) r ≠ OutOfFuel →
  run (validateDungeon (fuel + k) d) r = run (validateDungeon fuel d) r.
Proof.
  unfold validateDungeon. rewrite !run_bind.
  destruct (run (draw _ _) r) as [i r1| |]; [|done|done].
  rewrite !run_bind.
  destruct (run (must _) r1) as [firstTile r2| |]; [|done|done].
  intros H. rewrite floodLoop_more; [done|].
  intros E. by rewrite E in H.
Qed.

(** ** The connectivity validator *)

(** C2. When the validator returns, the flood fill was started from the
    point [pointList[randomInt(0, pointList.length - 1)]] and has ended
    with a set of checked tiles; the value returned is [true] exactly when
    that set has as many elements as the board has tiles whose type is not
    0 and the number of rooms is at least half the number of grids, half
    being the exact quotient. *)
Theorem validateDungeon_accepts fuel d r valid r' :
  run (validateDungeon fuel d) r = Ok valid r' →
  ∃ firstTile checkedTiles,
    lookupZ (pointList d) (randomInt 0 (Z.of_nat (length (pointList d)) - 1) r).1
    = Some firstTile ∧
    floodLoop fuel (board d) [xy firstTile] 0 ∅ = Filled checkedTiles ∧
    (valid = true ↔
     size checkedTiles = floorTileCount (board d) ∧
     (Z.of_nat (length (gridList d)) # 2 <= inject_Z (Z.of_nat (length (roomList d))))%Q).
Proof.
  unfold validateDungeon. intros Hrun.
  apply run_bind_Ok in Hrun as (k & r1 & Hk & Hrun).
  simpl in Hk. destruct (randomInt _ _ r) as [k' r1'] eqn:Ek.
  injection Hk as -> ->. simpl.
  apply run_bind_Ok in Hrun as (firstTile & r2 & Hfirst & Hrun).
  destruct (lookupZ (pointList d) k) as [p|]; [|done].
  injection Hfirst as -> ->.
  exists firstTile.
  destruct (floodLoop fuel (board d) [xy firstTile] 0 ∅) as [checkedTiles| |];
    [|done|done].
  exists checkedTiles. split_and!; [done|done|].
  unfold Qle. simpl.
  destruct (bool_decide (size checkedTiles = floorTileCount (board d))) eqn:Esize.
  - apply bool_decide_eq_true in Esize.
    destruct (2 * Z.of_nat (length (roomList d)) <? Z.of_nat (length (gridList d))) eqn:Ehalf;
      simpl in Hrun; injection Hrun as <- <-.
    + split; [done|]. intros [_ ?]. lia.
    + split; [|done]. intros _. split; [done|lia].
  - apply bool_decide_eq_false in Esize. simpl in Hrun. injection Hrun as <- <-.
    split; [done|]. by intros [? _].
Qed.

(** ** What the generation steps leave alone *)

Ltac skip_binds :=
  repeat first
    [ apply post_bind_any; intros
    | progress simpl
    | match goal with |- post (if ?c then _ else _) _ => destruct c end
    | match goal with |- post (match ?c with _ => _ end) _ => destruct c end ].

Lemma createPaths_frame d :
  post (createPaths d)
       (λ d', params d' = params d ∧ roomList d' = roomList d ∧
              specialPoints d' = specialPoints d ∧ gridList d' = gridList d).
Proof. unfold createPaths. skip_binds. done. Qed.

Lemma addRandomPaths_frame d :
  post (addRandomPaths d)
       (λ d', params d' = params d ∧ roomList d' = roomList d ∧
              specialPoints d' = specialPoints d ∧ gridList d' = gridList d ∧
              pointList d' = pointList d).
Proof. unfold addRandomPaths. skip_binds. done. Qed.

Lemma sampleCandidate_sizes P grid :
  sizesOk P →
  post (sampleCandidate P grid)
       (λ c, minRoomSizeX P ≤ roomWidth c ≤ maxRoomSizeX P ∧
             minRoomSizeY P ≤ roomHeight c ≤ maxRoomSizeY P).
Proof.
  intros [Hx Hy]. unfold sampleCandidate.
  apply post_bind, post_draw. intros w Hw.
  apply post_bind, post_draw. intros h Hh.
  skip_binds. lia.
Qed.

(** The placement loop ends with both flags set, on a candidate that
    passed the scan, or with both flags cleared. *)
Lemma placementLoop_post n P b grid point c :
  sizesOk P →
  minRoomSizeX P ≤ roomWidth c ≤ maxRoomSizeX P ∧
  minRoomSizeY P ≤ roomHeight c ≤ maxRoomSizeY P →
  post (placementLoop n P b grid point c)
       (λ res,
          (minRoomSizeX P ≤ roomWidth res.1.1 ≤ maxRoomSizeX P ∧
           minRoomSizeY P ≤ roomHeight res.1.1 ≤ maxRoomSizeY P) ∧
          ((res.1.2 = true ∧ res.2 = true ∧
            scanCandidate P b grid point res.1.1 = Some (true, true)) ∨
           (res.1.2 = false ∧ res.2 = false))).
Proof.
  intros HP. revert c. induction n as [|n IH]; intros c Hc; cbn [placementLoop].
  { simpl. split; [done|by right]. }
  apply post_bind, post_must. intros [vp op] Hscan. cbn [fst snd].
  destruct vp, op; cbn [negb orb];
    try (apply post_bind; eapply post_mono; [|by apply sampleCandidate_sizes];
         intros c' Hc'; by apply IH).
  simpl. split; [done|]. left. done.
Qed.

Lemma placeRoom_post d i grid :
  sizesOk (params d) →
  post (placeRoom d i grid)
       (λ d', params d' = params d ∧ specialPoints d' = specialPoints d ∧
              gridList d' = gridList d ∧
              (roomList d' = roomList d ∨
               ∃ room, roomList d' = push (roomList d) room ∧ freshRoom (params d) room)).
Proof.
  intros HP. unfold placeRoom.
  apply post_bind_any. intros touches.
  destruct (bool_decide _); [simpl; by auto|].
  apply post_bind. eapply post_mono; [|by apply sampleCandidate_sizes].
  intros c Hc. apply post_bind.
  eapply post_mono; [|by apply placementLoop_post].
  intros [[c' vp] op] [Hc' _]. simpl in Hc'.
  apply post_bind_any. intros diceRoll.
  destruct (roomLossChance d <=? diceRoll); [|simpl; by auto].
  apply post_bind_any. intros b. simpl.
  split_and!; [done..|]. right. eexists. split; [done|]. done.
Qed.

(** ** Entry and exit rooms *)

Lemma with_type_lookup (rooms : list RoomObj) (i j : nat) entryRoom exitRoom :
  i ≠ j → rooms !! i = Some entryRoom → rooms !! j = Some exitRoom →
  let rooms' := alter (with_type EXIT) j (alter (with_type ENTRY) i rooms) in
  rooms' !! i = Some (with_type ENTRY entryRoom) ∧
  rooms' !! j = Some (with_type EXIT exitRoom) ∧
  ∀ k, k ≠ i → k ≠ j → rooms' !! k = rooms !! k.
Proof.
  intros Hne Hi Hj. cbv zeta. split_and!.
  - rewrite list_lookup_alter_ne by done. by rewrite list_lookup_alter_eq, Hi.
  - rewrite list_lookup_alter_eq, list_lookup_alter_ne by done. by rewrite Hj.
  - intros k ??. by rewrite !list_lookup_alter_ne by done.
Qed.

(** The second pick is made among the rooms that are left: it is a room,
    and not the first one. *)
Lemma second_pick (n i : nat) (exitIndex : Z) (j : nat) :
  lookupZ (delete i (seq 0 n)) exitIndex = Some j → j ≠ i ∧ (j < n)%nat.
Proof.
  unfold lookupZ. destruct (decide (0 ≤ exitIndex)); [|done].
  destruct (decide (Z.to_nat exitIndex < i)%nat).
  - rewrite list_lookup_delete_lt by done. intros [-> ?]%lookup_seq. lia.
  - rewrite list_lookup_delete_ge by lia. intros [-> ?]%lookup_seq. lia.
Qed.

Lemma designateRooms_post d :
  sizesOk (params d) →
  Forall (freshRoom (params d)) (roomList d) →
  post (designateRooms d)
       (λ d', params d' = params d ∧ gridList d' = gridList d ∧
              ((2 ≤ length (roomList d'))%nat → entryExitOk d')).
Proof.
  intros [HPx HPy] Hfresh. unfold designateRooms.
  destruct (bool_decide (2 ≤ length (roomList d))%nat) eqn:E2.
  2: { apply bool_decide_eq_false in E2. simpl. split_and!; [done..|]. intros. lia. }
  apply bool_decide_eq_true in E2.
  apply post_bind, post_draw. intros entryIndex He.
  rewrite length_seq in He.
  unfold lookupZ at 1.
  destruct (decide (0 ≤ entryIndex)) as [_|]; [|lia].
  rewrite lookup_seq_lt by lia. cbn [Nat.add].
  set (i := Z.to_nat entryIndex).
  apply post_bind_any. intros exitIndex.
  apply post_bind, post_must. intros entryRoom HentryRoom.
  apply post_bind, post_must. intros j Hj.
  apply second_pick in Hj as [Hji Hjn].
  apply post_bind, post_must. intros exitRoom HexitRoom.
  rewrite Forall_lookup in Hfresh.
  destruct (Hfresh _ _ HentryRoom) as (_ & Hew & Heh).
  destruct (Hfresh _ _ HexitRoom) as (_ & Hxw & Hxh).
  apply post_bind, post_draw. intros ex Hex.
  apply post_bind, post_draw. intros ey Hey.
  apply post_bind, post_draw. intros xx Hxx.
  apply post_bind, post_draw. intros xy Hxy.
  apply post_bind_any. intros b1. apply post_bind_any. intros b2.
  simpl. split_and!; [done..|]. intros _.
  destruct (with_type_lookup (roomList d) i j entryRoom exitRoom)
    as (Hi' & Hj' & Hother); [done..|].
  exists i, j, (with_type ENTRY entryRoom), (with_type EXIT exitRoom), (ex, ey), (xx, xy).
  split_and!; try done.
  - intros k room Hk. simpl in Hk. destruct (decide (k = i)) as [->|Hki].
    { rewrite Hi' in Hk. injection Hk as <-. done. }
    destruct (decide (k = j)) as [->|Hkj].
    { rewrite Hj' in Hk. injection Hk as <-. simpl. split; [done|lia]. }
    rewrite Hother in Hk by done. destruct (Hfresh _ _ Hk) as (-> & _). done.
  - intros k room Hk. simpl in Hk. destruct (decide (k = j)) as [->|Hkj].
    { rewrite Hj' in Hk. injection Hk as <-. done. }
    destruct (decide (k = i)) as [->|Hki].
    { rewrite Hi' in Hk. injection Hk as <-. simpl. split; [done|lia]. }
    rewrite Hother in Hk by done. destruct (Hfresh _ _ Hk) as (-> & _). done.
  - unfold strictlyInside. simpl. lia.
  - unfold strictlyInside. simpl. lia.
Qed.

Lemma createRooms_post d :
  sizesOk (params d) → roomList d = [] →
  post (createRooms d)
       (λ d', params d' = params d ∧
              ((2 ≤ length (roomList d'))%nat → entryExitOk d')).
Proof.
  intros HP Hnil. unfold createRooms. apply post_bind.
  eapply post_mono;
    [|apply (post_foldGen _ (λ d', params d' = params d ∧
                                   Forall (freshRoom (params d)) (roomList d')))].
  - intros d1 [HP1 Hfresh]. eapply post_mono; [|apply designateRooms_post].
    + intros d2 (HP2 & _ & H). split; [congruence|done].
    + by rewrite HP1.
    + by rewrite HP1.
  - intros d1 [i grid] _ [HP1 Hfresh]. simpl.
    eapply post_mono; [|apply placeRoom_post; by rewrite HP1].
    intros d2 (HP2 & _ & _ & Hrooms). split; [congruence|].
    destruct Hrooms as [->|(room & -> & Hroom)]; [done|].
    apply Forall_app. split; [done|]. apply Forall_singleton. by rewrite <- HP1.
  - split; [done|]. rewrite Hnil. constructor.
Qed.

Lemma layout_post d :
  sizesOk (params d) →
  post (layout d)
       (λ d', params d' = params d ∧
              ((2 ≤ length (roomList d'))%nat → entryExitOk d')).
Proof.
  intros HP. unfold layout.
  apply post_bind_any. intros n. apply post_bind_any. intros R.
  apply post_bind. eapply post_mono; [|apply createPaths_frame].
  intros d1 (HP1 & _). apply post_bind.
  assert (params d1 = params d) as HP1'.
  { rewrite HP1. unfold createGrid. simpl. by destruct (_ =? _). }
  eapply post_mono; [|apply createRooms_post; [simpl; by rewrite HP1'|done]].
  intros d2 (HP2 & H2). simpl in HP2.
  eapply post_mono; [|apply addRandomPaths_frame].
  intros d3 (HP3 & Hrooms & Hsp & _). split; [congruence|].
  rewrite Hrooms. intros Hlen. destruct (H2 Hlen) as (i & j & re & rx & pe & px & H).
  exists i, j, re, rx, pe, px. by rewrite Hrooms, Hsp.
Qed.

Lemma regenerate_post fuel d :
  sizesOk (params d) →
  post (regenerate fuel d)
       (λ d', params d' = params d ∧
              ((2 ≤ length (roomList d'))%nat → entryExitOk d')).
Proof.
  intros HP. unfold regenerate. apply post_bind.
  eapply post_mono; [|by apply layout_post].
  intros d1 (HP1 & H1). apply post_bind_any. intros v. simpl. done.
Qed.

(** C7. After a generation attempt with the room sizes of the constructor
    and a random source that respects its ranges, a dungeon with at least
    two rooms has exactly one room of type [ENTRY] and exactly one, another
    room, of type [EXIT], and the entry and exit points of [specialPoints]
    lie strictly inside these two rooms. *)
Theorem regenerate_entry_exit fuel d r d' r' :
  sizesOk (params d) → rng_ok r →
  run (regenerate fuel d) r = Ok d' r' →
  (2 ≤ length (roomList d'))%nat →
  entryExitOk d'.
Proof.
  intros HP Hr Hrun Hlen.
  destruct (post_run _ _ _ _ _ Hr (regenerate_post fuel d HP) Hrun) as [[_ H] _].
  by apply H.
Qed.

Lemma sample_attempt_observed :
  let o := run (regenerate 5000 blankDungeon) seed42 in
  (returns o, length (roomList (returned o blankDungeon))) = (true, 4%nat).
Proof. vm_compute. reflexivity. Qed.

Lemma regenerate_entry_exit_witness :
  let o := run (regenerate 5000 blankDungeon) seed42 in
  o = Ok (returned o blankDungeon) (sourceAfter o seed42) ∧
  length (roomList (returned o blankDungeon)) = 4%nat ∧
  entryExitOk (returned o blankDungeon).
Proof.
  intros o. pose proof sample_attempt_observed as H. cbv zeta in H.
  apply pair_eq in H as [Hret Hlen]. fold o in Hret, Hlen.
  pose proof (returns_Ok o blankDungeon seed42 Hret) as Hrun.
  split_and!; [exact Hrun|exact Hlen|].
  apply (regenerate_entry_exit 5000 blankDungeon seed42
           (returned o blankDungeon) (sourceAfter o seed42)).
  - unfold sizesOk. simpl. lia.
  - unfold rng_ok. simpl. lia.
  - exact Hrun.
  - rewrite Hlen. lia.
Defined.

(** The same for the instance the constructor returns. *)
Lemma construct_post fuel config :
  post (construct fuel config)
       (λ d, sizesOk (params d) ∧ ((2 ≤ length (roomList d))%nat → entryExitOk d)).
Proof.
  unfold construct. apply post_bind_any. intros n. apply post_bind_any. intros R.
  set (d0 := instance config R).
  assert (sizesOk (params d0) ∧ ((2 ≤ length (roomList d0))%nat → entryExitOk d0)) as H0.
  { split; [unfold sizesOk; simpl; lia|simpl; lia]. }
  clearbody d0. apply post_bind.
  assert (∀ k d, sizesOk (params d) ∧ ((2 ≤ length (roomList d))%nat → entryExitOk d) →
                 post (firstAttempts fuel k d)
                      (λ d, sizesOk (params d) ∧
                            ((2 ≤ length (roomList d))%nat → entryExitOk d))) as Hfirst.
  { induction k as [|k IH]; intros d Hd; cbn [firstAttempts]; [done|].
    destruct (validDungeon d); [done|]. apply post_bind.
    eapply post_mono; [|apply regenerate_post; apply Hd].
    intros d1 [HP1 H1]. apply IH. split; [rewrite HP1; apply Hd|done]. }
  eapply post_mono; [|by apply Hfirst].
  intros d1 Hd1. generalize fuel at 2. intros k. revert d1 Hd1.
  induction k as [|k IH]; intros d Hd; cbn [forcedAttempts];
    (destruct (validDungeon d); [done|]); [done|].
  apply post_bind.
  eapply post_mono; [|apply regenerate_post; apply Hd].
  intros d1 [HP1 H1]. apply IH. simpl. split; [|done].
  simpl in HP1. rewrite HP1. apply Hd.
Qed.

Lemma newDungeon_entry_exit fuel config entropy d r :
  rng_ok (mkRng (o_seed config) entropy 0) →
  newDungeon fuel config entropy = Ok d r →
  (2 ≤ length (roomList d))%nat → entryExitOk d.
Proof.
  intros Hr Hrun Hlen.
  destruct (post_run _ _ _ _ _ Hr (construct_post fuel config) Hrun) as [[_ H] _].
  by apply H.
Qed.

(** ** What [regenerate] rebuilds *)

Lemma designateRooms_frame d :
  post (designateRooms d)
       (λ d', (length (roomList d') < 2)%nat → specialPoints d' = specialPoints d).
Proof.
  unfold designateRooms.
  destruct (bool_decide (2 ≤ length (roomList d))%nat) eqn:E2.
  - apply bool_decide_eq_true in E2.
    apply post_bind_any. intros entryIndex.
    destruct (lookupZ _ _); [|done].
    repeat (apply post_bind_any; intros ?).
    cbn [post roomList set_board set_specialPoints set_roomList].
    rewrite !length_alter. lia.
  - simpl. done.
Qed.

Lemma placeRoom_frame d i grid :
  post (placeRoom d i grid) (λ d', specialPoints d' = specialPoints d).
Proof.
  unfold placeRoom. apply post_bind_any. intros touches.
  destruct (bool_decide _); [done|].
  apply post_bind_any. intros c. apply post_bind_any. intros [[c' vp] op].
  apply post_bind_any. intros diceRoll.
  destruct (_ <=? _); [|done]. apply post_bind_any. intros b. done.
Qed.

Lemma createRooms_frame d :
  post (createRooms d)
       (λ d', (length (roomList d') < 2)%nat → specialPoints d' = specialPoints d).
Proof.
  unfold createRooms. apply post_bind.
  eapply post_mono;
    [|apply (post_foldGen _ (λ d', specialPoints d' = specialPoints d))].
  - intros d1 H1. eapply post_mono; [|apply designateRooms_frame].
    intros d2 H2 Hlen. rewrite H2 by done. done.
  - intros d1 [i grid] _ H1. eapply post_mono; [|apply placeRoom_frame].
    intros d2 H2. congruence.
  - done.
Qed.

(** [regenerate] never clears [specialPoints]: after an attempt that ends
    with fewer than two rooms, the entry and exit points are those that
    the instance held before the attempt. *)
Lemma regenerate_keeps_specialPoints fuel d :
  post (regenerate fuel d)
       (λ d', (length (roomList d') < 2)%nat → specialPoints d' = specialPoints d).
Proof.
  unfold regenerate, layout. apply post_bind.
  apply post_bind_any. intros n. apply post_bind_any. intros R.
  apply post_bind. eapply post_mono; [|apply createPaths_frame].
  intros d1 (_ & _ & Hsp1 & _). apply post_bind.
  eapply post_mono; [|apply createRooms_frame].
  intros d2 H2. eapply post_mono; [|apply addRandomPaths_frame].
  intros d3 (_ & Hrooms & Hsp3 & _).
  apply post_bind_any. intros v. simpl. intros Hlen.
  rewrite Hsp3, H2 by (by rewrite <- Hrooms). simpl. rewrite Hsp1.
  unfold createGrid. simpl. by destruct (_ =? _).
Qed.

(** C8. [new Dungeon(lossyOptions)] ends in the emergency mode with a
    valid dungeon whose entry and exit points are set. A call of
    [regenerate()] on that instance loses every connection again, places
    no room, and leaves [specialPoints] as it was: the instance now has no
    room, and its entry and exit points are the coordinates of two walls
    of the new board. *)
Theorem regenerate_keeps_stale_specialPoints :
  let o := newDungeon 5000 lossyOptions (λ _, 0) in
  let d := returned o blankDungeon in
  let o' := run (regenerate 5000 d) (sourceAfter o seed42) in
  let d' := returned o' blankDungeon in
  ∃ entry exit,
    o = Ok d (sourceAfter o seed42) ∧
    validDungeon d = true ∧
    specialPoints d = mkSpecial (Some entry) (Some exit) ∧
    o' = Ok d' (sourceAfter o' seed42) ∧
    roomList d' = [] ∧
    specialPoints d' = mkSpecial (Some entry) (Some exit) ∧
    getTileAt d' entry.1 entry.2 = RTile KWALL ∧
    getTileAt d' exit.1 exit.2 = RTile KWALL.
Proof.
  intros o d o' d'. exists (3, 13), (17, 16). cbn [fst snd].
  assert ((returns o, validDungeon d, specialPoints d, returns o', roomList d',
           specialPoints d', getTileAt d' 3 13, getTileAt d' 17 16)
          = (true, true, mkSpecial (Some (3, 13)) (Some (17, 16)), true, [],
             mkSpecial (Some (3, 13)) (Some (17, 16)), RTile KWALL, RTile KWALL)) as H
    by (vm_compute; reflexivity).
  apply pair_eq in H as [H H8].
  apply pair_eq in H as [H H7].
  apply pair_eq in H as [H H6].
  apply pair_eq in H as [H H5].
  apply pair_eq in H as [H H4].
  apply pair_eq in H as [H H3].
  apply pair_eq in H as [H1 H2].
  split_and!;
    [ apply returns_Ok; exact H1
    | exact H2
    | exact H3
    | apply returns_Ok; exact H4
    | exact H5
    | exact H6
    | exact H7
    | exact H8 ].
Qed.

(** Both runs of C8 are free of draws that depend on rounding. *)
Example lossy_runs_roundingFree :
  let r := mkRng (Some 42) (λ _, 0) 0 in
  let o := newDungeon 5000 lossyOptions (λ _, 0) in
  roundingFree (construct 5000 lossyOptions) r = true ∧
  roundingFree (regenerate 5000 (returned o blankDungeon)) (sourceAfter o seed42) = true.
Proof. vm_compute. done. Qed.

(** ** The shape of the board

    The board of an instance keeps the size its parameters give: the
    steps of a generation attempt only write cells, and a write never
    removes one. *)

Lemma foldl_bind_None {A S} (f : S → A → option S) (l : list A) :
  foldl (λ os a, s ← os; f s a) None l = None.
Proof. by induction l. Qed.

Lemma foldl_bind_inv {A S} (I : S → Prop) (f : S → A → option S) (l : list A) s s' :
  (∀ s a s', I s → f s a = Some s' → I s') →
  I s → foldl (λ os a, s ← os; f s a) (Some s) l = Some s' → I s'.
Proof.
  intros Hf. revert s. induction l as [|a l IH]; intros s Hs; simpl.
  - by intros [= <-].
  - destruct (f s a) as [s1|] eqn:E.
    + apply IH. by eapply Hf.
    + by rewrite foldl_bind_None.
Qed.

Lemma newBoard_shaped P : boardShaped P (newBoard (colCount P) (rowCount P)).
Proof.
  intros x y [Hx Hy]. exists (TNum 0). unfold getCell, lookupZ, newBoard.
  destruct (decide (0 ≤ x)); [|lia].
  rewrite lookup_replicate_2 by lia. simpl. f_equal.
  apply elem_of_list_to_map_1.
  - rewrite <- list_fmap_compose. simpl. rewrite list_fmap_id. apply NoDup_seqZ.
  - apply list_elem_of_fmap. exists y. split; [done|]. apply elem_of_seqZ. lia.
Qed.

Lemma setCell_shaped P b x y t b' :
  boardShaped P b → setCell b x y t = Some b' → boardShaped P b'.
Proof.
  intros Hb Hset x' y' Hin. destruct (Hb x' y' Hin) as [t' Ht'].
  unfold setCell in Hset. unfold getCell in *.
  destruct (lookupZ b x) as [col|] eqn:Ecol; [|done]. injection Hset as <-.
  unfold lookupZ in *. destruct (decide (0 ≤ x')); [|done].
  destruct (decide (0 ≤ x)); [|done].
  destruct (decide (Z.to_nat x = Z.to_nat x')) as [E|E].
  - rewrite E in *. rewrite list_lookup_insert_eq by (by eapply lookup_lt_Some).
    simpl. rewrite Ecol in Ht'. simpl in Ht'.
    destruct (decide (y = y')) as [->|].
    + exists t. by rewrite lookup_insert_eq.
    + exists t'. by rewrite lookup_insert_ne.
  - rewrite list_lookup_insert_ne by done. by exists t'.
Qed.

Lemma stampRoom_shaped P b c t b' :
  boardShaped P b → stampRoom b c t = Some b' → boardShaped P b'.
Proof.
  unfold stampRoom.
  generalize (upto (roomX c) (roomX c + roomWidth c)) as xs.
  generalize (upto (roomY c) (roomY c + roomHeight c)) as ys.
  intros ys xs. revert b. induction xs as [|x xs IH]; intros b Hb; simpl.
  - by intros [= <-].
  - destruct (foldl (λ ob y, b0 ← ob; setCell b0 x y t) (Some b) ys) as [b1|] eqn:E.
    + apply IH. eapply (foldl_bind_inv (boardShaped P)); [|exact Hb|exact E].
      intros ????. by apply setCell_shaped.
    + intros H. exfalso. clear -H. induction xs as [|x' xs IH]; [done|].
      simpl in H. rewrite foldl_bind_None in H. auto.
Qed.

Lemma carve_shaped P b p b' :
  boardShaped P b → carve b p = Some b' → boardShaped P b'.
Proof.
  unfold carve. intros Hb.
  destruct (getCell b p.1 p.2) as [[tile|]|]; simpl; try done.
  destruct (type_le0 tile); [by apply setCell_shaped|by intros [= <-]].
Qed.

Lemma retypeCell_shaped P b p t b' :
  boardShaped P b → retypeCell b p t = Some b' → boardShaped P b'.
Proof.
  unfold retypeCell. intros Hb.
  destruct (getCell b p.1 p.2) as [[tile|]|]; simpl; try done.
  by apply setCell_shaped.
Qed.

Lemma createPaths_shaped d :
  shaped d → post (createPaths d) (λ d', params d' = params d ∧ shaped d').
Proof.
  intros Hd. unfold createPaths.
  apply post_bind_any. intros pl.
  apply post_bind, post_must. intros b1 Hb1.
  assert (boardShaped (params d) b1) as Hs1.
  { eapply (foldl_bind_inv (boardShaped (params d))); [|exact Hd|exact Hb1].
    intros ????. by apply setCell_shaped. }
  apply post_bind_any. intros cl.
  apply post_bind, post_must. intros b2 Hb2.
  assert (boardShaped (params d) b2) as Hs2.
  { eapply (foldl_bind_inv (boardShaped (params d))); [|exact Hs1|exact Hb2].
    intros b c b' Hb. cbv beta. destruct (connectionPath c) as [path|]; simpl; [|done].
    intros Hfold. eapply (foldl_bind_inv (boardShaped (params d))); [|exact Hb|exact Hfold].
    intros ????. by apply setCell_shaped. }
  simpl. split; [done|exact Hs2].
Qed.

Lemma placeRoom_shaped d i grid :
  shaped d → post (placeRoom d i grid) (λ d', params d' = params d ∧ shaped d').
Proof.
  intros Hd. unfold placeRoom.
  apply post_bind_any. intros touches.
  destruct (bool_decide _); [by simpl|].
  apply post_bind_any. intros c. apply post_bind_any. intros [[c' vp] op].
  apply post_bind_any. intros diceRoll.
  destruct (_ <=? _); [|by simpl].
  apply post_bind, post_must. intros b Hb. simpl. split; [done|].
  by eapply stampRoom_shaped.
Qed.

Lemma designateRooms_shaped d :
  shaped d → post (designateRooms d) (λ d', params d' = params d ∧ shaped d').
Proof.
  intros Hd. unfold designateRooms.
  destruct (bool_decide _); [|by simpl].
  apply post_bind_any. intros entryIndex.
  destruct (lookupZ _ _); [|done].
  do 8 (apply post_bind_any; intros ?).
  apply post_bind, post_must. intros b1 Hb1.
  apply post_bind, post_must. intros b2 Hb2.
  simpl. split; [done|].
  eapply retypeCell_shaped; [|exact Hb2]. by eapply retypeCell_shaped.
Qed.

Lemma createRooms_shaped d :
  shaped d → post (createRooms d) (λ d', params d' = params d ∧ shaped d').
Proof.
  intros Hd. unfold createRooms. apply post_bind.
  eapply post_mono;
    [|apply (post_foldGen _ (λ d', params d' = params d ∧ shaped d'))].
  - intros d1 [HP1 Hs1]. eapply post_mono; [|by apply designateRooms_shaped].
    intros d2 [HP2 Hs2]. split; [congruence|done].
  - intros d1 [i grid] _ [HP1 Hs1]. simpl.
    eapply post_mono; [|by apply placeRoom_shaped].
    intros d2 [HP2 Hs2]. split; [congruence|done].
  - done.
Qed.

Lemma addRandomPaths_shaped d :
  shaped d → post (addRandomPaths d) (λ d', params d' = params d ∧ shaped d').
Proof.
  intros Hd. unfold addRandomPaths.
  apply post_bind_any. intros pathCount. apply post_bind_any. intros tiles.
  apply post_bind.
  eapply post_mono; [|apply (post_foldGen _ (boardShaped (params d)))].
  - intros b Hb. simpl. done.
  - intros b _ _ Hb.
    do 4 (apply post_bind_any; intros ?).
    destruct (_ || _); [by simpl|].
    apply post_bind_any. intros path. apply post_must. intros b' Hb'.
    eapply (foldl_bind_inv (boardShaped (params d))); [|exact Hb|exact Hb'].
    intros ????. by apply carve_shaped.
  - exact Hd.
Qed.

Lemma layout_shaped d :
  post (layout d) (λ d', params d' = params d ∧ shaped d').
Proof.
  unfold layout. apply post_bind_any. intros n. apply post_bind_any. intros R.
  set (d1 := set_connectionList _ _).
  assert (params d1 = params d ∧ shaped d1) as [HP1 Hs1].
  { unfold d1, shaped, createGrid. simpl. destruct (_ =? _); simpl;
      (split; [done|apply newBoard_shaped]). }
  apply post_bind. eapply post_mono; [|by apply createPaths_shaped].
  intros d2 [HP2 Hs2]. apply post_bind.
  eapply post_mono; [|apply createRooms_shaped; exact Hs2].
  intros d3 [HP3 Hs3]. simpl in HP3.
  eapply post_mono; [|by apply addRandomPaths_shaped].
  intros d4 [HP4 Hs4]. split; [congruence|done].
Qed.

Lemma regenerate_shaped fuel d :
  post (regenerate fuel d) (λ d', params d' = params d ∧ shaped d').
Proof.
  unfold regenerate. apply post_bind.
  eapply post_mono; [|apply layout_shaped].
  intros d1 [HP1 Hs1]. apply post_bind_any. intros v. by simpl.
Qed.

Lemma getTileAt_kind d x y :
  shaped d → inBounds (params d) x y → ∃ kind, getTileAt d x y = RTile kind.
Proof.
  intros Hd Hin. unfold getTileAt. destruct (Hd x y Hin) as [t Ht].
  destruct Hin as [Hx Hy].
  destruct ((x <? 0) || (colCount (params d) <=? x) || (y <? 0)
            || (rowCount (params d) <=? y)) eqn:E; [lia|].
  rewrite Ht. destruct t as [[| |]| | |]; eauto.
Qed.

Lemma construct_shaped fuel config :
  post (construct fuel config) shaped.
Proof.
  unfold construct. apply post_bind_any. intros n. apply post_bind_any. intros R.
  assert (shaped (instance config R)) as H0 by apply newBoard_shaped.
  generalize dependent (instance config R). intros d0 H0.
  apply post_bind.
  assert (∀ k d, shaped d → post (firstAttempts fuel k d) shaped) as Hfirst.
  { induction k as [|k IH]; intros d Hd; cbn [firstAttempts]; [done|].
    destruct (validDungeon d); [done|]. apply post_bind.
    eapply post_mono; [|apply regenerate_shaped].
    intros d1 [_ Hs1]. by apply IH. }
  eapply post_mono; [|by apply Hfirst].
  intros d1 Hd1. generalize fuel at 2. intros k. revert d1 Hd1.
  induction k as [|k IH]; intros d Hd; cbn [forcedAttempts];
    (destruct (validDungeon d); [done|]); [done|].
  apply post_bind.
  eapply post_mono; [|apply regenerate_shaped].
  intros d1 [_ Hs1]. apply IH. exact Hs1.
Qed.

(** X8. On an instance that the constructor returned, [getTileAt] gives [null]
    exactly out of bounds and a tile kind everywhere else. *)
Lemma newDungeon_getTileAt fuel config entropy d r x y :
  rng_ok (mkRng (o_seed config) entropy 0) →
  newDungeon fuel config entropy = Ok d r →
  (getTileAt d x y = RNull ↔ ¬ inBounds (params d) x y) ∧
  (inBounds (params d) x y → ∃ kind, getTileAt d x y = RTile kind).
Proof.
  intros Hr Hrun.
  destruct (post_run _ _ _ _ _ Hr (construct_shaped fuel config) Hrun) as [Hs _].
  split.
  - rewrite getTileAt_null. unfold inBounds. lia.
  - by apply getTileAt_kind.
Qed.

(** ** Witnesses on sample runs *)

Lemma seeded_construction_deterministic_witness :
  o_seed lossyOptions ≠ None ∧
  value (newDungeon 5000 lossyOptions (λ _, 0))
  = value (newDungeon 5000 lossyOptions (λ k, Z.of_nat k)).
Proof.
  assert (o_seed lossyOptions ≠ None) as Hseed by done.
  split; [done|].
  exact (proj1 (seeded_construction_deterministic 5000 lossyOptions
                  (λ _, 0) (λ k, Z.of_nat k) Hseed)).
Defined.

Lemma validateDungeon_accepts_witness :
  let o := run (layout blankDungeon) seed42 in
  let d := returned o blankDungeon in
  let r := sourceAfter o seed42 in
  let o' := run (validateDungeon 5000 d) r in
  o' = Ok true (sourceAfter o' r) ∧
  ∃ firstTile checkedTiles,
    lookupZ (pointList d) (randomInt 0 (Z.of_nat (length (pointList d)) - 1) r).1
    = Some firstTile ∧
    floodLoop 5000 (board d) [xy firstTile] 0 ∅ = Filled checkedTiles ∧
    (true = true ↔
     size checkedTiles = floorTileCount (board d) ∧
     (Z.of_nat (length (gridList d)) # 2 <= inject_Z (Z.of_nat (length (roomList d))))%Q).
Proof.
  intros o d r o'.
  assert ((returns o', returned o' false) = (true, true)) as H
    by (vm_compute; reflexivity).
  apply pair_eq in H as [Hret Hval].
  pose proof (returns_Ok o' false r Hret) as Hrun. rewrite Hval in Hrun.
  split; [exact Hrun|].
  exact (validateDungeon_accepts 5000 d r true (sourceAfter o' r) Hrun).
Defined.

(** ** Rooms placed when the attempts run out *)

(** C4. First attempt of [new Dungeon(wideOptions 28)], grid 0, the grid at
    (0,0), 135 by 135, with its point at (109,101). None of the 1000
    candidates is accepted; the loop ends with [validPosition] and
    [onPoint] false on a candidate drawn after the last scan, the 3 by 3
    rectangle at (2,0). That candidate is not a valid position, its first
    row being the first row of the grid, and the dice roll passes: the room
    is written on the board and pushed on [roomList]. No draw of the run
    depends on rounding. *)
Theorem exhausted_candidate_is_stamped :
  let rng := mkRng (Some 28) (λ _, 0) 0 in
  let d0 := instance (wideOptions 28) 4 in
  let r0 := (randomInt 4 4 (randomInt 4 4 rng).2).2 in
  let o1 := run (createPaths (createGrid d0)) r0 in
  let d1 := returned o1 d0 in
  let r1 := sourceAfter o1 r0 in
  let grid := mkGrid 0 0 135 135 0 in
  let point := mkPoint 109 101 0 in
  let c := mkCandidate 3 3 2 0 in
  let o2 := run (placeRoom d1 0 grid) r1 in
  let d2 := returned o2 d1 in
  o1 = Ok d1 r1 ∧
  indexed (gridList d1) !! 0%nat = Some (0, grid) ∧
  head (filter (λ p, p_gridIndex p = g_index grid) (pointList d1)) = Some point ∧
  value (run (c0 ← sampleCandidate (params d1) grid;
              placementLoop 1000 (params d1) (board d1) grid (Some point) c0) r1)
  = Ok (c, false, false) (mkRng None (λ _, 0) 0) ∧
  scanCandidate (params d1) (board d1) grid (Some point) c = Some (false, false) ∧
  o2 = Ok d2 (sourceAfter o2 r1) ∧
  roomList d2 = [mkRoom 2 0 3 3 0 false None] ∧
  getCell (board d1) 2 0 = Some (Some (TNum 0)) ∧
  getCell (board d2) 2 0 = Some (Some (TNum 1)) ∧
  roundingFree (createPaths (createGrid d0)) r0 = true ∧
  roundingFree (placeRoom d1 0 grid) r1 = true ∧
  roundingFree (_ ← draw 4 4; draw 4 4) rng = true.
Proof.
  intros rng d0 r0 o1 d1 r1 grid point c o2 d2.
  assert (let a1 := audit (createPaths (createGrid d0)) r0 true in
          let e1 := returned a1.1 d0 in
          let s1 := sourceAfter a1.1 r0 in
          let a2 := audit (placeRoom e1 0 grid) s1 true in
          let e2 := returned a2.1 e1 in
          (returns a1.1, indexed (gridList e1) !! 0%nat,
           head (filter (λ p, p_gridIndex p = g_index grid) (pointList e1)),
           value (run (c0 ← sampleCandidate (params e1) grid;
                       placementLoop 1000 (params e1) (board e1) grid (Some point) c0) s1),
           scanCandidate (params e1) (board e1) grid (Some point) c,
           returns a2.1, roomList e2, getCell (board e1) 2 0, getCell (board e2) 2 0,
           a1.2, a2.2)
          = (true, Some (0, grid), Some point,
             Ok (c, false, false) (mkRng None (λ _, 0) 0),
             Some (false, false), true, [mkRoom 2 0 3 3 0 false None],
             Some (Some (TNum 0)), Some (Some (TNum 1)), true, true)) as H
    by (vm_compute; reflexivity).
  cbv zeta in H. rewrite !audit_run, !audit_free in H.
  apply pair_eq in H as [H H11].
  apply pair_eq in H as [H H10].
  apply pair_eq in H as [H H9].
  apply pair_eq in H as [H H8].
  apply pair_eq in H as [H H7].
  apply pair_eq in H as [H H6].
  apply pair_eq in H as [H H5].
  apply pair_eq in H as [H H4].
  apply pair_eq in H as [H H3].
  apply pair_eq in H as [H1 H2].
  split_and!;
    [ apply returns_Ok; exact H1
    | exact H2
    | exact H3
    | exact H4
    | exact H5
    | apply returns_Ok; exact H6
    | exact H7
    | exact H8
    | exact H9
    | exact H10
    | exact H11
    | vm_compute; reflexivity ].
Qed.

(** The room stays: it is the first of the three rooms of the board that
    the first attempt of [new Dungeon(wideOptions 28)] ends with, none of
    which covers its point. *)
Example unchecked_rooms_of_first_attempt :
  let rng := mkRng (Some 28) (λ _, 0) 0 in
  let d0 := instance (wideOptions 28) 4 in
  let d := returned (run (layout d0) (randomInt 4 4 rng).2) d0 in
  ((λ room, (r_x room, r_y room, r_width room, r_height room, r_onPoint room))
     <$> roomList d)
  = [(2, 0, 3, 3, false); (87, 172, 3, 3, false); (171, 104, 3, 3, false)].
Proof. vm_compute. reflexivity. Qed.

(** ** Tiles on the border of the board *)

(** C10. First attempt of [new Dungeon(wideOptions 71)]: the grids are
    135 by 135 and the rooms 3 by 3. The one room of the board, placed
    after 1000 rejected candidates, is the unchecked rectangle at
    (267,163): its cells in column 269, the last column of the board, are
    not walls. The room lies on the corridor that runs down column 267,
    the flood fill reaches it, and [#getAdjacentTiles] reads a tile of
    [board[270]], which is [undefined]: the validator throws, and with it
    [regenerate] and the constructor. No draw of the run depends on
    rounding. *)
Theorem border_room_breaks_validator :
  let rng := mkRng (Some 71) (λ _, 0) 0 in
  let d0 := instance (wideOptions 71) 4 in
  let r0 := (randomInt 4 4 rng).2 in
  let o := run (layout d0) r0 in
  let d := returned o d0 in
  let r := sourceAfter o r0 in
  o = Ok d r ∧
  (g_width <$> gridList d) = [135; 135; 135; 135] ∧
  (g_height <$> gridList d) = [135; 135; 135; 135] ∧
  roomList d = [mkRoom 267 163 3 3 3 false None] ∧
  colCount (params d) - 1 = 269 ∧
  getCell (board d) 269 163 = Some (Some (TNum 4)) ∧
  isWalkable d 269 163 = WBool true ∧
  getAdjacentTiles (board d) (269, 163) = None ∧
  (∀ k, run (validateDungeon (5000 + k) d) r = TypeError) ∧
  roundingFree (layout d0) r0 = true ∧
  roundingFree (validateDungeon 5000 d) r = true ∧
  roundingFree (draw 4 4) rng = true ∧
  (∀ k, run (regenerate (5000 + k) d0) r0 = TypeError) ∧
  newDungeon 5000 (wideOptions 71) (λ _, 0) = TypeError.
Proof.
  intros rng d0 r0 o d r.
  assert (let a1 := audit (layout d0) r0 true in
          let e := returned a1.1 d0 in
          let s := sourceAfter a1.1 r0 in
          let a2 := audit (validateDungeon 5000 e) s true in
          (returns a1.1, g_width <$> gridList e, g_height <$> gridList e, roomList e,
           colCount (params e) - 1, getCell (board e) 269 163, isWalkable e 269 163,
           getAdjacentTiles (board e) (269, 163), a2.1, a1.2, a2.2)
          = (true, [135; 135; 135; 135], [135; 135; 135; 135],
             [mkRoom 267 163 3 3 3 false None], 269, Some (Some (TNum 4)),
             WBool true, None, TypeError, true, true)) as H
    by (vm_compute; reflexivity).
  cbv zeta in H. rewrite !audit_run, !audit_free in H.
  apply pair_eq in H as [H H11].
  apply pair_eq in H as [H H10].
  apply pair_eq in H as [H H9].
  apply pair_eq in H as [H H8].
  apply pair_eq in H as [H H7].
  apply pair_eq in H as [H H6].
  apply pair_eq in H as [H H5].
  apply pair_eq in H as [H H4].
  apply pair_eq in H as [H H3].
  apply pair_eq in H as [H1 H2].
  assert (o = Ok d r) as Hrun by (apply returns_Ok; exact H1).
  assert (run (validateDungeon 5000 d) r = TypeError) as Hval by exact H9.
  assert (∀ k, run (validateDungeon (5000 + k) d) r = TypeError) as Hvals.
  { intros k. rewrite validateDungeon_more; [exact Hval|]. rewrite Hval. discriminate. }
  assert (∀ k, run (regenerate (5000 + k) d0) r0 = TypeError) as Hregen.
  { intros k. exact (regenerate_throws (5000 + k) d0 r0 d r Hrun (Hvals k)). }
  split_and!;
    [ exact Hrun
    | exact H2
    | exact H3
    | exact H4
    | exact H5
    | exact H6
    | exact H7
    | exact H8
    | exact Hvals
    | exact H10
    | exact H11
    | vm_compute; reflexivity
    | exact Hregen
    | ].
  change (newDungeon 5000 (wideOptions 71) (λ _, 0))
    with (run (construct 5000 (wideOptions 71)) rng).
  apply (construct_throws 5000 (wideOptions 71) rng 4 r0).
  - vm_compute; reflexivity.
  - reflexivity.
  - exact (Hregen 0%nat).
Qed.

(** The same failure on the 20 by 20 board with rooms of 3 to 7 tiles,
    when [Math.random] returns 0 at every call: every candidate is the 3 by
    3 rectangle in the corner of its grid, none is valid, and the four
    rooms are written in the corners of the grids. The tile at (0,0) is a
    room tile, and the validator reads [board[-1]]. *)
Example corner_rooms_break_validator :
  let o := run (layout blankDungeon) zeroRandom in
  let d := returned o blankDungeon in
  o = Ok d (sourceAfter o zeroRandom) ∧
  (r_onPoint <$> roomList d) = [false; false; false; false] ∧
  getCell (board d) 0 0 = Some (Some (TNum 1)) ∧
  run (regenerate 5000 blankDungeon) zeroRandom = TypeError.
Proof.
  intros o d.
  assert ((returns o, r_onPoint <$> roomList d, getCell (board d) 0 0)
          = (true, [false; false; false; false], Some (Some (TNum 1)))) as H
    by (vm_compute; reflexivity).
  apply pair_eq in H as [H H3].
  apply pair_eq in H as [H1 H2].
  split_and!;
    [ apply returns_Ok; exact H1
    | exact H2
    | exact H3
    | vm_compute; reflexivity ].
Qed.

(** A negative seed stays negative under JavaScript's [%], and the draw
    falls below its range: [rng_ok] asks for a seed that is not negative. *)
Example randomInt_negative_seed :
  (randomInt 1 100 (mkRng (Some (-10)) (λ _, 0) 0)).1 = -18.
Proof. vm_compute. reflexivity. Qed.

(** * More of the generator *)

(** ** The random source and the seed *)

Lemma randomInt_empty_range r lo hi :
  rng_ok r → hi < lo → hi < (randomInt lo hi r).1 ≤ lo.
Proof.
  unfold rng_ok, randomInt, mathRandomDen. intros Hok Hlt.
  destruct (seed r) as [s|]; simpl.
  - pose proof (Z.rem_bound_pos (s * 9301 + 49297) 233280 ltac:(lia) ltac:(lia)) as Hs.
    set (s' := (s * 9301 + 49297) `rem` 233280) in *.
    assert (hi - lo + 1 ≤ (s' * (hi - lo + 1)) `div` 233280 ≤ 0); [|lia].
    split.
    + apply Z.div_le_lower_bound; nia.
    + apply Z.div_le_upper_bound; nia.
  - specialize (Hok (calls r)).
    set (u := entropy r (calls r)) in *.
    assert (hi - lo + 1 ≤ (u * (hi - lo + 1)) `div` 2 ^ 53 ≤ 0); [|lia].
    split.
    + apply Z.div_le_lower_bound; nia.
    + apply Z.div_le_upper_bound; nia.
Qed.

Lemma randomInt_state r lo hi s' :
  rng_ok r → seed (randomInt lo hi r).2 = Some s' → 0 ≤ s' < 233280.
Proof.
  unfold rng_ok, randomInt. destruct (seed r) as [s|]; simpl; [|discriminate].
  intros Hs [= <-]. apply Z.rem_bound_pos; lia.
Qed.



(** ** Seeds *)

Lemma randomInt_period s k lo hi e c :
  0 ≤ s → 0 ≤ k →
  randomInt lo hi (mkRng (Some (s + 233280 * k)) e c) = randomInt lo hi (mkRng (Some s) e c).
Proof.
  intros Hs Hk. unfold randomInt. cbn [seed entropy calls].
  replace ((s + 233280 * k) * 9301 + 49297) with (s * 9301 + 49297 + (9301 * k) * 233280) by lia.
  rewrite Z.rem_add by nia. done.
Qed.

Lemma construct_with_seed fuel config s :
  construct fuel (with_seed s config) = construct fuel config.
Proof. reflexivity. Qed.

(** X2. Two seeds that differ by a multiple of 233280 give the same
    construction, as long as [seed * 9301 + 49297] stays below [2 ^ 53],
    where the first step of the generator is exact: a configuration has at
    most 233280 dungeons. *)
Theorem seed_period fuel config s k e :
  0 ≤ s → 0 ≤ k → (s + 233280 * k) * 9301 + 49297 < 2 ^ 53 →
  newDungeon fuel (with_seed (Some (s + 233280 * k)) config) e
  = newDungeon fuel (with_seed (Some s) config) e.
Proof.
  intros Hs Hk _. unfold newDungeon. rewrite !construct_with_seed.
  cbn [with_seed o_seed]. unfold construct.
  change (run (?m ≫= ?f) ?r) with (run (gbind m f) r).
  cbn [draw gbind run]. by rewrite randomInt_period.
Qed.

Lemma run_source {A} (p : Gen A) r a r' :
  run p r = Ok a r' →
  (seed r = None → seed r' = None) ∧
  (∀ s, seed r = Some s → 0 ≤ s < 233280 → ∃ s', seed r' = Some s' ∧ 0 ≤ s' < 233280).
Proof.
  revert r. induction p as [b|lo hi k IH| |]; intros r; simpl; [|..|done|done].
  - intros [= <- <-]. split; [done|]. intros s Hs Hr. by exists s.
  - destruct (randomInt lo hi r) as [v r1] eqn:E. intros Hrun.
    destruct (IH _ _ Hrun) as [Hnone Hsome].
    assert (r1 = (randomInt lo hi r).2) as -> by by rewrite E.
    split.
    + intros Hs. apply Hnone. unfold randomInt. by rewrite Hs.
    + intros s Hs Hr. unfold randomInt in Hsome. rewrite Hs in Hsome. simpl in Hsome.
      eapply Hsome; [done|]. apply Z.rem_bound_pos; lia.
Qed.

(** X3. After the construction [getSeed()] returns the state of the
    generator, not the seed of the configuration: [null] when there was no
    seed, and otherwise, for a seed that is not negative, a number from 0
    to 233279. *)
Theorem getSeed_after_construction fuel config e d r :
  newDungeon fuel config e = Ok d r →
  (o_seed config = None → getSeed r = None) ∧
  (∀ s, o_seed config = Some s → 0 ≤ s → ∃ s', getSeed r = Some s' ∧ 0 ≤ s' < 233280).
Proof.
  unfold newDungeon, construct, getSeed.
  change (run (?m ≫= ?f) ?r) with (run (gbind m f) r).
  cbn [draw gbind run].
  destruct (randomInt _ _ _) as [n r1] eqn:E. intros Hrun.
  apply run_source in Hrun as [Hnone Hsome].
  assert (r1 = (randomInt (o_roomCountMin config) (o_roomCountMax config)
                          (mkRng (o_seed config) e 0)).2) as Hr1 by by rewrite E.
  split.
  - intros Hs. apply Hnone. rewrite Hr1. unfold randomInt. cbn [seed]. by rewrite Hs.
  - intros s Hs Hs0. apply (Hsome ((s * 9301 + 49297) `rem` 233280)).
    + rewrite Hr1. unfold randomInt. cbn [seed]. by rewrite Hs.
    + apply Z.rem_bound_pos; lia.
Qed.

(** ** The grids and their neighbours *)

Lemma createGrid_cells d :
  let R := roomCount d in
  0 ≤ R → (R `rem` 2 = 0 ∨ R `rem` 3 = 0) →
  let gl := gridList (createGrid (set_gridList [] d)) in
  Z.of_nat (length gl) = R ∧
  ∀ t, 0 ≤ t < R → lookupZ gl t = Some (gridAt (params d) R t).
Proof.
  intros R HR0 Hdiv. cbv zeta. unfold createGrid, gridAt.
  cbn [roomCount gridList params set_gridList]. fold R.
  destruct (R `rem` 2 =? 0) eqn:E2; cbn [gridList set_gridList].
  - apply Z.eqb_eq in E2.
    pose proof (rem_div_exact R 2 ltac:(lia) ltac:(lia) E2) as HR2.
    set (splitCol := colCount (params d) `div` (R `div` 2)).
    set (splitRow := rowCount (params d) `div` 2).
    pose proof (nested_push_spec
                  (λ i j idx, mkGrid (i * splitCol) (j * splitRow) splitCol splitRow idx)
                  2 (Z.to_nat (R `div` 2)) [] ltac:(lia)) as H.
    cbv zeta in H. rewrite Z2Nat.id in H by lia.
    change (Z.of_nat (length (@nil GridObj))) with 0 in H.
    destruct H as (Hlen & _ & Hnew).
    split; [lia|]. intros t Ht.
    pose proof (Z.div_mod t 2 ltac:(lia)) as Ht2.
    pose proof (Z.mod_pos_bound t 2 ltac:(lia)) as Hm.
    specialize (Hnew (t `div` 2) (t `mod` 2) ltac:(lia) Hm).
    replace (0 + t `div` 2 * 2 + t `mod` 2) with t in Hnew by lia. exact Hnew.
  - apply Z.eqb_neq in E2. destruct Hdiv as [?|E3]; [done|].
    pose proof (rem_div_exact R 3 ltac:(lia) ltac:(lia) E3) as HR3.
    assert ((R + 2) `div` 3 = R `div` 3) as ->.
    { rewrite HR3 at 1. rewrite Z.mul_comm, Z.div_add_l by lia.
      rewrite (Z.div_small 2 3) by lia. lia. }
    destruct (decide (R = 0)) as [HR|HR].
    { rewrite HR. simpl. split; [done|lia]. }
    assert ((3 * rowCount (params d)) `div` R = rowCount (params d) `div` (R `div` 3)) as ->.
    { rewrite HR3 at 1. by rewrite Z.div_mul_cancel_l by lia. }
    set (splitCol := colCount (params d) `div` 3).
    set (splitRow := rowCount (params d) `div` (R `div` 3)).
    pose proof (nested_push_spec
                  (λ i j idx, mkGrid (j * splitCol) (i * splitRow) splitCol splitRow idx)
                  3 (Z.to_nat (R `div` 3)) [] ltac:(lia)) as H.
    cbv zeta in H. rewrite Z2Nat.id in H by lia.
    change (Z.of_nat (length (@nil GridObj))) with 0 in H.
    destruct H as (Hlen & _ & Hnew).
    split; [lia|]. intros t Ht.
    pose proof (Z.div_mod t 3 ltac:(lia)) as Ht3.
    pose proof (Z.mod_pos_bound t 3 ltac:(lia)) as Hm.
    specialize (Hnew (t `div` 3) (t `mod` 3) ltac:(lia) Hm).
    replace (0 + t `div` 3 * 3 + t `mod` 3) with t in Hnew by lia. exact Hnew.
Qed.

Lemma createGrid_lookup d (t : nat) g :
  let R := roomCount d in
  0 ≤ R → (R `rem` 2 = 0 ∨ R `rem` 3 = 0) →
  gridList (createGrid (set_gridList [] d)) !! t = Some g →
  Z.of_nat t < R ∧ g = gridAt (params d) R (Z.of_nat t).
Proof.
  intros R HR0 Hdiv Hg.
  destruct (createGrid_cells d HR0 Hdiv) as [Hlen Hcells].
  pose proof (lookup_lt_Some _ _ _ Hg) as Hlt.
  split; [fold R in Hlen; lia|].
  specialize (Hcells (Z.of_nat t) ltac:(fold R in Hlen; lia)).
  unfold lookupZ in Hcells. destruct (decide _); [|lia].
  rewrite Nat2Z.id in Hcells. cbv zeta in Hcells. rewrite Hg in Hcells. by injection Hcells.
Qed.

Lemma gridAt_inside P R t :
  0 < R → (R `rem` 2 = 0 ∨ R `rem` 3 = 0) →
  0 ≤ colCount P → 0 ≤ rowCount P → 0 ≤ t < R →
  let g := gridAt P R t in
  0 ≤ g_width g ∧ 0 ≤ g_height g ∧
  0 ≤ g_x g ∧ g_x g + g_width g ≤ colCount P ∧
  0 ≤ g_y g ∧ g_y g + g_height g ≤ rowCount P.
Proof.
  intros HR Hdiv Hc Hr Ht. unfold gridAt.
  destruct (R `rem` 2 =? 0) eqn:E2; cbn [g_x g_y g_width g_height].
  - apply Z.eqb_eq in E2.
    pose proof (rem_div_exact R 2 ltac:(lia) ltac:(lia) E2) as HR2.
    pose proof (Z.div_mod t 2 ltac:(lia)) as Ht2.
    pose proof (Z.mod_pos_bound t 2 ltac:(lia)) as Hm.
    set (q := R `div` 2) in *. assert (0 < q) by lia.
    pose proof (Z.mul_div_le (colCount P) q ltac:(lia)).
    pose proof (Z.mul_div_le (rowCount P) 2 ltac:(lia)).
    pose proof (Z.div_pos (colCount P) q ltac:(lia) ltac:(lia)).
    pose proof (Z.div_pos (rowCount P) 2 ltac:(lia) ltac:(lia)).
    set (sc := colCount P `div` q) in *. set (sr := rowCount P `div` 2) in *.
    set (i := t `div` 2) in *. set (j := t `mod` 2) in *.
    assert (0 ≤ i ∧ i + 1 ≤ q) as [Hi0 Hi1] by lia.
    pose proof (Z.mul_nonneg_nonneg i sc Hi0 ltac:(lia)).
    pose proof (Z.mul_nonneg_nonneg j sr ltac:(lia) ltac:(lia)).
    pose proof (Z.mul_le_mono_nonneg_r (i + 1) q sc ltac:(lia) Hi1).
    pose proof (Z.mul_le_mono_nonneg_r (j + 1) 2 sr ltac:(lia) ltac:(lia)).
    split_and!; lia.
  - apply Z.eqb_neq in E2. destruct Hdiv as [?|E3]; [done|].
    pose proof (rem_div_exact R 3 ltac:(lia) ltac:(lia) E3) as HR3.
    pose proof (Z.div_mod t 3 ltac:(lia)) as Ht3.
    pose proof (Z.mod_pos_bound t 3 ltac:(lia)) as Hm.
    set (q := R `div` 3) in *. assert (0 < q) by lia.
    pose proof (Z.mul_div_le (colCount P) 3 ltac:(lia)).
    pose proof (Z.mul_div_le (rowCount P) q ltac:(lia)).
    pose proof (Z.div_pos (colCount P) 3 ltac:(lia) ltac:(lia)).
    pose proof (Z.div_pos (rowCount P) q ltac:(lia) ltac:(lia)).
    set (sc := colCount P `div` 3) in *. set (sr := rowCount P `div` q) in *.
    set (i := t `div` 3) in *. set (j := t `mod` 3) in *.
    assert (0 ≤ i ∧ i + 1 ≤ q) as [Hi0 Hi1] by lia.
    pose proof (Z.mul_nonneg_nonneg i sr Hi0 ltac:(lia)).
    pose proof (Z.mul_nonneg_nonneg j sc ltac:(lia) ltac:(lia)).
    pose proof (Z.mul_le_mono_nonneg_r (i + 1) q sr ltac:(lia) Hi1).
    pose proof (Z.mul_le_mono_nonneg_r (j + 1) 3 sc ltac:(lia) ltac:(lia)).
    split_and!; lia.
Qed.

Lemma gridAt_apart P R t t' :
  0 ≤ colCount P → 0 ≤ rowCount P → 0 < R → 0 ≤ t → 0 ≤ t' → t ≠ t' →
  apart (gridAt P R t) (gridAt P R t').
Proof.
  intros Hc Hr HR Ht Ht' Hne. unfold apart, gridAt.
  destruct (R `rem` 2 =? 0) eqn:E2; cbn [g_x g_y g_width g_height].
  - pose proof (Z.div_mod t 2 ltac:(lia)). pose proof (Z.mod_pos_bound t 2 ltac:(lia)).
    pose proof (Z.div_mod t' 2 ltac:(lia)). pose proof (Z.mod_pos_bound t' 2 ltac:(lia)).
    assert (0 ≤ colCount P `div` (R `div` 2)).
    { destruct (decide (R `div` 2 = 0)) as [->|]; [by rewrite Z.div_0_r|].
      apply Z.div_pos; [lia|]. pose proof (Z.div_pos R 2 ltac:(lia) ltac:(lia)). lia. }
    pose proof (Z.div_pos (rowCount P) 2 ltac:(lia) ltac:(lia)).
    set (sc := colCount P `div` _) in *. set (sr := rowCount P `div` 2) in *.
    set (i := t `div` 2) in *. set (j := t `mod` 2) in *.
    set (i' := t' `div` 2) in *. set (j' := t' `mod` 2) in *.
    destruct (Z.lt_trichotomy i i') as [?|[?|?]]; [left; nia| |right; left; nia].
    destruct (Z.lt_trichotomy j j') as [?|[?|?]]; [right; right; left; nia|lia|].
    right; right; right; nia.
  - pose proof (Z.div_mod t 3 ltac:(lia)). pose proof (Z.mod_pos_bound t 3 ltac:(lia)).
    pose proof (Z.div_mod t' 3 ltac:(lia)). pose proof (Z.mod_pos_bound t' 3 ltac:(lia)).
    assert (0 ≤ rowCount P `div` (R `div` 3)).
    { destruct (decide (R `div` 3 = 0)) as [->|]; [by rewrite Z.div_0_r|].
      apply Z.div_pos; [lia|]. pose proof (Z.div_pos R 3 ltac:(lia) ltac:(lia)). lia. }
    pose proof (Z.div_pos (colCount P) 3 ltac:(lia) ltac:(lia)).
    set (sr := rowCount P `div` _) in *. set (sc := colCount P `div` 3) in *.
    set (i := t `div` 3) in *. set (j := t `mod` 3) in *.
    set (i' := t' `div` 3) in *. set (j' := t' `mod` 3) in *.
    destruct (Z.lt_trichotomy j j') as [?|[?|?]]; [left; nia| |right; left; nia].
    destruct (Z.lt_trichotomy i i') as [?|[?|?]]; [right; right; left; nia|lia|].
    right; right; right; nia.
Qed.

(** X9. The grids that [#createGrid] makes lie inside the board, each holds
    its position as [index], they all have the same size, and no two of
    them overlap. *)
Theorem createGrid_tiles d (t t' : nat) g g' :
  0 < roomCount d →
  (roomCount d `rem` 2 = 0 ∨ roomCount d `rem` 3 = 0) →
  0 ≤ colCount (params d) → 0 ≤ rowCount (params d) →
  gridList (createGrid (set_gridList [] d)) !! t = Some g →
  gridList (createGrid (set_gridList [] d)) !! t' = Some g' →
  g_index g = Z.of_nat t ∧
  0 ≤ g_x g ∧ g_x g + g_width g ≤ colCount (params d) ∧
  0 ≤ g_y g ∧ g_y g + g_height g ≤ rowCount (params d) ∧
  g_width g' = g_width g ∧ g_height g' = g_height g ∧
  (t ≠ t' → apart g g').
Proof.
  intros HR Hdiv Hc Hr Hg Hg'.
  apply createGrid_lookup in Hg as [Ht ->]; [|lia|done].
  apply createGrid_lookup in Hg' as [Ht' ->]; [|lia|done].
  destruct (gridAt_inside (params d) (roomCount d) (Z.of_nat t) HR Hdiv Hc Hr ltac:(lia))
    as (_ & _ & Hx & Hxw & Hy & Hyh).
  split_and!; try done.
  - unfold gridAt. by destruct (_ =? _).
  - unfold gridAt. by destruct (_ =? _).
  - unfold gridAt. by destruct (_ =? _).
  - intros Hne. apply gridAt_apart; lia.
Qed.

Lemma createGrid_tiles_witness :
  let gl := gridList (createGrid (set_gridList [] (set_roomCount 6 blankDungeon))) in
  gl !! 1%nat = Some (mkGrid 0 10 6 10 1) ∧ gl !! 4%nat = Some (mkGrid 12 0 6 10 4) ∧
  apart (mkGrid 0 10 6 10 1) (mkGrid 12 0 6 10 4).
Proof.
  intros gl.
  assert (gl !! 1%nat = Some (mkGrid 0 10 6 10 1)) as H1 by reflexivity.
  assert (gl !! 4%nat = Some (mkGrid 12 0 6 10 4)) as H4 by reflexivity.
  split_and!; [exact H1|exact H4|].
  apply (createGrid_tiles (set_roomCount 6 blankDungeon) 1 4 _ _); simpl; try lia;
    [by left|exact H1|exact H4].
Defined.

Lemma mul_step_cancel a b s : s ≠ 0 → (a * s = b * s + s ↔ a = b + 1).
Proof.
  intros Hs. replace (b * s + s) with ((b + 1) * s) by lia.
  by rewrite Z.mul_cancel_r.
Qed.

(** X10. On the partition of [#createGrid], with grids that are not empty, the
    grids adjacent to the grid at position [t] are the next grid of its
    line, at [t + 1], when [t] is not the last of its line, and the grid at
    the same place of the next line, at [t + perLine]. *)
Theorem getAdjacentGrids_partition d (t t' : nat) g g' :
  0 < roomCount d →
  (roomCount d `rem` 2 = 0 ∨ roomCount d `rem` 3 = 0) →
  gridList (createGrid (set_gridList [] d)) !! t = Some g →
  gridList (createGrid (set_gridList [] d)) !! t' = Some g' →
  0 < g_width g → 0 < g_height g →
  (g' ∈ getAdjacentGrids (gridList (createGrid (set_gridList [] d))) g ↔
   (Z.of_nat t' = Z.of_nat t + 1 ∧ (Z.of_nat t + 1) `mod` perLine (roomCount d) ≠ 0) ∨
   Z.of_nat t' = Z.of_nat t + perLine (roomCount d)).
Proof.
  intros HR Hdiv Hg Hg' Hw Hh.
  unfold getAdjacentGrids. rewrite list_elem_of_filter.
  assert (g' ∈ gridList (createGrid (set_gridList [] d))) as Hin
    by by eapply list_elem_of_lookup_2.
  enough (((g_x g' = g_x g ∧ g_y g' = g_y g + g_height g) ∨
           (g_y g' = g_y g ∧ g_x g' = g_x g + g_width g)) ↔
          (Z.of_nat t' = Z.of_nat t + 1 ∧ (Z.of_nat t + 1) `mod` perLine (roomCount d) ≠ 0) ∨
          Z.of_nat t' = Z.of_nat t + perLine (roomCount d)) as Hiff.
  { split; [intros [Hadj _]; by apply Hiff|intros Hadj; split; [by apply Hiff|done]]. }
  clear Hin.
  apply createGrid_lookup in Hg as [Ht ->]; [|lia|done].
  apply createGrid_lookup in Hg' as [Ht' ->]; [|lia|done].
  revert Hw Hh. unfold gridAt, perLine.
  destruct (roomCount d `rem` 2 =? 0) eqn:E2; cbn [g_x g_y g_width g_height];
    intros Hw Hh.
  - pose proof (Z.div_mod (Z.of_nat t) 2 ltac:(lia)).
    pose proof (Z.mod_pos_bound (Z.of_nat t) 2 ltac:(lia)).
    pose proof (Z.div_mod (Z.of_nat t') 2 ltac:(lia)).
    pose proof (Z.mod_pos_bound (Z.of_nat t') 2 ltac:(lia)).
    pose proof (Z.div_mod (Z.of_nat t + 1) 2 ltac:(lia)).
    pose proof (Z.mod_pos_bound (Z.of_nat t + 1) 2 ltac:(lia)).
    rewrite Z.mul_cancel_r, mul_step_cancel, Z.mul_cancel_r, mul_step_cancel by lia.
    lia.
  - pose proof (Z.div_mod (Z.of_nat t) 3 ltac:(lia)).
    pose proof (Z.mod_pos_bound (Z.of_nat t) 3 ltac:(lia)).
    pose proof (Z.div_mod (Z.of_nat t') 3 ltac:(lia)).
    pose proof (Z.mod_pos_bound (Z.of_nat t') 3 ltac:(lia)).
    pose proof (Z.div_mod (Z.of_nat t + 1) 3 ltac:(lia)).
    pose proof (Z.mod_pos_bound (Z.of_nat t + 1) 3 ltac:(lia)).
    rewrite Z.mul_cancel_r, mul_step_cancel, Z.mul_cancel_r, mul_step_cancel by lia.
    lia.
Qed.

Lemma getAdjacentGrids_partition_witness :
  let gl := gridList (createGrid (set_gridList [] (set_roomCount 6 blankDungeon))) in
  gl !! 1%nat = Some (mkGrid 0 10 6 10 1) ∧ gl !! 3%nat = Some (mkGrid 6 10 6 10 3) ∧
  mkGrid 6 10 6 10 3 ∈ getAdjacentGrids gl (mkGrid 0 10 6 10 1).
Proof.
  intros gl.
  assert (gl !! 1%nat = Some (mkGrid 0 10 6 10 1)) as H1 by reflexivity.
  assert (gl !! 3%nat = Some (mkGrid 6 10 6 10 3)) as H3 by reflexivity.
  split_and!; [exact H1|exact H3|].
  apply (getAdjacentGrids_partition (set_roomCount 6 blankDungeon) 1 3 _ _);
    [simpl; lia|by left|exact H1|exact H3|simpl; lia|simpl; lia|].
  right. reflexivity.
Defined.

(** ** The paths of [#getPath] *)

Lemma half_nonzero d : d ≠ 0 → 0 < (Z.abs d + 1) `div` 2 ≤ Z.abs d.
Proof.
  intros Hd.
  pose proof (Z.div_mod (Z.abs d + 1) 2 ltac:(lia)).
  pose proof (Z.mod_pos_bound (Z.abs d + 1) 2 ltac:(lia)). lia.
Qed.

Lemma getPath_x sx sy ex ey :
  ey - sy < ex - sx → ex ≠ sx →
  getPath (sx, sy) (ex, ey) = Some (legs sx sy ex ey).
Proof.
  intros Hdom Hne. unfold getPath, legs. cbv beta iota zeta.
  pose proof (half_nonzero (ex - sx) ltac:(lia)) as Hh.
  set (h := (Z.abs (ex - sx) + 1) `div` 2) in *.
  assert ((ey - sy <? ex - sx) = true) as -> by lia.
  rewrite foldl_push_if, app_nil_l. unfold upto. rewrite Z.sub_0_r.
  set (sgn := if 0 <? ex - sx then 1 else -1).
  set (la := sx + sgn * (h - 1)).
  set (seg1 := (λ i, if 0 <? ex - sx then (sx + i, sy) else (sx - i, sy)) <$> seqZ 0 h).
  assert (seg1 = (λ i, (sx + sgn * i, sy)) <$> seqZ 0 h) as Hseg1.
  { unfold seg1, sgn. apply list_fmap_ext. intros _ i _.
    destruct (0 <? ex - sx); f_equal; lia. }
  assert (last seg1 = Some (la, sy)) as Hlast1.
  { rewrite Hseg1, last_fmap_seqZ by lia. unfold la. do 2 f_equal; lia. }
  assert (∀ path : list Pt, last path = Some (la, ey) →
            foldl (λ path i, if 0 <? ex - sx then push path (i + 1, ey)
                             else push path (i - 1, ey))
                  path (seqZ la (Z.abs ex - la))
            = path ++ ((λ i, (i + sgn, ey)) <$> seqZ la (Z.abs ex - la))) as Hseg3.
  { intros path _. rewrite foldl_push_if. f_equal. apply list_fmap_ext. intros _ i _.
    unfold sgn. destruct (0 <? ex - sx); f_equal; lia. }
  destruct (ey - sy =? 0) eqn:Ey.
  - apply Z.eqb_eq in Ey. cbn [mbind option_bind]. rewrite Hlast1. cbn [mbind option_bind fst].
    replace (Z.abs (ey - sy)) with 0 by lia. rewrite (seqZ_nil 1 0) by lia.
    rewrite fmap_nil, app_nil_l. rewrite Hseg3 by (rewrite Hlast1; do 2 f_equal; lia).
    by rewrite Hseg1.
  - apply Z.eqb_neq in Ey.
    rewrite (foldl_step_keep_x _ _ _ _ seg1 la sy Hlast1).
    cbn [mbind option_bind]. replace (Z.abs (ey - sy) + 1 - 1) with (Z.abs (ey - sy)) by lia.
    set (seg2 := (λ i, (la, if 0 <? ey - sy then sy + i else sy - i))
                   <$> seqZ 1 (Z.abs (ey - sy))).
    assert (last seg2 = Some (la, ey)) as Hlast2.
    { unfold seg2. rewrite last_fmap_seqZ by lia. do 2 f_equal.
      destruct (0 <? ey - sy) eqn:E; lia. }
    rewrite last_app, Hlast2. cbn [mbind option_bind fst].
    rewrite Hseg3 by (by rewrite last_app, Hlast2).
    by rewrite Hseg1, <- app_assoc.
Qed.

Lemma getPath_y sx sy ex ey :
  ex - sx ≤ ey - sy → ey ≠ sy →
  getPath (sx, sy) (ex, ey) = Some (swap <$> legs sy sx ey ex).
Proof.
  intros Hdom Hne. unfold getPath, legs. cbv beta iota zeta.
  pose proof (half_nonzero (ey - sy) ltac:(lia)) as Hh.
  set (h := (Z.abs (ey - sy) + 1) `div` 2) in *.
  assert ((ey - sy <? ex - sx) = false) as -> by lia.
  rewrite foldl_push_if, app_nil_l. unfold upto. rewrite Z.sub_0_r.
  set (sgn := if 0 <? ey - sy then 1 else -1).
  set (la := sy + sgn * (h - 1)).
  rewrite !fmap_app, <- !list_fmap_compose. unfold compose, swap. cbn [fst snd].
  set (seg1 := (λ i, if 0 <? ey - sy then (sx, sy + i) else (sx, sy - i)) <$> seqZ 0 h).
  assert (seg1 = (λ i, (sx, sy + sgn * i)) <$> seqZ 0 h) as Hseg1.
  { unfold seg1, sgn. apply list_fmap_ext. intros _ i _.
    destruct (0 <? ey - sy); f_equal; lia. }
  assert (last seg1 = Some (sx, la)) as Hlast1.
  { rewrite Hseg1, last_fmap_seqZ by lia. unfold la. do 2 f_equal; lia. }
  assert (∀ path : list Pt, last path = Some (ex, la) →
            foldl (λ path i, if 0 <? ey - sy then push path (ex, i + 1)
                             else push path (ex, i - 1))
                  path (seqZ la (Z.abs ey - la))
            = path ++ ((λ i, (ex, i + sgn)) <$> seqZ la (Z.abs ey - la))) as Hseg3.
  { intros path _. rewrite foldl_push_if. f_equal. apply list_fmap_ext. intros _ i _.
    unfold sgn. destruct (0 <? ey - sy); f_equal; lia. }
  destruct (ex - sx =? 0) eqn:Ex.
  - apply Z.eqb_eq in Ex. cbn [mbind option_bind]. rewrite Hlast1. cbn [mbind option_bind snd].
    replace (Z.abs (ex - sx)) with 0 by lia. rewrite (seqZ_nil 1 0) by lia.
    rewrite fmap_nil, app_nil_l. rewrite Hseg3 by (rewrite Hlast1; do 2 f_equal; lia).
    by rewrite Hseg1.
  - apply Z.eqb_neq in Ex.
    rewrite (foldl_step_keep_y _ _ _ _ seg1 sx la Hlast1).
    cbn [mbind option_bind]. replace (Z.abs (ex - sx) + 1 - 1) with (Z.abs (ex - sx)) by lia.
    set (seg2 := (λ i, (if 0 <? ex - sx then sx + i else sx - i, la))
                   <$> seqZ 1 (Z.abs (ex - sx))).
    assert (last seg2 = Some (ex, la)) as Hlast2.
    { unfold seg2. rewrite last_fmap_seqZ by lia. do 2 f_equal.
      destruct (0 <? ex - sx) eqn:E; lia. }
    rewrite last_app, Hlast2. cbn [mbind option_bind snd].
    rewrite Hseg3 by (by rewrite last_app, Hlast2).
    by rewrite Hseg1, <- app_assoc.
Qed.

Lemma getPath_None_x sx sy ex ey :
  ey - sy < ex - sx → ex = sx → getPath (sx, sy) (ex, ey) = None.
Proof.
  intros Hdom ->. unfold getPath. cbv beta iota zeta.
  assert ((ey - sy <? sx - sx) = true) as -> by lia.
  assert ((ey - sy =? 0) = false) as -> by lia.
  unfold upto. replace ((Z.abs (sx - sx) + 1) `div` 2 - 0) with 0 by (by rewrite Z.sub_diag).
  rewrite (seqZ_nil 0 0) by lia. cbn [foldl].
  rewrite (seqZ_cons 1) by lia. cbn [foldl last mbind option_bind].
  by rewrite foldl_bind_None.
Qed.

Lemma getPath_None_y sx sy ex ey :
  ex - sx ≤ ey - sy → ey = sy → getPath (sx, sy) (ex, ey) = None.
Proof.
  intros Hdom ->. unfold getPath. cbv beta iota zeta.
  assert ((sy - sy <? ex - sx) = false) as -> by lia.
  unfold upto. replace ((Z.abs (sy - sy) + 1) `div` 2 - 0) with 0 by (by rewrite Z.sub_diag).
  rewrite (seqZ_nil 0 0) by lia. cbn [foldl].
  destruct (ex - sx =? 0) eqn:Ex; [done|]. apply Z.eqb_neq in Ex.
  rewrite (seqZ_cons 1) by lia. cbn [foldl last mbind option_bind].
  by rewrite foldl_bind_None.
Qed.

(** ** The stretches of a path *)

Section Legs.
Context (a0 b0 a1 b1 : Z).
Hypothesis Hne : a1 ≠ a0.

Let dA := a1 - a0.
Let dB := b1 - b0.
Let h := (Z.abs dA + 1) `div` 2.
Let sgn := if 0 <? dA then 1 else -1.
Let la := a0 + sgn * (h - 1).
Let seg1 := (λ i, (a0 + sgn * i, b0)) <$> seqZ 0 h.
Let seg2 := (λ i, (la, if 0 <? dB then b0 + i else b0 - i)) <$> seqZ 1 (Z.abs dB).
Let seg3 := (λ i : Z, (i + sgn, b1)) <$> seqZ la (Z.abs a1 - la).

Local Lemma legs_stretches : legs a0 b0 a1 b1 = seg1 ++ seg2 ++ seg3.
Proof. reflexivity. Qed.

Local Lemma legs_half : 0 < h ≤ Z.abs dA.
Proof. apply half_nonzero. unfold dA. lia. Qed.

Local Lemma legs_sign : (0 < dA ∧ sgn = 1) ∨ (dA < 0 ∧ sgn = -1).
Proof. unfold sgn, dA. destruct (0 <? a1 - a0) eqn:E; lia. Qed.

Local Lemma legs_first_head : head seg1 = Some (a0, b0).
Proof.
  unfold seg1. pose proof legs_half. rewrite head_fmap_seqZ by lia. do 2 f_equal; lia.
Qed.

Local Lemma legs_first_last : last seg1 = Some (la, b0).
Proof.
  unfold seg1. pose proof legs_half. rewrite last_fmap_seqZ by lia. unfold la. do 2 f_equal; lia.
Qed.

Local Lemma legs_turn_last : last (seg1 ++ seg2) = Some (la, b1).
Proof.
  destruct (decide (dB = 0)) as [E|E].
  - unfold seg2. rewrite E. simpl. rewrite app_nil_r, legs_first_last. unfold dB in E.
    do 2 f_equal; lia.
  - rewrite last_app. unfold seg2. rewrite last_fmap_seqZ by lia. simpl.
    do 2 f_equal. unfold dB in *. destruct (0 <? b1 - b0) eqn:E'; lia.
Qed.

Local Lemma legs_first_contiguous : contiguous seg1 = true.
Proof.
  apply contiguous_fmap_seqZ. intros i _ _. unfold oneStep. simpl.
  apply bool_decide_eq_true. destruct legs_sign as [[_ ->]|[_ ->]]; lia.
Qed.

Local Lemma legs_turn_contiguous : contiguous seg2 = true.
Proof.
  apply contiguous_fmap_seqZ. intros i _ _. unfold oneStep. simpl.
  apply bool_decide_eq_true. destruct (0 <? dB); lia.
Qed.

Local Lemma legs_rest_contiguous : contiguous seg3 = true.
Proof.
  apply contiguous_fmap_seqZ. intros i _ _. unfold oneStep. simpl.
  apply bool_decide_eq_true. lia.
Qed.

Local Lemma legs_first_linked : linked (last seg1) (head seg2) = true.
Proof.
  rewrite legs_first_last. unfold seg2. destruct (decide (dB = 0)) as [E|E].
  - by rewrite E.
  - rewrite head_fmap_seqZ by lia. unfold linked, oneStep. simpl.
    apply bool_decide_eq_true. destruct (0 <? dB); lia.
Qed.

Local Lemma legs_turn_linked : linked (last (seg1 ++ seg2)) (head seg3) = true.
Proof.
  rewrite legs_turn_last. unfold seg3. destruct (decide (Z.abs a1 - la ≤ 0)) as [E|E].
  - by rewrite seqZ_nil.
  - rewrite head_fmap_seqZ by lia. unfold linked, oneStep. simpl.
    apply bool_decide_eq_true. destruct legs_sign as [[_ ->]|[_ ->]]; lia.
Qed.

Lemma legs_head : head (legs a0 b0 a1 b1) = Some (a0, b0).
Proof.
  rewrite legs_stretches. pose proof legs_first_head. destruct seg1; [done|]. done.
Qed.

Lemma legs_contiguous : contiguous (legs a0 b0 a1 b1) = true.
Proof.
  rewrite legs_stretches, app_assoc, !contiguous_app.
  by rewrite legs_first_contiguous, legs_turn_contiguous, legs_rest_contiguous,
    legs_first_linked, legs_turn_linked.
Qed.

(** Where the last stretch ends: it runs from [la] while the coordinate is
    below [|a1|], and is empty when [la] is not. *)
Lemma legs_last :
  last (legs a0 b0 a1 b1)
  = Some (if la <? Z.abs a1 then Z.abs a1 - 1 + sgn else la, b1).
Proof.
  rewrite legs_stretches, app_assoc. destruct (la <? Z.abs a1) eqn:E.
  - rewrite last_app. unfold seg3. rewrite last_fmap_seqZ by lia. simpl.
    do 2 f_equal; lia.
  - unfold seg3. rewrite seqZ_nil by lia. simpl. by rewrite app_nil_r, legs_turn_last.
Qed.

Lemma legs_reaches :
  0 ≤ a1 → (last (legs a0 b0 a1 b1) = Some (a1, b1) ↔ 0 < a1 - a0).
Proof.
  intros Ha1. rewrite legs_last. pose proof legs_half as Hh'. unfold la.
  rewrite (Z.abs_eq a1) by lia.
  destruct legs_sign as [[Hd Hs]|[Hd Hs]]; rewrite Hs; fold dA.
  - rewrite Z.abs_eq in Hh' by lia. unfold dA in *.
    destruct (a0 + 1 * (h - 1) <? a1) eqn:E; [|lia]. split; [lia|]. intros _.
    by replace (a1 - 1 + 1) with a1 by lia.
  - rewrite Z.abs_neq in Hh' by lia. unfold dA in *.
    destruct (a0 + -1 * (h - 1) <? a1) eqn:E; [lia|]. split; [|lia]. intros [= H]. lia.
Qed.

Lemma legs_box p :
  0 ≤ a1 → p ∈ legs a0 b0 a1 b1 →
  a0 `min` a1 ≤ p.1 ≤ a0 `max` a1 ∧ b0 `min` b1 ≤ p.2 ≤ b0 `max` b1.
Proof.
  intros Ha1. rewrite legs_stretches, !elem_of_app. pose proof legs_half as Hh'. unfold dA in Hh'.
  pose proof legs_sign as Hs. unfold dA in Hs.
  assert (a0 `min` a1 ≤ la ≤ a0 `max` a1) as Hla by (unfold la; lia).
  unfold seg1, seg2, seg3. rewrite !list_elem_of_fmap.
  intros [(i & -> & Hi)|[(i & -> & Hi)|(i & -> & Hi)]];
    apply elem_of_seqZ in Hi; simpl.
  - lia.
  - split; [lia|]. unfold dB in *. destruct (0 <? b1 - b0) eqn:E; lia.
  - rewrite Z.abs_eq in Hi by lia. lia.
Qed.
End Legs.

Lemma contiguous_swap l : contiguous (swap <$> l) = contiguous l.
Proof.
  induction l as [|a [|b l] IH]; [done..|].
  rewrite !fmap_cons in *. cbn [contiguous] in *. rewrite IH. f_equal.
  unfold oneStep, swap. simpl. apply bool_decide_ext. lia.
Qed.

Lemma last_swap (l : list Pt) : last (swap <$> l) = swap <$> last l.
Proof. by rewrite fmap_last. Qed.

Lemma head_swap (l : list Pt) : head (swap <$> l) = swap <$> head l.
Proof. by destruct l. Qed.

(** X11. [#getPath] throws exactly on a straight path toward smaller
    coordinates and on a path from a point to itself: a loop reads the last
    element of a path that is still empty. *)
Theorem getPath_throws_iff sx sy ex ey :
  getPath (sx, sy) (ex, ey) = None ↔ (ex = sx ∧ ey < sy) ∨ (ey = sy ∧ ex ≤ sx).
Proof.
  destruct (Z_lt_ge_dec (ey - sy) (ex - sx)) as [Hd|Hd].
  - destruct (decide (ex = sx)) as [E|E].
    + rewrite getPath_None_x by done. split; [intros _; lia|done].
    + rewrite getPath_x by done. split; [done|lia].
  - destruct (decide (ey = sy)) as [E|E].
    + rewrite getPath_None_y by lia. split; [intros _; lia|done].
    + rewrite getPath_y by lia. split; [done|lia].
Qed.

(** X12. Whatever [#getPath] returns starts at the start point and moves one
    tile along one axis at every step. *)
Theorem getPath_contiguous point1 point2 path :
  getPath point1 point2 = Some path →
  head path = Some point1 ∧ contiguous path = true.
Proof.
  destruct point1 as [sx sy], point2 as [ex ey].
  destruct (Z_lt_ge_dec (ey - sy) (ex - sx)) as [Hd|Hd].
  - destruct (decide (ex = sx)) as [E|E].
    + by rewrite getPath_None_x.
    + rewrite getPath_x by done. intros [= <-].
      split; [by apply legs_head|by apply legs_contiguous].
  - destruct (decide (ey = sy)) as [E|E].
    + by rewrite getPath_None_y by lia.
    + rewrite getPath_y by lia. intros [= <-]. split.
      * rewrite head_swap. by rewrite legs_head.
      * rewrite contiguous_swap. by apply legs_contiguous.
Qed.

Lemma getPath_contiguous_witness :
  getPath (10, 10) (8, 5) = Some [(10,10); (10,9); (10,8); (10,7); (10,6); (10,5)] ∧
  contiguous [(10,10); (10,9); (10,8); (10,7); (10,6); (10,5)] = true.
Proof.
  assert (getPath (10, 10) (8, 5) = Some [(10,10); (10,9); (10,8); (10,7); (10,6); (10,5)])
    as H by reflexivity.
  split; [exact H|]. exact (proj2 (getPath_contiguous _ _ _ H)).
Defined.

(** X13. For a destination with coordinates that are not negative, the path
    ends at the destination exactly when the larger of the two differences
    is positive. *)
Theorem getPath_reaches_iff sx sy ex ey :
  0 ≤ ex → 0 ≤ ey →
  ((getPath (sx, sy) (ex, ey) ≫= last) = Some (ex, ey) ↔ 0 < (ex - sx) `max` (ey - sy)).
Proof.
  intros Hex Hey.
  destruct (Z_lt_ge_dec (ey - sy) (ex - sx)) as [Hd|Hd].
  - destruct (decide (ex = sx)) as [E|E].
    + rewrite getPath_None_x by done. split; [done|lia].
    + rewrite getPath_x by done. cbn [mbind option_bind].
      rewrite legs_reaches by done. lia.
  - destruct (decide (ey = sy)) as [E|E].
    + rewrite getPath_None_y by lia. split; [done|lia].
    + rewrite getPath_y by lia. cbn [mbind option_bind]. rewrite last_swap.
      pose proof (legs_reaches sy sx ey ex E Hey) as Hr.
      destruct (last (legs sy sx ey ex)) as [[a b]|]; simpl.
      * unfold swap. simpl. split.
        -- intros [= -> ->]. apply Z.max_lt_iff. right. by apply Hr.
        -- intros Hm. assert (0 < ey - sy) as H0 by lia. apply Hr in H0.
           by injection H0 as -> ->.
      * split; [done|]. intros Hm. assert (0 < ey - sy) as H0 by lia. by apply Hr in H0.
Qed.

Lemma getPath_reaches_iff_witness :
  0 ≤ 13 ∧ 0 ≤ 5 ∧ (getPath (3, 3) (13, 5) ≫= last) = Some (13, 5).
Proof.
  split_and!; [lia..|].
  apply (getPath_reaches_iff 3 3 13 5); lia.
Defined.

(** X14. For a destination with coordinates that are not negative, every tile
    of the path lies in the rectangle that the two points span. *)
Theorem getPath_in_box point1 point2 path p :
  0 ≤ point2.1 → 0 ≤ point2.2 →
  getPath point1 point2 = Some path → p ∈ path →
  point1.1 `min` point2.1 ≤ p.1 ≤ point1.1 `max` point2.1 ∧
  point1.2 `min` point2.2 ≤ p.2 ≤ point1.2 `max` point2.2.
Proof.
  destruct point1 as [sx sy], point2 as [ex ey]. cbn [fst snd]. intros Hex Hey.
  destruct (Z_lt_ge_dec (ey - sy) (ex - sx)) as [Hd|Hd].
  - destruct (decide (ex = sx)) as [E|E].
    + by rewrite getPath_None_x.
    + rewrite getPath_x by done. intros [= <-] Hp. by apply legs_box.
  - destruct (decide (ey = sy)) as [E|E].
    + by rewrite getPath_None_y by lia.
    + rewrite getPath_y by lia. intros [= <-] Hp.
      apply list_elem_of_fmap in Hp as (q & -> & Hq).
      apply legs_box in Hq; [|done..]. unfold swap. simpl. lia.
Qed.

Lemma getPath_in_box_witness :
  getPath (10, 10) (8, 5) = Some [(10,10); (10,9); (10,8); (10,7); (10,6); (10,5)] ∧
  10 `min` 8 ≤ 10 ≤ 10 `max` 8 ∧ 10 `min` 5 ≤ 7 ≤ 10 `max` 5.
Proof.
  assert (getPath (10, 10) (8, 5) = Some [(10,10); (10,9); (10,8); (10,7); (10,6); (10,5)])
    as H by reflexivity.
  split; [exact H|].
  apply (getPath_in_box (10, 10) (8, 5) _ (10, 7) ltac:(simpl; lia) ltac:(simpl; lia) H).
  set_solver.
Defined.

(** ** What the constructor settles *)

Lemma always_mono {A} (p : Gen A) (Q Q' : A → Prop) :
  (∀ a, Q a → Q' a) → always p Q → always p Q'.
Proof. intros HQ. induction p; simpl; auto. Qed.

Lemma always_bind {A B} (m : Gen A) (f : A → Gen B) (Q : B → Prop) :
  always m (λ a, always (f a) Q) → always (m ≫= f) Q.
Proof.
  unfold mbind, gen_bind. induction m as [a|lo hi k IH| |]; simpl; auto.
Qed.

Lemma always_bind_any {A B} (m : Gen A) (f : A → Gen B) (Q : B → Prop) :
  (∀ a, always (f a) Q) → always (m ≫= f) Q.
Proof.
  intros Hf. apply always_bind. induction m; simpl; auto.
Qed.

Lemma always_foldGen {A S} (f : S → A → Gen S) (I : S → Prop) (l : list A) (s : S) :
  (∀ s a, a ∈ l → I s → always (f s a) I) → I s → always (foldGen f l s) I.
Proof.
  revert s. induction l as [|a l IH]; intros s Hf Hs; simpl; [done|].
  apply always_bind. eapply always_mono; [|apply Hf; [left|done]].
  intros s' Hs'. apply IH; [|done]. intros s'' a' Ha'. apply Hf. by right.
Qed.

Lemma always_run {A} (p : Gen A) (Q : A → Prop) r a r' :
  always p Q → run p r = Ok a r' → Q a.
Proof.
  revert r. induction p as [b|lo hi k IH| |]; intros r; simpl; [|..|done|done].
  - by intros HQ [= <- _].
  - intros Hk. destruct (randomInt lo hi r) as [v r1]. by apply IH.
Qed.

Lemma always_post {A} (p : Gen A) (Q : A → Prop) : always p Q → post p Q.
Proof. induction p; simpl; auto. Qed.

Lemma post_and {A} (p : Gen A) (Q Q' : A → Prop) :
  post p Q → post p Q' → post p (λ a, Q a ∧ Q' a).
Proof. induction p; simpl; auto. Qed.

Ltac skip_draws :=
  repeat first
    [ apply always_bind_any; intros
    | progress simpl
    | match goal with |- always (if ?c then _ else _) _ => destruct c end
    | match goal with |- always (match ?c with _ => _ end) _ => destruct c end ].

Lemma kept_refl d : kept d d.
Proof. done. Qed.

Lemma kept_trans d1 d2 d3 : kept d1 d2 → kept d2 d3 → kept d1 d3.
Proof. unfold kept. intros (?&?&?&?) (?&?&?&?). split_and!; congruence. Qed.

Lemma createPaths_kept d :
  always (createPaths d) (λ d', kept d d' ∧ roomList d' = roomList d).
Proof. unfold createPaths. skip_draws. done. Qed.

Lemma addRandomPaths_kept d :
  always (addRandomPaths d) (λ d', kept d d' ∧ roomList d' = roomList d).
Proof. unfold addRandomPaths. skip_draws. done. Qed.

Lemma placeRoom_kept d i grid : always (placeRoom d i grid) (kept d).
Proof.
  unfold placeRoom. apply always_bind_any. intros touches.
  destruct (bool_decide _); [done|].
  apply always_bind_any. intros c. apply always_bind_any. intros [[c' vp] op].
  apply always_bind_any. intros diceRoll.
  destruct (_ <=? _); [|done]. apply always_bind_any. intros b. done.
Qed.

Lemma designateRooms_kept d : always (designateRooms d) (kept d).
Proof.
  unfold designateRooms. destruct (bool_decide _); [|done].
  apply always_bind_any. intros entryIndex.
  destruct (lookupZ _ _); [|done].
  repeat (apply always_bind_any; intros ?). done.
Qed.

Lemma createRooms_kept d : always (createRooms d) (kept d).
Proof.
  unfold createRooms. apply always_bind.
  eapply always_mono; [|apply (always_foldGen _ (kept d))].
  - intros d1 H1. eapply always_mono; [|apply designateRooms_kept].
    intros d2 H2. by eapply kept_trans.
  - intros d1 [i grid] _ H1. eapply always_mono; [|apply placeRoom_kept].
    intros d2 H2. by eapply kept_trans.
  - done.
Qed.

Lemma layout_kept d :
  always (layout d)
         (λ d', params d' = params d ∧ pointLossChance d' = pointLossChance d ∧
                roomLossChance d' = roomLossChance d).
Proof.
  unfold layout. apply always_bind_any. intros n. apply always_bind_any. intros R.
  set (d1 := set_connectionList _ _).
  assert (params d1 = params d ∧ pointLossChance d1 = pointLossChance d ∧
          roomLossChance d1 = roomLossChance d) as (HP1 & Hp1 & Hr1).
  { unfold d1, createGrid. simpl. by destruct (_ =? _). }
  apply always_bind. eapply always_mono; [|apply createPaths_kept].
  intros d2 [(HP2 & Hp2 & Hr2 & _) _]. apply always_bind.
  eapply always_mono; [|apply createRooms_kept].
  intros d3 (HP3 & Hp3 & Hr3 & _). simpl in HP3, Hp3, Hr3.
  eapply always_mono; [|apply addRandomPaths_kept].
  intros d4 [(HP4 & Hp4 & Hr4 & _) _]. split_and!; congruence.
Qed.

Lemma validateDungeon_rooms fuel d :
  always (validateDungeon fuel d) (λ v, v = true → enoughRooms d).
Proof.
  unfold validateDungeon. apply always_bind_any. intros k.
  apply always_bind_any. intros firstTile.
  destruct (floodLoop _ _ _ _ _); [|done..].
  destruct (bool_decide _); [|done].
  destruct (_ <? _) eqn:E; [done|]. simpl. intros _. unfold enoughRooms. lia.
Qed.

Lemma regenerate_kept fuel d :
  always (regenerate fuel d)
         (λ d', params d' = params d ∧ pointLossChance d' = pointLossChance d ∧
                roomLossChance d' = roomLossChance d ∧
                (validDungeon d' = true → enoughRooms d')).
Proof.
  unfold regenerate. apply always_bind.
  eapply always_mono; [|apply layout_kept].
  intros d1 (HP1 & Hp1 & Hr1). apply always_bind.
  eapply always_mono; [|apply validateDungeon_rooms].
  intros v Hv. simpl. done.
Qed.

(** What the two loops of the constructor keep. *)
Lemma regenerate_settled fuel config d :
  settled config d → always (regenerate fuel d) (settled config).
Proof.
  intros (HP & Hp & Hr & _). eapply always_mono; [|apply regenerate_kept].
  intros d1 (HP1 & Hp1 & Hr1 & Hv1). unfold settled. split_and!; [congruence..|exact Hv1].
Qed.

Lemma firstAttempts_settled fuel config n d :
  settled config d → always (firstAttempts fuel n d) (settled config).
Proof.
  revert d. induction n as [|n IH]; intros d Hd; cbn [firstAttempts]; [done|].
  destruct (validDungeon d); [done|]. apply always_bind.
  eapply always_mono; [|by apply regenerate_settled]. intros d1 Hd1. by apply IH.
Qed.

Lemma forcedAttempts_settled fuel config n d :
  settled config d →
  always (forcedAttempts fuel n d) (λ d', validDungeon d' = true ∧ settled config d').
Proof.
  revert d. induction n as [|n IH]; intros d Hd; cbn [forcedAttempts];
    (destruct (validDungeon d) eqn:Ev; [done|]); [done|].
  apply always_bind. eapply always_mono; [|apply regenerate_kept].
  intros d1 (HP1 & Hp1 & Hr1 & Hv1). apply IH.
  destruct Hd as (HP & Hp & Hr & _). unfold settled. simpl in *.
  split_and!; [congruence|done|done|exact Hv1].
Qed.

Lemma construct_settled fuel config :
  always (construct fuel config) (λ d, validDungeon d = true ∧ settled config d).
Proof.
  unfold construct. apply always_bind_any. intros n. apply always_bind_any. intros R.
  apply always_bind.
  eapply always_mono; [|apply (firstAttempts_settled fuel config)].
  - intros d1 Hd1. by apply forcedAttempts_settled.
  - unfold settled. simpl. split_and!; done.
Qed.

(** X6. A dungeon that the constructor returns is valid, with at least half
    as many rooms as grids; its dimensions and room sizes are the clamped
    ones, and its loss chances are those of the configuration, also when
    the emergency mode had set them to 0. *)
Theorem constructed_settled fuel config entropy d r :
  newDungeon fuel config entropy = Ok d r →
  validDungeon d = true ∧ enoughRooms d ∧
  pointLossChance d = o_pointLossChance config ∧
  roomLossChance d = o_roomLossChance config ∧
  rowCount (params d) = 20 `max` o_rowCount config ∧
  colCount (params d) = 20 `max` o_colCount config ∧
  minRoomSizeX (params d) = 3 `max` o_minRoomSizeX config ∧
  minRoomSizeY (params d) = 3 `max` o_minRoomSizeY config ∧
  maxRoomSizeX (params d) = (3 `max` o_minRoomSizeX config) `max` o_maxRoomSizeX config ∧
  maxRoomSizeY (params d) = (3 `max` o_minRoomSizeY config) `max` o_maxRoomSizeY config.
Proof.
  intros Hrun.
  destruct (always_run _ _ _ _ _ (construct_settled fuel config) Hrun)
    as (Hv & HP & Hp & Hr & Hrooms).
  split_and!; try done; [by apply Hrooms|by rewrite HP..].
Qed.

(** ** The number of grids *)

Lemma layout_gridCount d :
  post (layout d) (λ d', params d' = params d ∧ gridsForRooms d').
Proof.
  unfold layout. apply post_bind, post_draw. intros n Hn.
  unfold adjusted. destruct (adjustRoomCount_total n) as (R & -> & Hdiv & Hle & _).
  change (post (?m ≫= ?f) ?Q) with (post (f R) Q) at 1. cbv beta.
  set (d0 := set_roomCount R _).
  set (d1 := set_connectionList _ _).
  assert (params d1 = params d) as HP1.
  { unfold d1, d0, createGrid. simpl. by destruct (_ =? _). }
  assert (gridList d1 = gridList (createGrid (set_gridList [] d0))) as Hg1 by done.
  apply post_bind. eapply post_mono; [|apply always_post, createPaths_kept].
  intros d2 [(HP2 & _ & _ & Hg2) _]. apply post_bind.
  eapply post_mono; [|apply always_post, createRooms_kept].
  intros d3 (HP3 & _ & _ & Hg3). simpl in HP3, Hg3.
  eapply post_mono; [|apply always_post, addRandomPaths_kept].
  intros d4 [(HP4 & _ & _ & Hg4) _].
  split; [congruence|]. unfold gridsForRooms.
  rewrite HP4, HP3, HP2, HP1, Hg4, Hg3, Hg2, Hg1. intros Hmm Hmin.
  destruct (createGrid_cells d0 ltac:(simpl; lia) Hdiv) as [Hlen _].
  rewrite Hlen. simpl. lia.
Qed.

Lemma regenerate_gridCount fuel d :
  post (regenerate fuel d) (λ d', params d' = params d ∧ gridsForRooms d').
Proof.
  unfold regenerate. apply post_bind.
  eapply post_mono; [|apply layout_gridCount].
  intros d1 [HP1 Hg1]. apply post_bind_any. intros v. simpl. done.
Qed.

Lemma construct_gridCount fuel config :
  post (construct fuel config) (λ d, validDungeon d = true → gridsForRooms d).
Proof.
  unfold construct. apply post_bind_any. intros n. apply post_bind_any. intros R.
  apply post_bind.
  assert (∀ k d, (validDungeon d = true → gridsForRooms d) →
                 post (firstAttempts fuel k d)
                      (λ d, validDungeon d = true → gridsForRooms d)) as Hfirst.
  { induction k as [|k IH]; intros d Hd; cbn [firstAttempts]; [done|].
    destruct (validDungeon d) eqn:Ev; [simpl; intros _; by apply Hd|]. apply post_bind.
    eapply post_mono; [|apply regenerate_gridCount].
    intros d1 [_ H1]. apply IH. done. }
  eapply post_mono; [|apply Hfirst; simpl; discriminate].
  intros d1 Hd1. generalize fuel at 2. intros k. revert d1 Hd1.
  induction k as [|k IH]; intros d Hd; cbn [forcedAttempts];
    (destruct (validDungeon d) eqn:Ev; [simpl; intros _; by apply Hd|]); [done|].
  apply post_bind.
  eapply post_mono; [|apply regenerate_gridCount].
  intros d1 [_ H1]. apply IH. intros _. exact H1.
Qed.

(** X7. With at least three rooms asked for, a dungeon that the constructor
    returns has an entry room and an exit room, two different rooms, and
    its entry and exit points lie strictly inside them. *)
Theorem constructed_entry_exit fuel config entropy d r :
  rng_ok (mkRng (o_seed config) entropy 0) →
  3 ≤ o_roomCountMin config ≤ o_roomCountMax config →
  newDungeon fuel config entropy = Ok d r →
  (2 ≤ length (roomList d))%nat ∧ entryExitOk d.
Proof.
  intros Hr Hcount Hrun.
  destruct (always_run _ _ _ _ _ (construct_settled fuel config) Hrun)
    as (Hv & HP & _ & _ & Hrooms).
  destruct (post_run _ _ _ _ _ Hr (construct_gridCount fuel config) Hrun) as [Hg _].
  destruct (post_run _ _ _ _ _ Hr (construct_post fuel config) Hrun) as [[_ He] _].
  specialize (Hrooms Hv). specialize (Hg Hv). unfold gridsForRooms in Hg.
  rewrite HP in Hg. simpl in Hg. unfold enoughRooms in Hrooms.
  assert (2 ≤ length (roomList d))%nat as Hlen by lia.
  split; [exact Hlen|by apply He].
Qed.

(** ** The points and corridors of [#createPaths] *)

(** ** Writing and reading the board *)

Lemma getCell_setCell b x y t b' x' y' :
  setCell b x y t = Some b' →
  getCell b' x' y' = if decide (x' = x ∧ y' = y) then Some (Some t) else getCell b x' y'.
Proof.
  unfold setCell, getCell. destruct (lookupZ b x) as [col|] eqn:Ecol; [|done].
  simpl. intros [= <-]. unfold lookupZ in *.
  destruct (decide (0 ≤ x)) as [Hx|]; [|done].
  destruct (decide (0 ≤ x')) as [Hx'|].
  2: { destruct (decide _) as [[-> _]|]; [lia|done]. }
  destruct (decide (x' = x)) as [->|Hne].
  - rewrite list_lookup_insert_eq by (by eapply lookup_lt_Some). simpl.
    rewrite Ecol. simpl. destruct (decide (y' = y)) as [->|Hy].
    + rewrite lookup_insert_eq. by rewrite decide_True.
    + rewrite lookup_insert_ne by done. by rewrite decide_False by (intros [_ ?]; done).
  - rewrite list_lookup_insert_ne by lia. by rewrite decide_False by (intros [? _]; done).
Qed.

Lemma setCell_nonWall b x y t b' :
  setCell b x y t = Some b' → type_ne0 t = true →
  nonWallAt b' x y ∧ ∀ x' y', nonWallAt b x' y' → nonWallAt b' x' y'.
Proof.
  intros Hset Ht. split.
  - exists t. by rewrite (getCell_setCell _ _ _ _ _ _ _ Hset), decide_True.
  - intros x' y' (t' & Hc & Ht'). unfold nonWallAt.
    rewrite (getCell_setCell _ _ _ _ _ _ _ Hset). destruct (decide _); eauto.
Qed.

(** A loop of writes: every position written holds a tile that is not a
    wall afterwards, and so does every position that did before. *)
Lemma writes_nonWall {A} (pos : A → Pt) (ty : A → TileType) (l : list A) b b' :
  (∀ a, a ∈ l → type_ne0 (ty a) = true) →
  foldl (λ ob a, b ← ob; setCell b (pos a).1 (pos a).2 (ty a)) (Some b) l = Some b' →
  (∀ a, a ∈ l → nonWallAt b' (pos a).1 (pos a).2) ∧
  (∀ x y, nonWallAt b x y → nonWallAt b' x y).
Proof.
  revert b'. induction l as [|a l IH] using rev_ind; intros b' Hty; simpl.
  - intros [= <-]. split; [by intros a ?%elem_of_nil|done].
  - rewrite foldl_app. simpl.
    destruct (foldl _ (Some b) l) as [b1|] eqn:E; [|done]. simpl. intros Hset.
    destruct (IH b1) as [IH1 IH2]; [intros; apply Hty, elem_of_app; by left|done|].
    destruct (setCell_nonWall _ _ _ _ _ Hset) as [H1 H2].
    { apply Hty, elem_of_app. right. by apply list_elem_of_singleton. }
    split.
    + intros a' [Ha'|Ha']%elem_of_app; [by apply H2, IH1|].
      apply list_elem_of_singleton in Ha' as ->. done.
    + intros x y Hxy. by apply H2, IH2.
Qed.

(** ** Points and connections *)

Lemma indexed_lookup {A} (l : list A) (i : nat) :
  indexed l !! i = (λ a, (Z.of_nat i, a)) <$> l !! i.
Proof.
  unfold indexed, upto. rewrite Z.sub_0_r.
  destruct (l !! i) as [a|] eqn:E; simpl.
  - apply lookup_zip_with_Some. exists (Z.of_nat i), a. split_and!; [done| |done].
    apply lookup_seqZ. pose proof (lookup_lt_Some _ _ _ E). lia.
  - apply lookup_zip_with_None. right. done.
Qed.

Lemma points_fold (P : Params) (l : list (Z * GridObj)) (pl : list PointObj) :
  post (foldGen (λ pl ig,
                   let grid := ig.2 in
                   let minX := g_x grid + minRoomSizeX P in
                   let maxX := g_x grid + g_width grid - minRoomSizeX P in
                   let minY := g_y grid + minRoomSizeY P in
                   let maxY := g_y grid + g_height grid - minRoomSizeY P in
                   x ← draw minX maxX;
                   y ← draw minY maxY;
                   Ret (push pl (mkPoint x y ig.1))) l pl)
       (λ pl', ∃ ps, pl' = pl ++ ps ∧
                 Forall2 (λ ig p, p_gridIndex p = ig.1 ∧
                                  (roomy P ig.2 → pointInGrid P ig.2 p)) l ps).
Proof.
  revert pl. induction l as [|[i grid] l IH]; intros pl; simpl.
  - exists []. by rewrite app_nil_r.
  - intros x Hx y Hy. eapply post_mono; [|apply IH].
    intros pl' (ps & -> & Hps). exists (mkPoint x y i :: ps). split.
    + unfold push. by rewrite <- app_assoc.
    + constructor; [|done]. simpl. split; [done|].
      intros [Hw Hh]. unfold pointInGrid. simpl. lia.
Qed.

Lemma writes_const (t : TileType) (l : list Pt) b b' :
  foldl (λ ob q, b ← ob; setCell b q.1 q.2 t) (Some b) l = Some b' →
  (∀ q, q ∈ l → getCell b' q.1 q.2 = Some (Some t)) ∧
  (∀ x y, getCell b x y = Some (Some t) → getCell b' x y = Some (Some t)) ∧
  (type_ne0 t = true → ∀ x y, nonWallAt b x y → nonWallAt b' x y).
Proof.
  revert b'. induction l as [|a l IH] using rev_ind; intros b'; simpl.
  - intros [= <-]. split_and!; [by intros a ?%elem_of_nil|done|done].
  - rewrite foldl_app. simpl.
    destruct (foldl _ (Some b) l) as [b1|] eqn:E; [|done]. simpl. intros Hset.
    destruct (IH b1 eq_refl) as (IH1 & IH2 & IH3).
    pose proof (getCell_setCell _ _ _ _ _ a.1 a.2 Hset) as Ha.
    rewrite decide_True in Ha by done.
    assert (∀ x y, getCell b1 x y = Some (Some t) → getCell b' x y = Some (Some t)) as Hkeep.
    { intros x y Hxy. rewrite (getCell_setCell _ _ _ _ _ _ _ Hset).
      by destruct (decide _). }
    split_and!.
    + intros q [Hq|Hq]%elem_of_app; [by apply Hkeep, IH1|].
      by apply list_elem_of_singleton in Hq as ->.
    + intros x y Hxy. by apply Hkeep, IH2.
    + intros Ht x y Hxy. eapply setCell_nonWall; [exact Hset|done|]. by apply IH3.
Qed.

Lemma corridors_fold (cl : list Connection) b b' :
  foldl (λ ob connection,
           b ← ob;
           path ← connectionPath connection;
           foldl (λ ob point, b ← ob; setCell b point.1 point.2 TP) (Some b) path)
        (Some b) cl = Some b' →
  (∀ c, c ∈ cl → ∃ path, connectionPath c = Some path ∧
                         ∀ q, q ∈ path → getCell b' q.1 q.2 = Some (Some TP)) ∧
  (∀ x y, getCell b x y = Some (Some TP) → getCell b' x y = Some (Some TP)) ∧
  (∀ x y, nonWallAt b x y → nonWallAt b' x y).
Proof.
  revert b'. induction cl as [|c cl IH] using rev_ind; intros b'; simpl.
  - intros [= <-]. split_and!; [by intros c ?%elem_of_nil|done|done].
  - rewrite foldl_app. simpl.
    destruct (foldl _ (Some b) cl) as [b1|] eqn:E; [|done]. simpl.
    destruct (IH b1 eq_refl) as (IH1 & IH2 & IH3).
    destruct (connectionPath c) as [path|] eqn:Ec; [|done]. simpl. intros Hw.
    apply writes_const in Hw as (Hw1 & Hw2 & Hw3).
    split_and!.
    + intros c' [Hc'|Hc']%elem_of_app.
      * destruct (IH1 c' Hc') as (path' & Hp' & Hq'). exists path'. split; [done|].
        intros q Hq. by apply Hw2, Hq'.
      * apply list_elem_of_singleton in Hc' as ->. by exists path.
    + intros x y Hxy. by apply Hw2, IH2.
    + intros x y Hxy. by apply Hw3, IH3.
Qed.

Lemma connections_inner (chance : Z) (pl : list PointObj) (grid : GridObj)
    (adj : list GridObj) (cl : list Connection) :
  post (foldGen (λ cl adjacentGrid,
                   let connection :=
                     mkConnection (lookupZ pl (g_index grid))
                                  (lookupZ pl (g_index adjacentGrid)) in
                   roll ← draw 1 100;
                   if chance <? roll then Ret (push cl connection) else Ret cl) adj cl)
       (λ cl', ∃ cs, cl' = cl ++ cs ∧
                 sublist cs (connectionOf pl grid <$> adj) ∧
                 (chance < 1 → cs = connectionOf pl grid <$> adj) ∧
                 (100 ≤ chance → cs = [])).
Proof.
  revert cl. induction adj as [|a adj IH]; intros cl; simpl.
  - exists []. by rewrite app_nil_r.
  - intros roll Hroll. specialize (Hroll ltac:(lia)).
    destruct (chance <? roll) eqn:E.
    + eapply post_mono; [|apply IH]. intros cl' (cs & -> & Hsub & Hall & Hnone).
      exists (connectionOf pl grid a :: cs). split_and!.
      * unfold push. by rewrite <- app_assoc.
      * by apply sublist_skip.
      * intros Hc. by rewrite Hall.
      * lia.
    + eapply post_mono; [|apply IH]. intros cl' (cs & -> & Hsub & Hall & Hnone).
      exists cs. split_and!; [done|by apply sublist_cons|lia|done].
Qed.

Lemma connections_outer (chance : Z) (pl : list PointObj) (gl l : list GridObj)
    (cl : list Connection) :
  post (foldGen (λ cl grid,
                   foldGen (λ cl adjacentGrid,
                              let connection :=
                                mkConnection (lookupZ pl (g_index grid))
                                             (lookupZ pl (g_index adjacentGrid)) in
                              roll ← draw 1 100;
                              if chance <? roll then Ret (push cl connection) else Ret cl)
                           (getAdjacentGrids gl grid) cl) l cl)
       (λ cl', ∃ cs, cl' = cl ++ cs ∧
                 sublist cs (grid ← l; connectionOf pl grid <$> getAdjacentGrids gl grid) ∧
                 (chance < 1 →
                  cs = grid ← l; connectionOf pl grid <$> getAdjacentGrids gl grid) ∧
                 (100 ≤ chance → cs = [])).
Proof.
  revert cl. induction l as [|grid l IH]; intros cl; simpl.
  - exists []. by rewrite app_nil_r.
  - apply post_bind. eapply post_mono; [|apply connections_inner].
    intros cl1 (cs1 & -> & Hsub1 & Hall1 & Hnone1).
    eapply post_mono; [|apply IH]. intros cl2 (cs2 & -> & Hsub2 & Hall2 & Hnone2).
    exists (cs1 ++ cs2). split_and!.
    + by rewrite app_assoc.
    + by apply sublist_app.
    + intros Hc. by rewrite Hall1, Hall2.
    + intros Hc. by rewrite Hnone1, Hnone2.
Qed.

Lemma createPaths_post d :
  pointList d = [] → connectionList d = [] →
  post (createPaths d) (pathsLaid d).
Proof.
  intros Hpl Hcl. unfold createPaths. rewrite Hpl, Hcl.
  apply post_bind. eapply post_mono; [|apply points_fold].
  intros pl (ps & -> & Hps). rewrite app_nil_l.
  apply post_bind, post_must. intros b1 Hb1.
  apply (writes_nonWall (λ p, (p_x p, p_y p)) (λ p, TNum (p_gridIndex p + 1))) in Hb1
    as [Hmark Hkeep1].
  2: { intros p Hp. apply list_elem_of_lookup in Hp as [i Hi].
       destruct (Forall2_lookup_r _ _ _ _ _ Hps Hi) as ([k grid] & Hk & Hgi & _).
       rewrite indexed_lookup in Hk. destruct (gridList d !! i); [|done].
       injection Hk as <- <-. simpl in *. rewrite Hgi.
       apply negb_true_iff, Z.eqb_neq. lia. }
  apply post_bind. eapply post_mono; [|apply connections_outer].
  intros cl (cs & -> & Hsub & Hall & Hnone). rewrite app_nil_l.
  apply post_bind, post_must. intros b2 Hb2.
  apply corridors_fold in Hb2 as (Hcorr & _ & Hkeep2).
  simpl. unfold pathsLaid. simpl.
  pose proof (Forall2_length _ _ _ Hps) as Hlen.
  unfold indexed, upto in Hlen. rewrite length_zip_with, length_seqZ in Hlen.
  split_and!; [lia| |done|done|done|done|by auto].
  intros i grid Hg.
  assert (indexed (gridList d) !! i = Some (Z.of_nat i, grid)) as Hig
    by by rewrite indexed_lookup, Hg.
  destruct (Forall2_lookup_l _ _ _ _ _ Hps Hig) as (point & Hp & Hgi & Hin).
  exists point. split_and!; [done|done|done|].
  apply Hkeep2. apply (Hmark point). by eapply list_elem_of_lookup_2.
Qed.

(** ** Rooms and their marks on the board *)

(** ** Stamping a room *)

Lemma stampColumn_spec b x ys t b' :
  foldl (λ ob y, b ← ob; setCell b x y t) (Some b) ys = Some b' →
  ∀ x' y', getCell b' x' y'
           = if decide (x' = x ∧ y' ∈ ys) then Some (Some t) else getCell b x' y'.
Proof.
  revert b'. induction ys as [|y ys IH] using rev_ind; intros b'; simpl.
  - intros [= <-] x' y'. by destruct (decide _) as [[_ ?%elem_of_nil]|].
  - rewrite foldl_app. simpl.
    destruct (foldl _ (Some b) ys) as [b1|] eqn:E; [|done]. simpl. intros Hset x' y'.
    rewrite (getCell_setCell _ _ _ _ _ _ _ Hset), (IH b1 eq_refl).
    destruct (decide (x' = x ∧ y' = y)) as [[-> ->]|Hne].
    + rewrite decide_True; [done|]. split; [done|]. apply elem_of_app. right.
      by apply list_elem_of_singleton.
    + destruct (decide (x' = x ∧ y' ∈ ys)) as [[-> Hin]|Hout].
      * rewrite decide_True; [done|]. split; [done|]. apply elem_of_app. by left.
      * destruct (decide (x' = x ∧ y' ∈ ys ++ [y])) as [[-> Hin]|]; [|done].
        apply elem_of_app in Hin as [?|?%list_elem_of_singleton];
          [by destruct Hout|by destruct Hne].
Qed.

Lemma stampRows_spec b xs ys t b' :
  foldl (λ ob x, foldl (λ ob y, b ← ob; setCell b x y t) ob ys) (Some b) xs = Some b' →
  ∀ x' y', getCell b' x' y'
           = if decide (x' ∈ xs ∧ y' ∈ ys) then Some (Some t) else getCell b x' y'.
Proof.
  revert b'. induction xs as [|x xs IH] using rev_ind; intros b'; simpl.
  - by intros [= <-] x' y'.
  - rewrite foldl_app. simpl.
    destruct (foldl _ (Some b) xs) as [b1|] eqn:E.
    2: { intros H. exfalso. clear -H. induction ys as [|y ys IH]; [done|].
         simpl in H. auto. }
    intros Hcol x' y'.
    rewrite (stampColumn_spec _ _ _ _ _ Hcol), (IH b1 eq_refl).
    destruct (decide (x' = x ∧ y' ∈ ys)) as [[-> Hy]|Hne].
    + rewrite decide_True; [done|]. split; [|done]. apply elem_of_app. right.
      by apply list_elem_of_singleton.
    + destruct (decide (x' ∈ xs ∧ y' ∈ ys)) as [[Hx Hy]|Hout].
      * rewrite decide_True; [done|]. split; [|done]. apply elem_of_app. by left.
      * destruct (decide (x' ∈ xs ++ [x] ∧ y' ∈ ys)) as [[Hin Hy]|]; [|done].
        apply elem_of_app in Hin as [?|Hin]; [by destruct Hout|].
        apply list_elem_of_singleton in Hin as ->. by destruct Hne.
Qed.

(** The room drawn on the board: every cell of the rectangle holds the
    tile, and every other cell is as it was. *)
Lemma stampRoom_spec b c t b' :
  stampRoom b c t = Some b' →
  ∀ x y, getCell b' x y
         = if decide (inRect c x y) then Some (Some t) else getCell b x y.
Proof.
  unfold stampRoom. intros H x y. rewrite (stampRows_spec _ _ _ _ _ H).
  destruct (decide (inRect c x y)) as [Hin|Hout], (decide (_ ∧ _)) as [[Hx Hy]|Hn];
    try done; exfalso.
  - apply Hn. unfold upto. rewrite !elem_of_seqZ. unfold inRect in Hin. lia.
  - apply Hout. unfold upto in *. rewrite elem_of_seqZ in Hx, Hy. unfold inRect. lia.
Qed.

(** ** Carving corridors *)

Lemma carve_spec b p b' :
  carve b p = Some b' → carved b b'.
Proof.
  unfold carve. destruct (getCell b p.1 p.2) as [[tile|]|] eqn:Ec; simpl; try done.
  destruct (type_le0 tile) eqn:Et.
  - intros Hset x y. rewrite (getCell_setCell _ _ _ _ _ _ _ Hset).
    destruct (decide _) as [[-> ->]|]; [|by left]. right. by exists tile.
  - intros [= <-] x y. by left.
Qed.

Lemma carved_refl b : carved b b.
Proof. intros x y. by left. Qed.

Lemma carved_trans b1 b2 b3 : carved b1 b2 → carved b2 b3 → carved b1 b3.
Proof.
  intros H12 H23 x y. destruct (H23 x y) as [E23|(t & Ht & Hle & E23)].
  - rewrite E23. apply H12.
  - destruct (H12 x y) as [E12|(t' & Ht' & Hle' & E12)].
    + right. exists t. by rewrite <- E12.
    + rewrite E12 in Ht. injection Ht as <-. done.
Qed.

Lemma carved_nonWall b b' x y : carved b b' → nonWallAt b x y → nonWallAt b' x y.
Proof.
  intros Hc (t & Ht & Hne). destruct (Hc x y) as [E|(t' & _ & _ & E)].
  - exists t. by rewrite E.
  - by exists TP.
Qed.

Lemma carved_keeps b b' x y t :
  carved b b' → getCell b x y = Some (Some t) → type_le0 t = false →
  getCell b' x y = Some (Some t).
Proof.
  intros Hc Ht Hle. destruct (Hc x y) as [E|(t' & Ht' & Hle' & _)]; [congruence|].
  rewrite Ht in Ht'. injection Ht' as <-. congruence.
Qed.

Lemma addRandomPaths_carved d :
  always (addRandomPaths d)
         (λ d', carved (board d) (board d') ∧ d' = set_board (board d') d).
Proof.
  unfold addRandomPaths.
  apply always_bind_any. intros pathCount. apply always_bind_any. intros tiles.
  apply always_bind.
  eapply always_mono; [|apply (always_foldGen _ (carved (board d)))].
  - intros b Hb. simpl. done.
  - intros b _ _ Hb.
    do 4 (apply always_bind_any; intros ?).
    destruct (_ || _); [by simpl|].
    apply always_bind_any. intros path.
    destruct (foldl _ _ path) as [b'|] eqn:E; [|done]. simpl.
    eapply carved_trans; [exact Hb|].
    eapply (foldl_bind_inv (carved b)); [|apply carved_refl|exact E].
    intros b1 q b2 H1 H2. eapply carved_trans; [exact H1|]. by eapply carve_spec.
  - apply carved_refl.
Qed.

(** ** Rooms, points and corridors stay walkable *)

Lemma furnished_board d b' :
  (∀ x y, nonWallAt (board d) x y → nonWallAt b' x y) →
  furnished d → furnished (set_board b' d).
Proof.
  intros Hk (Hr & Hp & Hc). unfold furnished. simpl. split_and!.
  - intros room x y ??. by apply Hk, (Hr room).
  - intros point ?. by apply Hk, Hp.
  - intros c Hin. destruct (Hc c Hin) as (path & ? & Hq). exists path. split; [done|].
    intros q ?. by apply Hk, Hq.
Qed.

Lemma placeRoom_furnished d i grid :
  0 ≤ i → furnished d → always (placeRoom d i grid) furnished.
Proof.
  intros Hi Hd. unfold placeRoom. apply always_bind_any. intros touches.
  destruct (bool_decide _); [done|].
  apply always_bind_any. intros c. apply always_bind_any. intros [[c' vp] op].
  apply always_bind_any. intros diceRoll.
  destruct (_ <=? _); [|done].
  destruct (stampRoom (board d) c' (TNum (i + 1))) as [b'|] eqn:Es; [|done]. simpl.
  pose proof (stampRoom_spec _ _ _ _ Es) as Hspec.
  assert (type_ne0 (TNum (i + 1)) = true) as Ht by (apply negb_true_iff, Z.eqb_neq; lia).
  assert (∀ x y, nonWallAt (board d) x y → nonWallAt b' x y) as Hk.
  { intros x y (t & Hc & Hne). unfold nonWallAt. rewrite Hspec.
    destruct (decide _); eauto. }
  destruct (furnished_board d b' Hk Hd) as (Hr & Hp & Hc). simpl in *.
  split_and!; [|done|done]. simpl.
  intros room x y [Hin|Hin]%elem_of_app Hxy; [by eapply Hr|].
  apply list_elem_of_singleton in Hin as ->. unfold inRoom in Hxy. simpl in Hxy.
  exists (TNum (i + 1)). split; [|done]. rewrite Hspec. by rewrite decide_True.
Qed.

Lemma retypeCell_spec b p t b' :
  retypeCell b p t = Some b' →
  ∀ x y, getCell b' x y = if decide (x = p.1 ∧ y = p.2) then Some (Some t) else getCell b x y.
Proof.
  unfold retypeCell. destruct (getCell b p.1 p.2) as [[tile|]|]; simpl; try done.
  intros Hset x y. by rewrite (getCell_setCell _ _ _ _ _ _ _ Hset).
Qed.

Lemma elem_of_alter_inv {A} (f : A → A) (i : nat) (l : list A) (a : A) :
  a ∈ alter f i l → a ∈ l ∨ ∃ a', a' ∈ l ∧ a = f a'.
Proof.
  intros [k Hk]%list_elem_of_lookup. destruct (decide (k = i)) as [->|Hne].
  - rewrite list_lookup_alter_eq in Hk. destruct (l !! i) as [a'|] eqn:E; [|done].
    injection Hk as <-. right. exists a'. split; [|done]. by eapply list_elem_of_lookup_2.
  - rewrite list_lookup_alter_ne in Hk by done. left. by eapply list_elem_of_lookup_2.
Qed.

Lemma designateRooms_furnished d :
  always (designateRooms d) (λ d', (furnished d → furnished d') ∧ marked d').
Proof.
  unfold designateRooms.
  destruct (bool_decide (2 ≤ length (roomList d))%nat) eqn:E2.
  2: { apply bool_decide_eq_false in E2. simpl. split; [done|]. intros ?. lia. }
  apply always_bind_any. intros entryIndex.
  destruct (lookupZ _ _); [|done].
  do 8 (apply always_bind_any; intros ?).
  match goal with |- always (_ ← must (retypeCell _ ?p _); _) _ => set (entry := p) end.
  destruct (retypeCell (board d) entry TENTRY) as [b1|] eqn:E1; [|done].
  change (always (?m ≫= ?f) ?Q) with (always (f b1) Q). cbv beta.
  match goal with |- always (_ ← must (retypeCell _ ?p _); _) _ => set (exit := p) end.
  destruct (retypeCell b1 exit TEXIT) as [b2|] eqn:E2'; [|done].
  change (always (?m ≫= ?f) ?Q) with (always (f b2) Q). cbv beta.
  pose proof (retypeCell_spec _ _ _ _ E1) as H1.
  pose proof (retypeCell_spec _ _ _ _ E2') as H2.
  simpl. split.
  - intros (Hr & Hp & Hc).
    assert (∀ x y, nonWallAt (board d) x y → nonWallAt b2 x y) as Hk.
    { intros x y (t & Ht & Hne). unfold nonWallAt. rewrite H2, H1.
      destruct (decide _); [by eauto|]. destruct (decide _); eauto. }
    unfold furnished. simpl. split_and!.
    + intros room x y Hin Hxy. apply Hk.
      apply elem_of_alter_inv in Hin as [Hin|(room1 & Hin & ->)].
      * apply elem_of_alter_inv in Hin as [Hin|(room2 & Hin & ->)]; by eapply Hr.
      * apply elem_of_alter_inv in Hin as [Hin|(room2 & Hin & ->)]; by eapply Hr.
    + intros point ?. by apply Hk, Hp.
    + intros c Hin. destruct (Hc c Hin) as (path & ? & Hq). exists path. split; [done|].
      intros q ?. by apply Hk, Hq.
  - intros _. exists entry, exit. simpl. split_and!; [done| |].
    + rewrite H2. by rewrite decide_True.
    + intros Hne. rewrite H2, H1. rewrite decide_False.
      * by rewrite decide_True.
      * intros [??]. apply Hne. by apply injective_projections.
Qed.

Lemma indexed_elem {A} (l : list A) (i : Z) (a : A) : (i, a) ∈ indexed l → 0 ≤ i.
Proof.
  intros [k Hk]%list_elem_of_lookup. rewrite indexed_lookup in Hk.
  destruct (l !! k); [|done]. injection Hk as <- _. lia.
Qed.

Lemma createRooms_furnished d :
  furnished d → always (createRooms d) (λ d', furnished d' ∧ marked d').
Proof.
  intros Hd. unfold createRooms. apply always_bind.
  eapply always_mono; [|apply (always_foldGen _ furnished)].
  - intros d1 H1. eapply always_mono; [|apply designateRooms_furnished].
    intros d2 [H2 Hm]. split; [by apply H2|done].
  - intros d1 [i grid] Hin H1. simpl. apply placeRoom_furnished; [|done].
    by eapply indexed_elem.
  - done.
Qed.

Lemma pathsLaid_furnished d d' :
  roomList d' = [] → pathsLaid d d' → furnished d'.
Proof.
  intros Hnil (Hlen & Hpts & _ & _ & _ & Hcorr & _). unfold furnished. split_and!.
  - intros room x y Hin. rewrite Hnil in Hin. by apply elem_of_nil in Hin.
  - intros point [i Hi]%list_elem_of_lookup.
    pose proof (lookup_lt_Some _ _ _ Hi) as Hlt. rewrite Hlen in Hlt.
    destruct (lookup_lt_is_Some_2 _ _ Hlt) as [grid Hg].
    destruct (Hpts i grid Hg) as (point' & Hp' & _ & _ & Hnw).
    rewrite Hi in Hp'. by injection Hp' as <-.
  - intros c Hin. destruct (Hcorr c Hin) as (path & Hp & Hq). exists path.
    split; [done|]. intros q Hqin. exists TP. split; [by apply Hq|done].
Qed.

Lemma set_board_marked d b' :
  carved (board d) b' → marked d → marked (set_board b' d).
Proof.
  intros Hc Hm Hlen. destruct (Hm Hlen) as (entry & exit & Hsp & Hx & He).
  exists entry, exit. simpl. split_and!; [done| |].
  - by eapply carved_keeps.
  - intros Hne. eapply carved_keeps; [done|by apply He|done].
Qed.

Lemma layout_furnished d :
  post (layout d) (λ d', furnished d' ∧ marked d').
Proof.
  unfold layout. apply post_bind_any. intros n. apply post_bind_any. intros R.
  set (d1 := set_connectionList _ _).
  apply post_bind. eapply post_mono; [|by apply createPaths_post].
  intros d2 H2. apply post_bind.
  eapply post_mono; [|apply always_post, createRooms_furnished].
  2: { apply (pathsLaid_furnished d1); [done|exact H2]. }
  intros d3 [Hf3 Hm3].
  eapply post_mono; [|apply always_post, addRandomPaths_carved].
  intros d4 [Hc ->]. split.
  - apply furnished_board; [|done]. intros x y. by apply carved_nonWall.
  - by apply set_board_marked.
Qed.

Lemma regenerate_furnished fuel d :
  post (regenerate fuel d) (λ d', furnished d' ∧ marked d').
Proof.
  unfold regenerate. apply post_bind.
  eapply post_mono; [|apply layout_furnished].
  intros d1 H1. apply post_bind_any. intros v. simpl. exact H1.
Qed.

Lemma nonWallAt_isWalkable d x y :
  nonWallAt (board d) x y → inBounds (params d) x y → isWalkable d x y = WBool true.
Proof.
  intros (t & Ht & Hne) [Hx Hy]. unfold isWalkable, getTileAt.
  destruct ((x <? 0) || (colCount (params d) <=? x) || (y <? 0)
            || (rowCount (params d) <=? y)) eqn:E; [lia|].
  rewrite Ht. destruct t as [[| |]| | |]; done.
Qed.

(** X19. After a generation attempt, every tile of every room of [roomList],
    the tile of every point of [pointList] and every tile on the path of
    every connection of [connectionList] is walkable, where it lies on the
    board. *)
Theorem regenerate_walkable fuel d r d' r' :
  rng_ok r →
  run (regenerate fuel d) r = Ok d' r' →
  (∀ room x y, room ∈ roomList d' → inRoom room x y → inBounds (params d') x y →
     isWalkable d' x y = WBool true) ∧
  (∀ point, point ∈ pointList d' → inBounds (params d') (p_x point) (p_y point) →
     isWalkable d' (p_x point) (p_y point) = WBool true) ∧
  (∀ c, c ∈ connectionList d' →
     ∃ path, connectionPath c = Some path ∧
       ∀ q, q ∈ path → inBounds (params d') q.1 q.2 → isWalkable d' q.1 q.2 = WBool true).
Proof.
  intros Hr Hrun.
  destruct (post_run _ _ _ _ _ Hr (regenerate_furnished fuel d) Hrun)
    as [[(Hrooms & Hpts & Hconn) _] _].
  split_and!.
  - intros room x y Hin Hxy Hb. apply nonWallAt_isWalkable; [|done]. by eapply Hrooms.
  - intros point Hin Hb. apply nonWallAt_isWalkable; [|done]. by apply Hpts.
  - intros c Hin. destruct (Hconn c Hin) as (path & Hp & Hq). exists path.
    split; [done|]. intros q Hqin Hb. apply nonWallAt_isWalkable; [|done]. by apply Hq.
Qed.

(** X20. After a generation attempt that left two rooms or more, the entry and
    exit points are set; the tile at the exit point is of type [EXIT], and
    the tile at the entry point is of type [ENTRY] unless the exit point is
    the same tile. *)
Theorem regenerate_marks_entry_exit fuel d r d' r' :
  rng_ok r →
  run (regenerate fuel d) r = Ok d' r' →
  (2 ≤ length (roomList d'))%nat →
  ∃ entry exit,
    specialPoints d' = mkSpecial (Some entry) (Some exit) ∧
    getCell (board d') exit.1 exit.2 = Some (Some TEXIT) ∧
    (entry ≠ exit → getCell (board d') entry.1 entry.2 = Some (Some TENTRY)).
Proof.
  intros Hr Hrun Hlen.
  destruct (post_run _ _ _ _ _ Hr (regenerate_furnished fuel d) Hrun) as [[_ Hm] _].
  by apply Hm.
Qed.

(** ** The neighbours of a tile *)

Lemma lookupZ_None {A} (l : list A) (i : Z) :
  lookupZ l i = None ↔ i < 0 ∨ Z.of_nat (length l) ≤ i.
Proof.
  unfold lookupZ. destruct (decide (0 ≤ i)).
  - rewrite lookup_ge_None. lia.
  - split; [lia|done].
Qed.

Lemma getCell_None b x y :
  getCell b x y = None ↔ x < 0 ∨ Z.of_nat (length b) ≤ x.
Proof.
  unfold getCell. rewrite <- lookupZ_None. by destruct (lookupZ b x).
Qed.

Lemma adjacent_fold_Some b (qs : list Pt) (acc : list Pt) :
  (∀ q, q ∈ qs → getCell b q.1 q.2 ≠ None) →
  foldl (λ acc q,
           adjacentTiles ← acc;
           otile ← getCell b q.1 q.2;
           if notWall otile then Some (push adjacentTiles q) else Some adjacentTiles)
        (Some acc) qs
  = Some (acc ++ filter (λ q, passable b q = true) qs).
Proof.
  revert acc. induction qs as [|q qs IH]; intros acc Hqs; simpl.
  - by rewrite app_nil_r.
  - pose proof (Hqs q ltac:(left)) as Hq.
    destruct (getCell b q.1 q.2) as [otile|] eqn:E; [|done]. simpl.
    destruct (notWall otile) eqn:En; (rewrite IH; [|intros; apply Hqs; by right]).
    + rewrite filter_cons_True by (unfold passable; by rewrite E).
      unfold push. by rewrite <- app_assoc.
    + rewrite filter_cons_False; [done|]. unfold passable. rewrite E. congruence.
Qed.

Lemma adjacent_fold_None b (qs : list Pt) (acc : option (list Pt)) q :
  q ∈ qs → getCell b q.1 q.2 = None →
  foldl (λ acc q,
           adjacentTiles ← acc;
           otile ← getCell b q.1 q.2;
           if notWall otile then Some (push adjacentTiles q) else Some adjacentTiles)
        acc qs
  = None.
Proof.
  intros Hq Hc. revert acc. induction qs as [|q' qs IH]; intros acc; [by apply elem_of_nil in Hq|].
  simpl. apply elem_of_cons in Hq as [<-|Hq]; [|by apply IH].
  rewrite Hc. destruct acc; simpl; apply foldl_bind_None.
Qed.

Lemma getAdjacentTiles_inside b x y :
  1 ≤ x ∧ x + 1 < Z.of_nat (length b) →
  getAdjacentTiles b (x, y)
  = Some (filter (λ q, passable b q = true) (neighbours (x, y))).
Proof.
  intros Hx. unfold getAdjacentTiles. rewrite adjacent_fold_Some; [done|].
  intros q Hq. rewrite getCell_None. simpl in Hq. set_unfold in Hq.
  destruct Hq as [->|[->|[->|[->|[->|[->|[->|[->|[]]]]]]]]]; simpl; lia.
Qed.

Lemma getAdjacentTiles_outside b x y :
  x < 1 ∨ Z.of_nat (length b) ≤ x + 1 → getAdjacentTiles b (x, y) = None.
Proof.
  intros Hx. unfold getAdjacentTiles. destruct (decide (x < 1)).
  - apply (adjacent_fold_None b _ _ (x - 1, y)); [simpl; repeat constructor|].
    apply getCell_None. simpl. lia.
  - apply (adjacent_fold_None b _ _ (x + 1, y)); [simpl; repeat constructor|].
    apply getCell_None. simpl. lia.
Qed.

(** X25. [#getAdjacentTiles] throws on the first and on the last column of the
    board and outside of them, where one of the three columns it reads is
    missing; everywhere else it returns the neighbours, in the order of
    its loop, whose tile is not a wall, the positions above and below the
    board included, which hold no tile. *)
Theorem getAdjacentTiles_spec b x y :
  (getAdjacentTiles b (x, y) = None ↔ x < 1 ∨ Z.of_nat (length b) ≤ x + 1) ∧
  (1 ≤ x ∧ x + 1 < Z.of_nat (length b) →
   getAdjacentTiles b (x, y)
   = Some (filter (λ q, passable b q = true) (neighbours (x, y)))).
Proof.
  split; [|apply getAdjacentTiles_inside].
  destruct (decide (1 ≤ x ∧ x + 1 < Z.of_nat (length b))) as [Hx|Hx].
  - rewrite getAdjacentTiles_inside by done. split; [done|lia].
  - split; [intros _; lia|]. intros _. apply getAdjacentTiles_outside. lia.
Qed.

(** ** The flood fill *)

Lemma elem_of_delete_or {A} (l : list A) (i : nat) (a : A) :
  a ∈ l → l !! i = Some a ∨ a ∈ delete i l.
Proof.
  intros [k Hk]%list_elem_of_lookup. destruct (decide (k = i)) as [->|Hne]; [by left|].
  right. destruct (decide (k < i)%nat).
  - apply (list_elem_of_lookup_2 _ k). by rewrite list_lookup_delete_lt.
  - apply (list_elem_of_lookup_2 _ (k - 1)%nat). rewrite list_lookup_delete_ge by lia.
    by replace (S (k - 1)) with k by lia.
Qed.

Lemma elem_of_delete_inv {A} (l : list A) (i : nat) (a : A) : a ∈ delete i l → a ∈ l.
Proof.
  intros [k Hk]%list_elem_of_lookup. destruct (decide (k < i)%nat).
  - rewrite list_lookup_delete_lt in Hk by done. by eapply list_elem_of_lookup_2.
  - rewrite list_lookup_delete_ge in Hk by lia. by eapply list_elem_of_lookup_2.
Qed.

Lemma floodLoop_inv fuel b start uncheckedTiles idx checkedTiles S :
  floodInv b start uncheckedTiles checkedTiles →
  floodLoop fuel b uncheckedTiles idx checkedTiles = Filled S →
  floodInv b start [] S.
Proof.
  revert uncheckedTiles idx checkedTiles.
  induction fuel as [|fuel IH]; intros unchecked idx checked Hinv; simpl; [done|].
  destruct (unchecked !! idx) as [tile|] eqn:Et.
  - destruct (getAdjacentTiles b tile) as [adj|] eqn:Ea; [|done].
    apply IH. destruct Hinv as (Hs & Hc & Hr).
    assert (tile ∈ unchecked) as Htile by by eapply list_elem_of_lookup_2.
    split_and!.
    + destruct Hs as [Hs|Hs]; [left; apply elem_of_union; by right|].
      apply (elem_of_delete_or _ idx) in Hs as [Hs|Hs].
      * left. rewrite Et in Hs. injection Hs as ->. apply elem_of_union. left.
        by apply elem_of_singleton.
      * right. apply elem_of_app. by left.
    + intros q [Hq|Hq]%elem_of_union.
      * apply elem_of_singleton in Hq as ->. exists adj. split; [done|].
        intros q' Hq'. destruct (decide (q' ∈ {[tile]} ∪ checked)) as [Hin|Hout]; [by left|].
        right. apply elem_of_app. right. apply list_elem_of_filter. done.
      * destruct (Hc q Hq) as (adj' & Ha' & Hq').
        exists adj'. split; [done|]. intros q' Hin.
        destruct (Hq' q' Hin) as [H1|H1]; [left; apply elem_of_union; by right|].
        apply (elem_of_delete_or _ idx) in H1 as [H1|H1].
        -- left. rewrite Et in H1. injection H1 as ->. apply elem_of_union. left.
           by apply elem_of_singleton.
        -- right. apply elem_of_app. by left.
    + intros q [[Hq|Hq]%elem_of_union|[Hq|Hq]%elem_of_app].
      * apply elem_of_singleton in Hq as ->. apply Hr. by right.
      * apply Hr. by left.
      * apply Hr. right. by eapply elem_of_delete_inv.
      * apply list_elem_of_filter in Hq as [_ Hq].
        eapply reach_step; [|exact Ea|exact Hq]. apply Hr. by right.
  - destruct unchecked as [|t0 rest] eqn:Eu.
    + by intros [= <-].
    + by apply IH.
Qed.

Lemma floodInv_init b start : floodInv b start [start] ∅.
Proof.
  split_and!.
  - right. by left.
  - intros q Hq. by apply elem_of_empty in Hq.
  - intros q [Hq|Hq]; [by apply elem_of_empty in Hq|].
    apply list_elem_of_singleton in Hq as ->. constructor.
Qed.

Lemma floodInv_reach b start S q : floodInv b start [] S → reach b start q → q ∈ S.
Proof.
  intros (Hs & Hc & _). induction 1 as [|q adj q' _ IHq Ha Hq'].
  - destruct Hs as [?|Hs]; [done|by apply elem_of_nil in Hs].
  - destruct (Hc q IHq) as (adj' & Ha' & Hclosed).
    rewrite Ha in Ha'. injection Ha' as <-.
    destruct (Hclosed q' Hq') as [?|Hn]; [done|by apply elem_of_nil in Hn].
Qed.


(** ** The flood fill and the border of the board *)

Lemma boardExactb_spec n m b : boardExactb n m b = true → boardExact n m b.
Proof.
  unfold boardExactb, boardExact. intros [Hlen Hcols]%andb_true_iff.
  apply bool_decide_eq_true in Hlen. split; [done|].
  intros col y Hcol Hy. rewrite forallb_forall in Hcols.
  apply list_elem_of_In, Hcols in Hcol. rewrite forallb_forall in Hcol.
  destruct (cells col !! y) as [t|] eqn:E; [|done].
  apply elem_of_map_to_list, list_elem_of_In, Hcol in E. simpl in E. lia.
Qed.

Lemma passable_outside n m b x y :
  boardExact n m b → 0 ≤ x < n → y < 0 ∨ m ≤ y → passable b (x, y) = true.
Proof.
  intros [Hlen Hcols] Hx Hy. unfold passable, getCell, lookupZ. simpl.
  destruct (decide (0 ≤ x)); [|lia].
  destruct (b !! Z.to_nat x) as [col|] eqn:E.
  - simpl. rewrite (Hcols col y); [done| |done]. by eapply list_elem_of_lookup_2.
  - apply lookup_ge_None in E. lia.
Qed.

Section Border.
Context (n m : Z) (b : Board) (start : Pt) (S : gset Pt).
Hypothesis Hexact : boardExact n m b.
Hypothesis Hinv : floodInv b start [] S.

Local Lemma checked_columns q : q ∈ S → 1 ≤ q.1 ∧ q.1 + 1 < n.
Proof.
  destruct Hinv as (_ & Hc & _). intros Hq. destruct (Hc q Hq) as (adj & Ha & _).
  destruct q as [x y]. simpl. destruct Hexact as [<- _].
  destruct (decide (1 ≤ x ∧ x + 1 < Z.of_nat (length b))) as [|Hx]; [done|].
  rewrite getAdjacentTiles_outside in Ha by lia. done.
Qed.

Local Lemma checked_closed q q' :
  q ∈ S → q' ∈ neighbours q → passable b q' = true → q' ∈ S.
Proof.
  intros Hq Hn Hp. pose proof (checked_columns q Hq) as Hx.
  destruct Hinv as (_ & Hc & _). destruct (Hc q Hq) as (adj & Ha & Hclosed).
  destruct q as [x y]. destruct Hexact as [Hlen _].
  rewrite getAdjacentTiles_inside in Ha by (simpl in Hx; lia). injection Ha as <-.
  destruct (Hclosed q') as [?|Hnil]; [|done|by apply elem_of_nil in Hnil].
  by apply list_elem_of_filter.
Qed.

Local Lemma checked_rows_in (k : nat) x y :
  (x, y) ∈ S → y < 0 ∨ m ≤ y → x ≤ Z.of_nat k → False.
Proof.
  revert x y. induction k as [|k IH]; intros x y Hq Hy Hk.
  - apply checked_columns in Hq. simpl in Hq. lia.
  - pose proof (checked_columns _ Hq) as Hx. simpl in Hx.
    destruct Hy as [Hy|Hy].
    + apply (IH (x - 1) (y - 1)); [|lia|lia].
      apply (checked_closed (x, y)); [done|simpl; repeat constructor|].
      eapply passable_outside; [done|lia|lia].
    + apply (IH (x - 1) (y + 1)); [|lia|lia].
      apply (checked_closed (x, y)); [done|simpl; repeat constructor|].
      eapply passable_outside; [done|lia|lia].
Qed.

Lemma checked_inside q : q ∈ S → 0 < q.1 < n - 1 ∧ 0 < q.2 < m - 1.
Proof.
  intros Hq. pose proof (checked_columns q Hq) as Hx. split; [lia|].
  destruct q as [x y]. simpl in *.
  assert (∀ y', (x, y') ∈ S → 0 ≤ y' < m) as Hrows.
  { intros y' Hq'. destruct (decide (0 ≤ y' < m)) as [|Hy]; [done|]. exfalso.
    apply (checked_rows_in (Z.to_nat x) x y' Hq'); lia. }
  pose proof (Hrows y Hq) as Hy.
  destruct (decide (y = 0)) as [->|Hy0].
  { assert ((x, 0 - 1) ∈ S) as Hup.
    { apply (checked_closed (x, 0)); [done|simpl; repeat constructor|].
      eapply passable_outside; [done|lia|lia]. }
    apply Hrows in Hup. lia. }
  destruct (decide (y = m - 1)) as [->|Hy1]; [|lia].
  assert ((x, m - 1 + 1) ∈ S) as Hdown.
  { apply (checked_closed (x, m - 1)); [done|simpl; repeat constructor|].
    eapply passable_outside; [done|lia|lia]. }
  apply Hrows in Hdown. lia.
Qed.
End Border.

(** ** Extra paths on a board without corridors *)

Lemma run_draw lo hi r : run (draw lo hi) r = Ok (randomInt lo hi r).1 (randomInt lo hi r).2.
Proof. unfold draw. simpl. by destruct (randomInt lo hi r). Qed.

Lemma run_throws_bind {A B} (m : Gen A) (f : A → Gen B) r :
  run m r = TypeError → run (m ≫= f) r = TypeError.
Proof. intros H. by rewrite run_bind, H. Qed.

Lemma lookupZ_nil {A} (i : Z) : lookupZ (@nil A) i = None.
Proof. unfold lookupZ. by destruct (decide _). Qed.

Lemma run_addRandomPaths_empty d r :
  pathableTiles (board d) = Some [] →
  1 ≤ (randomInt 0 (randomPathMax (params d)) r).1 →
  run (addRandomPaths d) r = TypeError.
Proof.
  intros Htiles Hcount. unfold addRandomPaths.
  rewrite run_bind, run_draw.
  set (pathCount := (randomInt 0 (randomPathMax (params d)) r).1) in *.
  set (r1 := (randomInt 0 (randomPathMax (params d)) r).2).
  rewrite Htiles. rewrite run_bind. cbn [must run].
  apply run_throws_bind.
  unfold upto. rewrite seqZ_cons by lia. cbn [foldGen].
  apply run_throws_bind.
  rewrite run_bind, run_draw. rewrite run_bind, run_draw.
  by rewrite run_bind, lookupZ_nil.
Qed.

Lemma run_addRandomPaths_none d r :
  pathableTiles (board d) = Some [] →
  (randomInt 0 (randomPathMax (params d)) r).1 < 1 →
  run (addRandomPaths d) r = Ok d (randomInt 0 (randomPathMax (params d)) r).2.
Proof.
  intros Htiles Hcount. unfold addRandomPaths.
  rewrite run_bind, run_draw.
  set (pathCount := (randomInt 0 (randomPathMax (params d)) r).1) in *.
  set (r1 := (randomInt 0 (randomPathMax (params d)) r).2).
  rewrite Htiles. rewrite run_bind. cbn [must run].
  unfold upto. rewrite seqZ_nil by lia. cbn [foldGen].
  rewrite run_bind. cbn [run mret gen_ret]. simpl. by destruct d.
Qed.

(** X23. With no corridor tile on the board, a positive number of extra paths
    makes [#addRandomPaths] throw, the start of the first path being
    [undefined]; with no extra path the dungeon is left as it is. *)
Theorem addRandomPaths_throws d r :
  pathableTiles (board d) = Some [] →
  let pathCount := (randomInt 0 (randomPathMax (params d)) r).1 in
  run (addRandomPaths d) r
  = if 1 <=? pathCount then TypeError
    else Ok d (randomInt 0 (randomPathMax (params d)) r).2.
Proof.
  intros Htiles pathCount. destruct (1 <=? pathCount) eqn:E.
  - apply run_addRandomPaths_empty; [done|]. fold pathCount. lia.
  - apply run_addRandomPaths_none; [done|]. fold pathCount. lia.
Qed.

Lemma addRandomPaths_throws_witness :
  pathableTiles (board blankDungeon) = Some [] ∧
  run (addRandomPaths blankDungeon) seed42 = TypeError.
Proof.
  assert (pathableTiles (board blankDungeon) = Some []) as H1 by (vm_compute; reflexivity).
  split; [exact H1|].
  exact (addRandomPaths_throws blankDungeon seed42 H1).
Defined.

(** ** No room asked for *)

Lemma createGrid_empty d :
  roomCount d ≤ 0 → gridList (createGrid (set_gridList [] d)) = [].
Proof.
  intros HR. unfold createGrid. cbn [roomCount gridList params set_gridList].
  destruct (roomCount d `rem` 2 =? 0) eqn:E2; cbn [gridList set_gridList].
  - unfold upto.
    rewrite (seqZ_nil 0 (roomCount d `div` 2 - 0)); [done|].
    pose proof (Z.div_le_upper_bound (roomCount d) 2 0 ltac:(lia) ltac:(lia)). lia.
  - unfold upto. apply Z.eqb_neq in E2.
    assert (roomCount d ≠ 0) by (intros E; by rewrite E in E2).
    rewrite (seqZ_nil 0 ((roomCount d + 2) `div` 3 - 0)); [done|].
    assert ((roomCount d + 2) `div` 3 < 1); [|lia].
    apply Z.div_lt_upper_bound; lia.
Qed.

Lemma newColumn_lookup rowCount y :
  0 ≤ y < rowCount → cells (newColumn rowCount) !! y = Some (TNum 0).
Proof.
  intros Hy. unfold newColumn. simpl. apply elem_of_list_to_map_1.
  - rewrite <- list_fmap_compose. simpl. rewrite list_fmap_id. apply NoDup_seqZ.
  - apply list_elem_of_fmap. exists y. split; [done|]. apply elem_of_seqZ. lia.
Qed.

Lemma pathableTiles_newBoard colCount rowCount :
  pathableTiles (newBoard colCount rowCount) = Some [].
Proof.
  unfold pathableTiles.
  assert (∀ (l : list (Z * Column)) (acc : list Pt),
            (∀ xc, xc ∈ l → xc.2 = newColumn rowCount) →
            foldl (λ acc xc,
                     foldl (λ acc y,
                              l ← acc;
                              tile ← cells xc.2 !! y;
                              if decide (tile = TP) then Some (push l (xc.1, y)) else Some l)
                           acc (upto 0 (len xc.2)))
                  (Some acc) l = Some acc) as H.
  { induction l as [|xc l IH]; intros acc Hl; [done|]. cbn [foldl].
    rewrite (Hl xc) by left.
    assert (∀ ys, (∀ y, y ∈ ys → 0 ≤ y < rowCount) →
              foldl (λ acc y,
                       l ← acc;
                       tile ← cells (newColumn rowCount) !! y;
                       if decide (tile = TP) then Some (push l (xc.1, y)) else Some l)
                    (Some acc) ys = Some acc) as Hin.
    { induction ys as [|y ys IHy]; intros Hys; [done|]. cbn [foldl mbind option_bind].
      rewrite newColumn_lookup by (apply Hys; left). cbn [mbind option_bind].
      rewrite decide_False by done.
      apply IHy. intros; apply Hys; by right. }
    rewrite Hin.
    - apply IH. intros; apply Hl; by right.
    - intros y Hy. unfold upto in Hy. apply elem_of_seqZ in Hy. simpl in Hy. lia. }
  apply H. intros [x c] Hxc. simpl.
  apply list_elem_of_lookup in Hxc as [i Hi]. rewrite indexed_lookup in Hi.
  destruct (newBoard colCount rowCount !! i) as [c'|] eqn:E; [|done].
  injection Hi as _ <-. unfold newBoard in E. by apply lookup_replicate in E as [-> _].
Qed.

Lemma layout_without_rooms d r :
  rng_ok r →
  roomCountMin (params d) ≤ roomCountMax (params d) ≤ 0 →
  run (layout d) r = TypeError ∨
  ∃ d1 r1, run (layout d) r = Ok d1 r1 ∧ pointList d1 = [].
Proof.
  intros Hr Hcount. unfold layout.
  rewrite run_bind, run_draw.
  pose proof (randomInt_range r _ _ Hr (proj1 Hcount)) as Hn.
  set (n := (randomInt _ _ r).1) in *. set (r1 := (randomInt _ _ r).2) in *.
  rewrite run_bind. unfold adjusted.
  destruct (adjustRoomCount_total n) as (R & -> & Hdiv & Hle & Hleast).
  cbn [run].
  assert (R ≤ 0) as HR.
  { destruct (decide (R ≤ 0)) as [|HR]; [done|]. destruct (Hleast 0); [lia|done]. }
  set (d0 := set_roomCount R _).
  pose proof (createGrid_empty d0 HR) as Hgl.
  set (d1 := set_connectionList _ _).
  assert (gridList d1 = []) as Hgl1 by done.
  assert (board d1 = newBoard (colCount (params d)) (rowCount (params d))) as Hb.
  { unfold d1, d0, createGrid. simpl. by destruct (_ =? _). }
  assert (createPaths d1 = Ret d1) as ->.
  { unfold createPaths. rewrite Hgl1. unfold d1. simpl. by destruct (createGrid _). }
  rewrite run_bind. cbn [run].
  set (d2 := set_roomList [] d1).
  assert (createRooms d2 = Ret d2) as ->.
  { unfold createRooms. replace (gridList d2) with (@nil GridObj) by done. done. }
  rewrite run_bind. cbn [run].
  assert (pathableTiles (board d2) = Some []) as Htiles.
  { replace (board d2) with (board d1) by done. rewrite Hb. apply pathableTiles_newBoard. }
  destruct (decide (1 ≤ (randomInt 0 (randomPathMax (params d2)) r1).1)) as [Hc|Hc].
  - left. by apply run_addRandomPaths_empty.
  - right. rewrite run_addRandomPaths_none; [|done|lia]. by eexists _, _.
Qed.

Lemma regenerate_without_rooms fuel d r :
  rng_ok r →
  roomCountMin (params d) ≤ roomCountMax (params d) ≤ 0 →
  run (regenerate fuel d) r = TypeError.
Proof.
  intros Hr Hcount. unfold regenerate. rewrite run_bind.
  destruct (layout_without_rooms d r Hr Hcount) as [->|(d1 & r1 & -> & Hp)]; [done|].
  rewrite run_bind. unfold validateDungeon. rewrite run_bind, run_draw.
  rewrite run_bind. by rewrite Hp, lookupZ_nil.
Qed.

(** X24. A configuration that asks for no room, or for a negative number of
    rooms, cannot be built: with no grid there is no point for the
    validator to start from, and the constructor throws. *)
Theorem construct_without_rooms fuel config entropy :
  rng_ok (mkRng (o_seed config) entropy 0) →
  o_roomCountMin config ≤ o_roomCountMax config ≤ 0 →
  newDungeon fuel config entropy = TypeError.
Proof.
  intros Hr Hcount. unfold newDungeon, construct.
  rewrite run_bind, run_draw.
  pose proof (randomInt_ok _ (o_roomCountMin config) (o_roomCountMax config) Hr) as Hr1.
  set (n := (randomInt _ _ _).1). set (r1 := (randomInt _ _ _).2) in *.
  rewrite run_bind. unfold adjusted.
  destruct (adjustRoomCount_total n) as (R & -> & _). cbn [run].
  rewrite run_bind. cbn [firstAttempts instance validDungeon].
  rewrite run_bind. by rewrite regenerate_without_rooms.
Qed.

Lemma construct_without_rooms_witness :
  rng_ok seed42 ∧
  newDungeon 5000 (mkOptions 20 20 0 0 3 3 7 7 10 20 2 (Some 42)) (λ _, 0) = TypeError.
Proof.
  assert (rng_ok seed42) as Hr by (unfold rng_ok, seed42; simpl; lia).
  split; [exact Hr|].
  apply (construct_without_rooms 5000 (mkOptions 20 20 0 0 3 3 7 7 10 20 2 (Some 42)));
    [exact Hr|simpl; lia].
Defined.

(** ** Grids without a connection *)

Lemma placeRoom_skips d i grid :
  Forall (λ c, connectionTouches grid c = Some false) (connectionList d) →
  placeRoom d i grid = Ret d.
Proof.
  intros Hc. unfold placeRoom.
  assert (mapM (connectionTouches grid) (connectionList d)
          = Some (replicate (length (connectionList d)) false)) as ->.
  { induction Hc as [|c cl Hc _ IH]; [done|]. simpl. rewrite Hc. simpl. by rewrite IH. }
  cbn [must mbind gen_bind gbind].
  rewrite bool_decide_eq_true_2; [done|].
  induction (length (connectionList d)) as [|k IH]; [done|]. simpl.
  by rewrite filter_cons_False.
Qed.

Lemma createRooms_skips d :
  connectionList d = [] → (length (roomList d) < 2)%nat → createRooms d = Ret d.
Proof.
  intros Hcl Hlen. unfold createRooms.
  assert (∀ l, foldGen (λ d ig, placeRoom d ig.1 ig.2) l d = Ret d) as ->.
  { induction l as [|[i grid] l IH]; [done|]. simpl.
    rewrite placeRoom_skips by (rewrite Hcl; constructor). exact IH. }
  cbn [mbind gen_bind gbind]. unfold designateRooms.
  by rewrite bool_decide_eq_false_2 by lia.
Qed.

Lemma layout_lossy d :
  post (layout d)
       (λ d', 100 ≤ pointLossChance d →
              roomList d' = [] ∧ connectionList d' = [] ∧
              specialPoints d' = specialPoints d).
Proof.
  unfold layout. apply post_bind_any. intros n. apply post_bind_any. intros R.
  set (d1 := set_connectionList _ _).
  assert (pointLossChance d1 = pointLossChance d ∧ specialPoints d1 = specialPoints d)
    as [Hp1 Hs1].
  { unfold d1, createGrid. simpl. by destruct (_ =? _). }
  apply post_bind.
  eapply post_mono;
    [|apply post_and; [by apply createPaths_post|apply createPaths_frame]].
  intros d2 [(_ & _ & _ & _ & Hnone & _) (_ & _ & Hs2 & _)].
  destruct (decide (100 ≤ pointLossChance d)) as [Hc|Hc].
  2: { apply post_bind_any. intros d3. eapply post_mono; [|apply addRandomPaths_frame].
       intros d4 _ ?. lia. }
  rewrite createRooms_skips; [|simpl; apply Hnone; lia|simpl; lia].
  cbn [mbind gen_bind gbind].
  eapply post_mono; [|apply always_post, addRandomPaths_carved].
  intros d4 [_ ->] _. simpl. split_and!; [done|apply Hnone; lia|congruence].
Qed.

(** X21. When every connection is lost, with [pointLossChance] at 100 or more,
    a generation attempt for one room or more places no room, leaves
    [specialPoints] as it was and does not make the dungeon valid. *)
Theorem regenerate_lossy fuel d r d' r' :
  rng_ok r →
  100 ≤ pointLossChance d →
  1 ≤ roomCountMin (params d) ≤ roomCountMax (params d) →
  run (regenerate fuel d) r = Ok d' r' →
  connectionList d' = [] ∧ roomList d' = [] ∧
  specialPoints d' = specialPoints d ∧ validDungeon d' = false.
Proof.
  intros Hr Hc Hcount Hrun. unfold regenerate in Hrun.
  apply run_bind_Ok in Hrun as (d1 & r1 & Hlay & Hrun).
  apply run_bind_Ok in Hrun as (v & r2 & Hval & Hrun).
  injection Hrun as <- <-.
  destruct (post_run _ _ _ _ _ Hr (layout_lossy d) Hlay) as [H1 _].
  destruct (H1 Hc) as (Hrooms & Hconn & Hsp).
  destruct (post_run _ _ _ _ _ Hr (layout_gridCount d) Hlay) as [[HP Hg] _].
  simpl. split_and!; [done..|].
  destruct v; [|done].
  pose proof (always_run _ _ _ _ _ (validateDungeon_rooms fuel d1) Hval eq_refl) as He.
  unfold enoughRooms in He. rewrite Hrooms in He. simpl in He.
  unfold gridsForRooms in Hg. rewrite HP in Hg. lia.
Qed.

(** ** Rooms on their points *)

Lemma scanColumn_no_point P b grid x ys st st' :
  scanColumn P b grid None x ys st = Some st' → st'.2 = st.2.
Proof.
  revert st. induction ys as [|y ys IH]; intros st; simpl.
  - by intros [= <-].
  - destruct (_ || _); [by intros [= <-]|].
    destruct (getCell b x y) as [[tile|]|]; simpl; try done.
    destruct (type_gt0 tile); [by intros [= <-]|].
    destruct (_ || _); [by intros [= <-]|done].
Qed.

Lemma scanCandidate_no_point P b grid c st :
  scanCandidate P b grid None c = Some st → st.2 = false.
Proof.
  unfold scanCandidate. intros H.
  change false with ((true, false).2).
  eapply (foldl_bind_inv (λ st, st.2 = (true, false).2)); [|done|exact H].
  intros s x s' Hs Hcol. apply scanColumn_no_point in Hcol. congruence.
Qed.

Lemma placementLoop_flags n P b grid point c :
  always (placementLoop n P b grid point c)
         (λ res, (res.1.2 = true ∧ res.2 = true ∧
                  scanCandidate P b grid point res.1.1 = Some (true, true)) ∨
                 (res.1.2 = false ∧ res.2 = false)).
Proof.
  revert c. induction n as [|n IH]; intros c; cbn [placementLoop].
  { simpl. by right. }
  destruct (scanCandidate P b grid point c) as [[vp op]|] eqn:E; [|done].
  change (always (?m ≫= ?f) ?Q) with (always (f (vp, op)) Q). cbv beta. cbn [fst snd].
  destruct vp, op; cbn [negb orb];
    try (apply always_bind_any; intros c'; by apply IH).
  simpl. by left.
Qed.

Lemma scan_accepted P b grid point c :
  boardShaped P b →
  scanCandidate P b grid point c = Some (true, true) →
  ∃ pt, point = Some pt ∧ inRect c (p_x pt) (p_y pt) ∧
        ∀ x y, inRect c x y → inBounds P x y ∧ ¬ onGridBorder grid x y.
Proof.
  intros Hb Hscan. destruct point as [pt|].
  2: { by apply scanCandidate_no_point in Hscan. }
  exists pt. split; [done|]. unfold scanCandidate in Hscan.
  destruct (scanRows_spec P b grid pt Hb
              (upto (roomX c) (roomX c + roomWidth c))
              (upto (roomY c) (roomY c + roomHeight c)) (true, false))
    as (st' & Hst' & Hvalid & Hon).
  rewrite Hscan in Hst'. injection Hst' as <-. simpl in *.
  destruct Hvalid as [Hvalid _]. destruct (Hvalid eq_refl) as [_ Hcells].
  destruct (Hon eq_refl) as [Hon' _]. destruct (Hon' eq_refl) as [|[Hx Hy]]; [done|].
  unfold upto in *. rewrite elem_of_seqZ in Hx, Hy. split.
  - unfold inRect. lia.
  - intros x y [Hxr Hyr].
    destruct (Hcells x y) as (Hin & _ & Hborder); [apply elem_of_seqZ; lia..|done].
Qed.

Lemma placeRoom_checked d i grid :
  shaped d → lookupZ (gridList d) i = Some grid →
  always (placeRoom d i grid)
         (λ d', roomList d' = roomList d ∨
                ∃ room, roomList d' = push (roomList d) room ∧
                        checkedRoom (params d) (gridList d) (pointList d) room).
Proof.
  intros Hd Hg. unfold placeRoom. apply always_bind_any. intros touches.
  destruct (bool_decide _); [by left|].
  apply always_bind_any. intros c0. apply always_bind.
  eapply always_mono; [|apply placementLoop_flags].
  intros [[c vp] op] Hflags. simpl in Hflags.
  apply always_bind_any. intros diceRoll.
  destruct (_ <=? _); [|by left].
  apply always_bind_any. intros b. simpl. right. eexists. split; [done|].
  unfold checkedRoom. simpl. intros ->.
  destruct Hflags as [(_ & _ & Hscan)|[_ ?]]; [|done].
  destruct (scan_accepted _ _ _ _ _ Hd Hscan) as (pt & Hpt & Hin & Hcells).
  exists grid, pt. split_and!; [done|done|exact Hin|]. intros x y Hxy. by apply Hcells.
Qed.

Lemma checkedRoom_with_type P gl pl t room :
  checkedRoom P gl pl room → checkedRoom P gl pl (with_type t room).
Proof. done. Qed.

Lemma indexed_lookupZ {A} (l : list A) (i : Z) (a : A) :
  (i, a) ∈ indexed l → lookupZ l i = Some a.
Proof.
  intros [k Hk]%list_elem_of_lookup. rewrite indexed_lookup in Hk.
  destruct (l !! k) eqn:E; [|done]. injection Hk as <- <-.
  unfold lookupZ. destruct (decide _); [|lia]. by rewrite Nat2Z.id.
Qed.

Lemma placeRoom_pointList d i grid :
  always (placeRoom d i grid) (λ d', pointList d' = pointList d).
Proof.
  unfold placeRoom. apply always_bind_any. intros touches.
  destruct (bool_decide _); [done|].
  apply always_bind_any. intros c. apply always_bind_any. intros [[c' vp] op].
  apply always_bind_any. intros diceRoll.
  destruct (_ <=? _); [|done]. apply always_bind_any. intros b. done.
Qed.

Lemma post_and3 {A} (p : Gen A) (Q1 Q2 Q3 : A → Prop) :
  post p Q1 → post p Q2 → post p Q3 → post p (λ a, Q1 a ∧ Q2 a ∧ Q3 a).
Proof. intros. apply post_and; [done|]. by apply post_and. Qed.

Lemma designateRooms_pointList d :
  always (designateRooms d) (λ d', pointList d' = pointList d).
Proof.
  unfold designateRooms. destruct (bool_decide _); [|done].
  apply always_bind_any. intros entryIndex.
  destruct (lookupZ _ _); [|done].
  repeat (apply always_bind_any; intros ?). done.
Qed.

Lemma createRooms_checked d :
  shaped d →
  post (createRooms d)
       (λ d', kept d d' ∧ pointList d' = pointList d ∧
              (Forall (checkedRoom (params d) (gridList d) (pointList d)) (roomList d) →
               Forall (checkedRoom (params d) (gridList d) (pointList d)) (roomList d'))).
Proof.
  intros Hd. unfold createRooms. apply post_bind.
  set (I := λ d' : Dungeon,
         (params d' = params d ∧ shaped d') ∧ kept d d' ∧ pointList d' = pointList d ∧
         (Forall (checkedRoom (params d) (gridList d) (pointList d)) (roomList d) →
          Forall (checkedRoom (params d) (gridList d) (pointList d)) (roomList d'))).
  eapply post_mono; [|apply (post_foldGen _ I)].
  - intros d1 ((_ & Hs1) & Hk1 & Hp1 & Hr1).
    eapply post_mono;
      [|apply (post_and3 _ (kept d1) (λ d', pointList d' = pointList d1)
                 (λ d', Forall (checkedRoom (params d) (gridList d) (pointList d))
                               (roomList d) →
                        Forall (checkedRoom (params d) (gridList d) (pointList d))
                               (roomList d')));
         [apply always_post, designateRooms_kept
         |apply always_post, designateRooms_pointList
         |]].
    { intros d2 (Hk2 & Hp2 & Hr2). split_and!; [by eapply kept_trans|congruence|exact Hr2]. }
    unfold designateRooms. destruct (bool_decide _); [|by simpl].
    apply post_bind_any. intros entryIndex.
    destruct (lookupZ _ _); [|done].
    do 10 (apply post_bind_any; intros ?).
    simpl. intros H0. specialize (Hr1 H0).
    rewrite Forall_forall in Hr1. apply Forall_forall. intros room Hin.
    apply elem_of_alter_inv in Hin as [Hin|(room1 & Hin & ->)];
      [|apply checkedRoom_with_type];
      (apply elem_of_alter_inv in Hin as [Hin|(room2 & Hin & ->)];
       [|apply checkedRoom_with_type]); by apply Hr1.
  - intros d1 [i grid] Hin ((HP1 & Hs1) & Hk1 & Hp1 & Hr1). simpl.
    apply indexed_lookupZ in Hin.
    pose proof Hk1 as (HP1' & _ & _ & Hg1).
    eapply post_mono;
      [|apply post_and3;
         [by apply placeRoom_shaped
         |apply always_post, placeRoom_kept
         |apply post_and;
            [apply always_post, placeRoom_pointList
            |apply always_post, (placeRoom_checked d1 i grid Hs1); by rewrite Hg1]]].
    intros d2 ((HP2 & Hs2) & Hk2 & Hp2 & Hr2). unfold I. split_and!.
    + congruence.
    + done.
    + by eapply kept_trans.
    + congruence.
    + intros H0. specialize (Hr1 H0). destruct Hr2 as [->|(room & -> & Hroom)]; [done|].
      apply Forall_app. split; [done|]. apply Forall_singleton.
      by rewrite <- HP1', <- Hg1, <- Hp1.
  - unfold I. split_and!; try done.
Qed.

Lemma createGrid_indices d (i : Z) grid :
  (roomCount d `rem` 2 = 0 ∨ roomCount d `rem` 3 = 0) →
  lookupZ (gridList (createGrid (set_gridList [] d))) i = Some grid → g_index grid = i.
Proof.
  intros Hdiv. destruct (decide (0 ≤ roomCount d)) as [HR|HR].
  - unfold lookupZ. destruct (decide (0 ≤ i)); [|done]. intros Hg.
    apply createGrid_lookup in Hg as [_ ->]; [|done..].
    unfold gridAt. destruct (_ =? _); simpl; lia.
  - rewrite createGrid_empty by lia. by rewrite lookupZ_nil.
Qed.

Lemma head_filter_lookup (pl : list PointObj) (i : Z) point :
  (∀ (k : nat) p, pl !! k = Some p → p_gridIndex p = Z.of_nat k) →
  head (filter (λ p, p_gridIndex p = i) pl) = Some point →
  lookupZ pl i = Some point.
Proof.
  intros Hidx Hhead. apply head_Some_elem_of, list_elem_of_filter in Hhead as [Hi Hin].
  apply list_elem_of_lookup in Hin as [k Hk]. rewrite (Hidx k point Hk) in Hi. subst i.
  unfold lookupZ. destruct (decide _); [|lia]. by rewrite Nat2Z.id.
Qed.

Lemma covered_inGrid P grid room point :
  1 ≤ minRoomSizeX P → 1 ≤ minRoomSizeY P →
  pointInGrid P grid point →
  inRoom room (p_x point) (p_y point) →
  (∀ x y, inRoom room x y → ¬ onGridBorder grid x y) →
  inGrid grid room.
Proof.
  intros Hmx Hmy [Hpx Hpy] [Hrx Hry] Hoff. unfold inGrid.
  assert (∀ x, r_x room ≤ x < r_x room + r_width room →
            x ≠ g_x grid ∧ x ≠ g_x grid + g_width grid - 1) as Hx.
  { intros x Hx. specialize (Hoff x (p_y point) (conj Hx Hry)). unfold onGridBorder in Hoff.
    lia. }
  assert (∀ y, r_y room ≤ y < r_y room + r_height room →
            y ≠ g_y grid ∧ y ≠ g_y grid + g_height grid - 1) as Hy.
  { intros y Hy. specialize (Hoff (p_x point) y (conj Hrx Hy)). unfold onGridBorder in Hoff.
    lia. }
  split_and!.
  - destruct (decide (g_x grid < r_x room)); [done|]. destruct (Hx (g_x grid)); lia.
  - destruct (decide (r_x room + r_width room < g_x grid + g_width grid)); [done|].
    destruct (Hx (g_x grid + g_width grid - 1)); lia.
  - destruct (decide (g_y grid < r_y room)); [done|]. destruct (Hy (g_y grid)); lia.
  - destruct (decide (r_y room + r_height room < g_y grid + g_height grid)); [done|].
    destruct (Hy (g_y grid + g_height grid - 1)); lia.
Qed.

Lemma layout_checked d :
  sizesOk (params d) →
  post (layout d) (λ d', Forall (settledRoom d') (roomList d')).
Proof.
  intros HP. unfold layout. apply post_bind_any. intros n.
  unfold adjusted. destruct (adjustRoomCount_total n) as (R & -> & Hdiv & _).
  change (post (?m ≫= ?f) ?Q) with (post (f R) Q) at 1. cbv beta.
  set (d0 := set_roomCount R _).
  set (d1 := set_connectionList _ _).
  assert (params d1 = params d) as HP1.
  { unfold d1, d0, createGrid. simpl. by destruct (_ =? _). }
  assert (shaped d1) as Hs1.
  { unfold d1, d0, shaped, createGrid. simpl. destruct (_ =? _); simpl; apply newBoard_shaped. }
  assert (∀ i grid, lookupZ (gridList d1) i = Some grid → g_index grid = i) as Hidx.
  { intros i grid. apply (createGrid_indices d0). exact Hdiv. }
  apply post_bind.
  eapply post_mono;
    [|apply (post_and3 _ (pathsLaid d1) (λ d', params d' = params d1 ∧ shaped d')
               (λ d', params d' = params d1 ∧ roomList d' = roomList d1 ∧
                      specialPoints d' = specialPoints d1 ∧ gridList d' = gridList d1));
       [by apply createPaths_post|by apply createPaths_shaped|apply createPaths_frame]].
  intros d2 (Hlaid & (HP2 & Hs2) & (_ & _ & _ & Hg2)).
  apply post_bind.
  eapply post_mono; [|apply (createRooms_checked (set_roomList [] d2)); exact Hs2].
  intros d3 ((HP3 & _ & _ & Hg3) & Hp3 & Hrooms). simpl in HP3, Hg3, Hp3, Hrooms.
  specialize (Hrooms ltac:(constructor)).
  eapply post_mono; [|apply always_post, addRandomPaths_carved].
  intros d4 [_ ->]. simpl.
  destruct Hlaid as (Hlen & Hpts & _).
  assert (∀ (k : nat) p, pointList d2 !! k = Some p → p_gridIndex p = Z.of_nat k) as Hpidx.
  { intros k p Hk. pose proof (lookup_lt_Some _ _ _ Hk) as Hlt. rewrite Hlen in Hlt.
    destruct (lookup_lt_is_Some_2 _ _ Hlt) as [grid Hg].
    destruct (Hpts k grid Hg) as (p' & Hp' & Hgi & _). congruence. }
  eapply Forall_impl; [exact Hrooms|]. intros room Hroom Hon.
  destruct (Hroom Hon) as (grid & point & Hg & Hhead & Hin & Hcells).
  rewrite Hg2 in Hg. pose proof (Hidx _ _ Hg) as Hgi. rewrite Hgi in Hhead.
  apply (head_filter_lookup _ _ _ Hpidx) in Hhead.
  exists grid, point. simpl. rewrite Hg3, Hp3, HP3, Hg2.
  split_and!; [done..|].
  intros Hroomy.
  unfold lookupZ in Hg, Hhead. destruct (decide (0 ≤ r_grid room)); [|done].
  destruct (Hpts _ _ Hg) as (p' & Hp' & _ & Hpin & _).
  rewrite Hhead in Hp'. injection Hp' as <-.
  rewrite HP2, HP1 in Hroomy.
  destruct HP as [HPx HPy].
  apply (covered_inGrid (params d1) grid room point); rewrite ?HP1; [lia|lia| |done|].
  - rewrite <- HP1. apply Hpin. by rewrite HP1.
  - intros x y Hxy. by apply Hcells.
Qed.

(** X18. After a generation attempt, a room of [roomList] whose flag [onPoint]
    is set lies in the grid of its index and covers the point of that
    grid; all its cells are on the board and off the border of the grid,
    and in a grid that is at least twice as wide and as high as the
    minimum room size it lies strictly inside the grid. *)
Theorem regenerate_checked_rooms fuel d r d' r' room :
  rng_ok r → sizesOk (params d) →
  run (regenerate fuel d) r = Ok d' r' →
  room ∈ roomList d' → r_onPoint room = true →
  ∃ grid point,
    lookupZ (gridList d') (r_grid room) = Some grid ∧
    lookupZ (pointList d') (r_grid room) = Some point ∧
    inRoom room (p_x point) (p_y point) ∧
    (∀ x y, inRoom room x y → inBounds (params d') x y ∧ ¬ onGridBorder grid x y) ∧
    (roomy (params d') grid → inGrid grid room).
Proof.
  intros Hr HP Hrun Hin Hon. unfold regenerate in Hrun.
  apply run_bind_Ok in Hrun as (d1 & r1 & Hlay & Hrun).
  apply run_bind_Ok in Hrun as (v & r2 & Hval & Hrun).
  injection Hrun as <- <-.
  destruct (post_run _ _ _ _ _ Hr (layout_checked d HP) Hlay) as [Hrooms _].
  rewrite Forall_forall in Hrooms. by apply (Hrooms room).
Qed.

(** ** A generation attempt starts afresh *)

Lemma sim_refl {A} (R : A → A → Prop) (p : Gen A) : (∀ a, R a a) → sim R p p.
Proof. intros HR. induction p; simpl; auto. Qed.

Lemma sim_bind {A B} (R : A → A → Prop) (R' : B → B → Prop) (m m' : Gen A)
    (f f' : A → Gen B) :
  sim R m m' → (∀ a b, R a b → sim R' (f a) (f' b)) → sim R' (m ≫= f) (m' ≫= f').
Proof.
  unfold mbind, gen_bind. revert m'.
  induction m as [a|lo hi k IH| |]; intros [b|lo' hi' k'| |]; simpl; try done.
  - intros HR Hf. by apply Hf.
  - intros (-> & -> & Hk) Hf. split_and!; [done..|]. intros v. by apply IH.
Qed.

Lemma sim_bind_same {A B} (R : B → B → Prop) (m : Gen A) (f f' : A → Gen B) :
  (∀ a, sim R (f a) (f' a)) → sim R (m ≫= f) (m ≫= f').
Proof.
  unfold mbind, gen_bind. intros Hf. induction m as [a|lo hi k IH| |]; simpl; auto.
Qed.

Lemma sim_foldGen {A S} (R : S → S → Prop) (f : S → A → Gen S) (l : list A) s s' :
  (∀ s s' a, R s s' → sim R (f s a) (f s' a)) → R s s' →
  sim R (foldGen f l s) (foldGen f l s').
Proof.
  intros Hf. revert s s'. induction l as [|a l IH]; intros s s' Hs; simpl; [done|].
  eapply sim_bind; [by apply Hf|]. intros. by apply IH.
Qed.

Lemma sim_run {A} (p q : Gen A) r : sim eq p q → run p r = run q r.
Proof.
  revert q r. induction p as [a|lo hi k IH| |]; intros [b|lo' hi' k'| |] r; simpl; try done.
  - by intros ->.
  - intros (-> & -> & Hk). destruct (randomInt lo' hi' r) as [v r1]. by apply IH.
Qed.

Lemma alike_eq d d' : alike d d' → validDungeon d = validDungeon d' → d = d'.
Proof.
  destruct d, d'. unfold alike. simpl. intros (?&?&?&?&?&?&?&?&?&?) ?. congruence.
Qed.

Lemma createPaths_sim d d' : akin d d' → sim akin (createPaths d) (createPaths d').
Proof.
  intros (HP & Hp & Hr & Hc & Hb & Hg & Hpl & Hcl & Hs). unfold createPaths.
  rewrite HP, Hp, Hb, Hg, Hpl, Hcl.
  do 4 (apply sim_bind_same; intros ?). simpl. unfold akin. simpl. done.
Qed.

Lemma placeRoom_sim d d' i grid :
  alike d d' → sim alike (placeRoom d i grid) (placeRoom d' i grid).
Proof.
  intros (HP & Hp & Hr & Hc & Hb & Hg & Hpl & Hcl & Hrl & Hs). unfold placeRoom.
  rewrite HP, Hr, Hb, Hpl, Hcl, Hrl.
  apply sim_bind_same. intros touches.
  destruct (bool_decide _); [simpl; unfold alike; done|].
  apply sim_bind_same. intros c. apply sim_bind_same. intros [[c' vp] op].
  apply sim_bind_same. intros diceRoll.
  destruct (_ <=? _); [|simpl; unfold alike; done].
  apply sim_bind_same. intros b. simpl. unfold alike. simpl. done.
Qed.

Lemma designateRooms_sim d d' :
  alike d d' → sim alike (designateRooms d) (designateRooms d').
Proof.
  intros (HP & Hp & Hr & Hc & Hb & Hg & Hpl & Hcl & Hrl & Hs). unfold designateRooms.
  rewrite Hb, Hrl.
  destruct (bool_decide _); [|simpl; unfold alike; done].
  apply sim_bind_same. intros entryIndex.
  destruct (lookupZ _ _); [|done].
  do 10 (apply sim_bind_same; intros ?). simpl. unfold alike. simpl. done.
Qed.

Lemma createRooms_sim d d' :
  alike d d' → sim alike (createRooms d) (createRooms d').
Proof.
  intros Hd. unfold createRooms. rewrite (proj1 (proj2 (proj2 (proj2 (proj2 (proj2 Hd)))))).
  eapply sim_bind.
  - apply sim_foldGen; [|done]. intros s s' [i grid] Hs. by apply placeRoom_sim.
  - intros a b Hab. by apply designateRooms_sim.
Qed.

Lemma addRandomPaths_sim d d' :
  alike d d' → sim alike (addRandomPaths d) (addRandomPaths d').
Proof.
  intros (HP & Hp & Hr & Hc & Hb & Hg & Hpl & Hcl & Hrl & Hs). unfold addRandomPaths.
  rewrite HP, Hb.
  do 3 (apply sim_bind_same; intros ?). simpl. unfold alike. simpl. done.
Qed.

Lemma validateDungeon_alike fuel d d' :
  alike d d' → validateDungeon fuel d = validateDungeon fuel d'.
Proof.
  intros (HP & Hp & Hr & Hc & Hb & Hg & Hpl & Hcl & Hrl & Hs). unfold validateDungeon.
  by rewrite Hb, Hg, Hpl, Hrl.
Qed.

Lemma regenerate_sim fuel d d' :
  params d = params d' → pointLossChance d = pointLossChance d' →
  roomLossChance d = roomLossChance d' → specialPoints d = specialPoints d' →
  sim eq (regenerate fuel d) (regenerate fuel d').
Proof.
  intros HP Hp Hr Hs. unfold regenerate.
  eapply (sim_bind alike).
  - unfold layout. rewrite HP.
    apply sim_bind_same. intros n. apply sim_bind_same. intros R.
    eapply (sim_bind akin).
    + apply createPaths_sim. unfold akin, createGrid. simpl. rewrite HP.
      destruct (_ =? _); simpl; done.
    + intros a b (?&?&?&?&?&?&?&?&?).
      eapply (sim_bind alike).
      * apply createRooms_sim. unfold alike. simpl. done.
      * intros a' b' Hab'. by apply addRandomPaths_sim.
  - intros a b Hab. rewrite (validateDungeon_alike fuel a b Hab).
    apply sim_bind_same. intros v. simpl. apply alike_eq; [|done].
    unfold alike in *. simpl. done.
Qed.

(** X5. [regenerate] starts afresh: what it returns depends on the instance
    only through the dimensions, room sizes and counts, the two loss
    chances and [specialPoints], not on the board, the lists or the
    validity flag that an earlier attempt has left. *)
Theorem regenerate_fresh fuel d d' r :
  params d = params d' → pointLossChance d = pointLossChance d' →
  roomLossChance d = roomLossChance d' → specialPoints d = specialPoints d' →
  run (regenerate fuel d) r = run (regenerate fuel d') r.
Proof. intros. by apply sim_run, regenerate_sim. Qed.

(** ** The validator and the border of the board *)

Lemma validateDungeon_filled fuel d r valid r' :
  run (validateDungeon fuel d) r = Ok valid r' →
  ∃ firstTile S,
    firstTile ∈ pointList d ∧
    floodLoop fuel (board d) [xy firstTile] 0 ∅ = Filled S.
Proof.
  unfold validateDungeon. intros Hrun.
  apply run_bind_Ok in Hrun as (k & r1 & _ & Hrun).
  apply run_bind_Ok in Hrun as (firstTile & r2 & Hfirst & Hrun).
  destruct (lookupZ (pointList d) k) as [p|] eqn:Ep; [|done].
  simpl in Hfirst. injection Hfirst as <- <-.
  destruct (floodLoop fuel (board d) [xy p] 0 ∅) as [S| |] eqn:Ef; [|done..].
  exists p, S. split; [|done].
  unfold lookupZ in Ep. destruct (decide _); [|done]. by eapply list_elem_of_lookup_2.
Qed.



(** X4. After [seedRandom(s)], [regenerate()] is reproducible: on two
    instances with the same settings and special points it returns the
    same dungeon, whatever they held before and whatever [Math.random]
    would have returned. *)
Theorem reseeded_regenerate fuel s d d' r r' :
  params d = params d' → pointLossChance d = pointLossChance d' →
  roomLossChance d = roomLossChance d' → specialPoints d = specialPoints d' →
  value (run (regenerate fuel d) (seedRandom (Some s) r))
  = value (run (regenerate fuel d') (seedRandom (Some s) r')).
Proof.
  intros HP Hp Hr Hs. unfold seedRandom.
  rewrite (sim_run _ _ _ (regenerate_sim fuel d d' HP Hp Hr Hs)).
  apply run_seeded.
Qed.

(** ** What [#createPaths] lays out *)

(** X15. One point per grid, in the order of the grids, each with the index of
    its grid, at least the minimum room size away from the border of a
    grid that is wide and high enough, and on a tile that is not a wall. *)
Theorem createPaths_points d r d' r' (i : nat) grid :
  rng_ok r → pointList d = [] → connectionList d = [] →
  run (createPaths d) r = Ok d' r' →
  gridList d !! i = Some grid →
  length (pointList d') = length (gridList d) ∧
  ∃ point, pointList d' !! i = Some point ∧ p_gridIndex point = Z.of_nat i ∧
           (roomy (params d) grid → pointInGrid (params d) grid point) ∧
           nonWallAt (board d') (p_x point) (p_y point).
Proof.
  intros Hr Hpl Hcl Hrun Hg.
  destruct (post_run _ _ _ _ _ Hr (createPaths_post d Hpl Hcl) Hrun)
    as [(Hlen & Hpts & _) _].
  split; [done|]. by apply Hpts.
Qed.

(** X16. The connections are some of those of a grid with a grid adjacent to
    it, in the order of the two loops; all of them with a loss chance
    below 1, none of them with a loss chance of 100 or more. *)
Theorem createPaths_connections d r d' r' :
  rng_ok r → pointList d = [] → connectionList d = [] →
  run (createPaths d) r = Ok d' r' →
  sublist (connectionList d') (allConnections (gridList d) (pointList d')) ∧
  (pointLossChance d < 1 →
   connectionList d' = allConnections (gridList d) (pointList d')) ∧
  (100 ≤ pointLossChance d → connectionList d' = []).
Proof.
  intros Hr Hpl Hcl Hrun.
  destruct (post_run _ _ _ _ _ Hr (createPaths_post d Hpl Hcl) Hrun)
    as [(_ & _ & Hsub & Hall & Hnone & _) _].
  done.
Qed.

(** X17. Every connection that was kept has a path, and every tile of that
    path is a corridor tile of the board. *)
Theorem createPaths_corridors d r d' r' c :
  rng_ok r → pointList d = [] → connectionList d = [] →
  run (createPaths d) r = Ok d' r' →
  c ∈ connectionList d' →
  ∃ path, connectionPath c = Some path ∧
          ∀ q, q ∈ path → getCell (board d') q.1 q.2 = Some (Some TP).
Proof.
  intros Hr Hpl Hcl Hrun Hc.
  destruct (post_run _ _ _ _ _ Hr (createPaths_post d Hpl Hcl) Hrun)
    as [(_ & _ & _ & _ & _ & Hcorr & _) _].
  by apply Hcorr.
Qed.

(** ** Witnesses on more sample runs *)

Lemma rng_ok_seed42 : rng_ok seed42.
Proof. unfold rng_ok, seed42. simpl. lia. Qed.

Lemma fmap_cons_elem {A B} (f : A → B) (l : list A) b bs :
  f <$> l = b :: bs → ∃ a, a ∈ l ∧ f a = b.
Proof.
  destruct l as [|a l]; [done|]. intros [= Ha _]. exists a. split; [by left|done].
Qed.

Lemma length_elem {A} (l : list A) (n : nat) : length l = S n → ∃ a, a ∈ l.
Proof. destruct l as [|a l]; [done|]. intros _. exists a. by left. Qed.

Lemma filled_Filled f : filled f = true → ∃ S, f = Filled S.
Proof. destruct f; [by eexists|done..]. Qed.

(** One generation attempt on [blankDungeon], seeded with 42: it returns
    four rooms, each on its point, on a board with nothing outside its
    rows, and the validator returns on that board. *)
Lemma sample_attempt_details :
  let o := run (regenerate 5000 blankDungeon) seed42 in
  let d := returned o blankDungeon in
  (returns o, length (roomList d), r_onPoint <$> roomList d,
   boardExactb (colCount (params d)) (rowCount (params d)) (board d),
   returns (run (validateDungeon 5000 d) seed42))
  = (true, 4%nat, [true; true; true; true], true, true).
Proof. vm_compute. reflexivity. Qed.

(** The constructor returns on [sampleOptions]. *)
Lemma sample_construction_observed :
  returns (newDungeon 5000 sampleOptions (λ _, 0)) = true.
Proof. vm_compute. reflexivity. Qed.

(** [#createPaths] returns on [griddedDungeon], with four connections. *)
Lemma sample_paths_observed :
  let o := run (createPaths griddedDungeon) seed42 in
  (returns o, length (connectionList (returned o blankDungeon))) = (true, 4%nat).
Proof. vm_compute. reflexivity. Qed.

Lemma seed_period_witness :
  0 ≤ 42 ∧ 0 ≤ 3 ∧ (42 + 233280 * 3) * 9301 + 49297 < 2 ^ 53 ∧
  newDungeon 5000 (with_seed (Some (42 + 233280 * 3)) sampleOptions) (λ _, 0)
  = newDungeon 5000 (with_seed (Some 42) sampleOptions) (λ _, 0).
Proof.
  split_and!; [lia..|].
  apply (seed_period 5000 sampleOptions 42 3 (λ _, 0)); lia.
Defined.

Lemma getSeed_after_construction_witness :
  let o := newDungeon 5000 sampleOptions (λ _, 0) in
  o = Ok (returned o blankDungeon) (sourceAfter o seed42) ∧
  ∃ s', getSeed (sourceAfter o seed42) = Some s' ∧ 0 ≤ s' < 233280.
Proof.
  intros o.
  pose proof (returns_Ok o blankDungeon seed42 sample_construction_observed) as Hrun.
  split; [exact Hrun|].
  apply (proj2 (getSeed_after_construction 5000 sampleOptions (λ _, 0) _ _ Hrun) 42);
    [reflexivity|lia].
Defined.

Lemma constructed_settled_witness :
  let o := newDungeon 5000 sampleOptions (λ _, 0) in
  let d := returned o blankDungeon in
  o = Ok d (sourceAfter o seed42) ∧ validDungeon d = true ∧ enoughRooms d.
Proof.
  intros o d.
  pose proof (returns_Ok o blankDungeon seed42 sample_construction_observed) as Hrun.
  split; [exact Hrun|].
  destruct (constructed_settled 5000 sampleOptions (λ _, 0) _ _ Hrun) as (Hv & He & _).
  split; [exact Hv|exact He].
Defined.

Lemma constructed_entry_exit_witness :
  let o := newDungeon 5000 sampleOptions (λ _, 0) in
  let d := returned o blankDungeon in
  o = Ok d (sourceAfter o seed42) ∧ (2 ≤ length (roomList d))%nat ∧ entryExitOk d.
Proof.
  intros o d.
  pose proof (returns_Ok o blankDungeon seed42 sample_construction_observed) as Hrun.
  split; [exact Hrun|].
  apply (constructed_entry_exit 5000 sampleOptions (λ _, 0) d (sourceAfter o seed42)
           rng_ok_seed42); [simpl; lia|exact Hrun].
Defined.

Lemma newDungeon_getTileAt_witness :
  let o := newDungeon 5000 sampleOptions (λ _, 0) in
  let d := returned o blankDungeon in
  o = Ok d (sourceAfter o seed42) ∧
  (getTileAt d 20 0 = RNull ↔ ¬ inBounds (params d) 20 0).
Proof.
  intros o d.
  pose proof (returns_Ok o blankDungeon seed42 sample_construction_observed) as Hrun.
  split; [exact Hrun|].
  exact (proj1 (newDungeon_getTileAt 5000 sampleOptions (λ _, 0) _ _ 20 0
                  rng_ok_seed42 Hrun)).
Defined.

Lemma createPaths_points_witness :
  let o := run (createPaths griddedDungeon) seed42 in
  let d' := returned o blankDungeon in
  o = Ok d' (sourceAfter o seed42) ∧
  length (pointList d') = length (gridList griddedDungeon) ∧
  ∃ point, pointList d' !! 3%nat = Some point ∧ p_gridIndex point = 3.
Proof.
  intros o d'. pose proof sample_paths_observed as H. cbv zeta in H.
  apply pair_eq in H as [Hret _].
  pose proof (returns_Ok _ blankDungeon seed42 Hret) as Hrun.
  split; [exact Hrun|].
  destruct (createPaths_points griddedDungeon seed42 _ _ 3 (mkGrid 10 10 10 10 3)
              rng_ok_seed42 eq_refl eq_refl Hrun eq_refl)
    as (Hlen & point & Hp & Hi & _).
  split; [exact Hlen|]. exists point. split; [exact Hp|exact Hi].
Defined.

Lemma createPaths_connections_witness :
  let o := run (createPaths griddedDungeon) seed42 in
  let d' := returned o blankDungeon in
  o = Ok d' (sourceAfter o seed42) ∧
  connectionList d' = allConnections (gridList griddedDungeon) (pointList d').
Proof.
  intros o d'. pose proof sample_paths_observed as H. cbv zeta in H.
  apply pair_eq in H as [Hret _].
  pose proof (returns_Ok _ blankDungeon seed42 Hret) as Hrun.
  split; [exact Hrun|].
  destruct (createPaths_connections griddedDungeon seed42 _ _
              rng_ok_seed42 eq_refl eq_refl Hrun) as (_ & Hall & _).
  apply Hall. reflexivity.
Defined.

Lemma createPaths_corridors_witness :
  let o := run (createPaths griddedDungeon) seed42 in
  let d' := returned o blankDungeon in
  o = Ok d' (sourceAfter o seed42) ∧
  ∃ c path, c ∈ connectionList d' ∧ connectionPath c = Some path ∧
            ∀ q, q ∈ path → getCell (board d') q.1 q.2 = Some (Some TP).
Proof.
  intros o d'. pose proof sample_paths_observed as H. cbv zeta in H.
  apply pair_eq in H as [Hret Hlen].
  pose proof (returns_Ok _ blankDungeon seed42 Hret) as Hrun.
  split; [exact Hrun|].
  destruct (length_elem _ _ Hlen) as [c Hc]. exists c.
  destruct (createPaths_corridors griddedDungeon seed42 _ _ c
              rng_ok_seed42 eq_refl eq_refl Hrun Hc) as (path & Hp & Hq).
  exists path. split_and!; [exact Hc|exact Hp|exact Hq].
Defined.

Lemma regenerate_walkable_witness :
  let o := run (regenerate 5000 blankDungeon) seed42 in
  let d' := returned o blankDungeon in
  o = Ok d' (sourceAfter o seed42) ∧
  ∀ point, point ∈ pointList d' → inBounds (params d') (p_x point) (p_y point) →
           isWalkable d' (p_x point) (p_y point) = WBool true.
Proof.
  intros o d'. pose proof sample_attempt_details as H. cbv zeta in H.
  apply pair_eq in H as [H _]. apply pair_eq in H as [H _].
  apply pair_eq in H as [H _]. apply pair_eq in H as [Hret _].
  pose proof (returns_Ok _ blankDungeon seed42 Hret) as Hrun.
  split; [exact Hrun|].
  exact (proj1 (proj2 (regenerate_walkable 5000 blankDungeon seed42 _ _
                         rng_ok_seed42 Hrun))).
Defined.

Lemma regenerate_marks_entry_exit_witness :
  let o := run (regenerate 5000 blankDungeon) seed42 in
  let d' := returned o blankDungeon in
  o = Ok d' (sourceAfter o seed42) ∧ length (roomList d') = 4%nat ∧
  ∃ entry exit,
    specialPoints d' = mkSpecial (Some entry) (Some exit) ∧
    getCell (board d') exit.1 exit.2 = Some (Some TEXIT).
Proof.
  intros o d'. pose proof sample_attempt_details as H. cbv zeta in H.
  apply pair_eq in H as [H _]. apply pair_eq in H as [H _].
  apply pair_eq in H as [H _]. apply pair_eq in H as [Hret Hlen].
  pose proof (returns_Ok _ blankDungeon seed42 Hret) as Hrun.
  split; [exact Hrun|]. split; [exact Hlen|].
  assert (2 ≤ length (roomList (returned (run (regenerate 5000 blankDungeon) seed42)
                                  blankDungeon)))%nat as H2
    by (rewrite Hlen; lia).
  destruct (regenerate_marks_entry_exit 5000 blankDungeon seed42 _ _
              rng_ok_seed42 Hrun H2) as (entry & exit & Hs & He & _).
  exists entry, exit. split; [exact Hs|exact He].
Defined.


Lemma regenerate_lossy_witness :
  let o := run (regenerate 5000 (instance lossyOptions 4)) seed42 in
  let d' := returned o blankDungeon in
  o = Ok d' (sourceAfter o seed42) ∧ roomList d' = [] ∧ validDungeon d' = false.
Proof.
  intros o d'.
  assert (returns o = true) as Hret by (vm_compute; reflexivity).
  pose proof (returns_Ok _ blankDungeon seed42 Hret) as Hrun.
  split; [exact Hrun|].
  destruct (regenerate_lossy 5000 (instance lossyOptions 4) seed42 _ _
              rng_ok_seed42 ltac:(simpl; lia) ltac:(simpl; lia) Hrun)
    as (_ & Hrooms & _ & Hv).
  split; [exact Hrooms|exact Hv].
Defined.

Lemma regenerate_checked_rooms_witness :
  let o := run (regenerate 5000 blankDungeon) seed42 in
  let d' := returned o blankDungeon in
  o = Ok d' (sourceAfter o seed42) ∧
  ∃ room grid, room ∈ roomList d' ∧ r_onPoint room = true ∧
    lookupZ (gridList d') (r_grid room) = Some grid ∧
    ∀ x y, inRoom room x y → inBounds (params d') x y ∧ ¬ onGridBorder grid x y.
Proof.
  intros o d'. pose proof sample_attempt_details as H. cbv zeta in H.
  apply pair_eq in H as [H _]. apply pair_eq in H as [H _].
  apply pair_eq in H as [H Hon]. apply pair_eq in H as [Hret _].
  pose proof (returns_Ok _ blankDungeon seed42 Hret) as Hrun.
  split; [exact Hrun|].
  destruct (fmap_cons_elem _ _ _ _ Hon) as (room & Hin & Hroom).
  destruct (regenerate_checked_rooms 5000 blankDungeon seed42 _ _ room
              rng_ok_seed42 ltac:(unfold sizesOk; simpl; lia) Hrun Hin Hroom)
    as (grid & point & Hg & _ & _ & Hcells & _).
  exists room, grid. split_and!; [exact Hin|exact Hroom|exact Hg|exact Hcells].
Defined.



Lemma regenerate_fresh_witness :
  params blankDungeon = params corridorDungeon ∧
  run (regenerate 5000 blankDungeon) seed42
  = run (regenerate 5000 corridorDungeon) seed42.
Proof.
  split; [reflexivity|].
  exact (regenerate_fresh 5000 blankDungeon corridorDungeon seed42
           eq_refl eq_refl eq_refl eq_refl).
Defined.

Lemma reseeded_regenerate_witness :
  params blankDungeon = params corridorDungeon ∧
  value (run (regenerate 5000 blankDungeon) (seedRandom (Some 42) zeroRandom))
  = value (run (regenerate 5000 corridorDungeon) (seedRandom (Some 42) seed42)).
Proof.
  split; [reflexivity|].
  exact (reseeded_regenerate 5000 42 blankDungeon corridorDungeon zeroRandom seed42
           eq_refl eq_refl eq_refl eq_refl).
Defined.
